(** * seasmon_xr.ops.ws2dwcvp: Whittaker smoothing with GCV-selected penalty,
      robust reweighting and asymmetric (envelope) weights

    A shallow embedding of [src/seasmon_xr/ops/ws2dwcvp.py].  The arrays are
    [float64] arrays, modelled as lists of Rocq's primitive binary64 floats, so
    that NaN, the infinities, signed zeros and rounding behave as they do in the
    compiled code.  The smoothing operator [ws2d] lives in another module of the
    package and [cos], [**] and [median] come from NumPy: they are the fields of
    the class [Runtime], and every theorem holds for each of its instances. *)

From Stdlib Require Import ZArith List Bool Lia.
From Stdlib Require Import Uint63 Floats.
Import ListNotations.

Set Warnings "-inexact-float".

(** ** Exceptions and the call log *)

Inductive exn : Type :=
| IndexError          (* a subscript outside a list *)
| ValueError          (* arrays whose shapes do not broadcast *)
| ZeroDivisionError.  (* a float divided by zero where Python's error model is in force *)

Inductive result (A : Type) : Type :=
| Ok (a : A)
| Raise (e : exn).

Arguments Ok {A} a.
Arguments Raise {A} e.

Definition array := list float.

(** One entry per call [ws2d(y, lmda, w)]: the penalty and the weights. *)
Definition call : Type := float * array.

(** Computations that may raise and that log the calls of the smoothing
    operator, in order. *)
Definition Smooth (A : Type) : Type := list call -> result A * list call.

Definition ret {A} (a : A) : Smooth A := fun tr => (Ok a, tr).

Definition raise {A} (e : exn) : Smooth A := fun tr => (Raise e, tr).

Definition bind {A B} (m : Smooth A) (k : A -> Smooth B) : Smooth B :=
  fun tr =>
    match m tr with
    | (Ok a, tr') => k a tr'
    | (Raise e, tr') => (Raise e, tr')
    end.

Notation "x <- m ;; k" := (bind m (fun x => k))
  (at level 61, m at next level, right associativity).

Fixpoint foldM {A B} (f : A -> B -> Smooth A) (l : list B) (a : A) : Smooth A :=
  match l with
  | [] => ret a
  | b :: l' => a' <- f a b ;; foldM f l' a'
  end.

(** ** float64 arrays *)

Open Scope float_scope.

(** An [int64] (non-negative here: a length, an index or a count) used where a
    float is expected. *)
Definition Z2f (z : Z) : float := of_uint63 (Uint63.of_Z z).

Fixpoint map2 {A B C} (f : A -> B -> C) (a : list A) (b : list B) : list C :=
  match a, b with
  | x :: a', y :: b' => f x y :: map2 f a' b'
  | _, _ => []
  end.

(** [a.sum()]: the compiled loop adds the elements left to right onto 0.0. *)
Definition np_sum (a : array) : float := fold_left add a 0.

Definition np_zeros (m : nat) : array := repeat 0 m.
Definition np_ones (m : nat) : array := repeat 1 m.

(** [numpy.arange(m)] where it meets a float. *)
Definition np_arange (m : nat) : array := map (fun k => Z2f (Z.of_nat k)) (seq 0 m).

(** [a[mask]] *)
Fixpoint select (mask : list bool) (a : array) : array :=
  match mask, a with
  | b :: mask', x :: a' => if b then x :: select mask' a' else select mask' a'
  | _, _ => []
  end.

(** [a[mask] = v] *)
Definition assign_where (mask : list bool) (v : float) (a : array) : array :=
  map2 (fun (b : bool) x => if b then v else x) mask a.

(** [a[0] = v].  The compiled code checks no bound: on an empty array the
    store falls outside of it and the array is as before. *)
Definition setitem0 (v : float) (a : array) : result array :=
  match a with
  | [] => Ok []
  | _ :: a' => Ok (v :: a')
  end.

(** An array variable that no assignment has reached: the compiled code holds
    the zero-filled header of an empty array. *)
Definition unassigned : array := [].

Definition array_of (v : option array) : array :=
  match v with
  | Some a => a
  | None => unassigned
  end.

Definition np_pi : float := 3.141592653589793.

(** ** Rounding and the store into the [int16] output

    [numpy.round_(z, 0)] rounds to the nearest integer, halves to the even one.
    A float is [(-1)^s * m * 2^e]; for [e < 0] the integer part is [m >> -e]
    and the discarded bits decide the rounding. *)

Definition round_half_even (m : positive) (e : Z) : Z :=
  if (0 <=? e)%Z then Z.shiftl (Zpos m) e
  else
    let k := (- e)%Z in
    let q := Z.shiftr (Zpos m) k in
    let r := Z.land (Zpos m) (Z.ones k) in
    let h := Z.shiftl 1 (k - 1) in
    if (r <? h)%Z then q
    else if (h <? r)%Z then (q + 1)%Z
    else if Z.even q then q else (q + 1)%Z.

Definition np_round (x : float) : float :=
  match Prim2SF x with
  | S754_finite s m e =>
      if (0 <=? e)%Z then x
      else let r := Z2f (round_half_even m e) in if s then - r else r
  | _ => x
  end.

(** The integer a float converts to when the conversion is defined (the
    fractional part is dropped); NaN and the infinities convert to nothing. *)
Definition f64_trunc (x : float) : option Z :=
  match Prim2SF x with
  | S754_zero _ => Some 0%Z
  | S754_finite s m e =>
      let a := if (0 <=? e)%Z then Z.shiftl (Zpos m) e else Z.shiftr (Zpos m) (- e) in
      Some (if s then (- a)%Z else a)
  | _ => None
  end.

Definition int16_range (z : Z) : bool := ((-32768 <=? z) && (z <=? 32767))%Z.

(** ** What the module takes from outside

    - [ws2d y lmda w]: the Whittaker smoother of [seasmon_xr.ops.ws2d], which
      returns a curve as long as [y];
    - [np_cos], [np_power] ([**]) and [np_median]: NumPy's functions;
    - [cast_undef]: what a store of a float into the [int16] output leaves when
      the value is NaN, infinite or out of range (the compiled conversion is
      not defined there). *)
Class Runtime : Type := {
  ws2d : array -> float -> array -> array;
  np_cos : float -> float;
  np_power : float -> float -> float;
  np_median : array -> float;
  cast_undef : float -> Z;
  ws2d_shape : forall y lmda w, length (ws2d y lmda w) = length y
}.

Definition f64_to_i16 {R : Runtime} (x : float) : Z :=
  match f64_trunc x with
  | Some z => if int16_range z then z else cast_undef x
  | None => cast_undef x
  end.

(** The smoother, logged. *)
Definition call_ws2d {R : Runtime} (y : array) (lmda : float) (w : array) : Smooth array :=
  fun tr => (Ok (ws2d y lmda w), tr ++ [(lmda, w)]).

(** ** Pieces shared by the two entry points' embeddings: none of the loops,
    only the array expressions that both functions spell the same way. *)

Section Expressions.
Context {R : Runtime}.

(** [(y[ii] == nodata) or numpy.isnan(y[ii]) or numpy.isinf(y[ii])] *)
Definition invalid (nodata x : float) : bool :=
  (x =? nodata) || is_nan x || is_infinity x.

(** [-2 + 2 * numpy.cos(numpy.arange(m) * numpy.pi / m)], then [d_eigs[0] = 1e-15] *)
Definition eigenvalues (m : nat) : result array :=
  setitem0 1e-15
    (map (fun k => (-2) + 2 * np_cos (k * np_pi / Z2f (Z.of_nat m))) (np_arange m)).

(** [w_temp / (w_temp + lmda * ((-1 * d_eigs) ** 2))] *)
Definition gamma_of (w_temp d_eigs : array) (lmda : float) : array :=
  map2 div w_temp
    (map2 add w_temp (map (fun d => lmda * np_power ((-1) * d) 2) d_eigs)).

(** [(((w_temp**0.5) * (y - NDVI_smoothed)) ** 2).sum()] *)
Definition wsse_of (y w_temp NDVI_smoothed : array) : float :=
  np_sum (map (fun v => np_power v 2)
            (map2 mul (map (fun v => np_power v 0.5) w_temp)
                      (map2 sub y NDVI_smoothed))).

(** The score of one candidate, lines 78-82. *)
Definition gcv_score_of (y w_temp d_eigs : array) (lmda : float) (NDVI_smoothed : array)
  : float :=
  let gamma := gamma_of w_temp d_eigs lmda in
  let tr_H := np_sum gamma in
  let wsse := wsse_of y w_temp NDVI_smoothed in
  let denominator := np_sum w_temp * np_power (1 - tr_H / np_sum w_temp) 2 in
  wsse / denominator.

(** The body of [if robust:], lines 94-107: the new [r_weights]. *)
Definition tukey_update (y w_temp d_eigs : array) (s : float)
           (tempNDVI_arr r_weights : array) (n : float) : array :=
  let gamma := gamma_of w_temp d_eigs s in
  let r_arr := map2 sub y tempNDVI_arr in
  let kept := select (map (fun v => negb (v =? 0)) r_weights) r_arr in
  let MAD := np_median (map abs (map (fun v => v - np_median kept) kept)) in
  let u_arr := map (fun v => v / (1.4826 * MAD * sqrt (1 - np_sum gamma / n))) r_arr in
  let r_weights := map (fun u => np_power (1 - np_power (u / 4.685) 2) 2) u_arr in
  let r_weights := assign_where (map (fun u => 1 <? abs (u / 4.685)) u_arr) 0 r_weights in
  assign_where (map (fun v => 0 <? v) r_arr) 1 r_weights.

(** Lines 123-131: [wa[j]] and [ww[j]] for every [j]. *)
Fixpoint envelope_weights (p : float) (y z robust_weights : array) : array :=
  match y, z, robust_weights with
  | y_tmp :: y', z_tmp :: z', rw :: rw' =>
      let wa := if z_tmp <? y_tmp then p else 1 - p in
      rw * wa :: envelope_weights p y' z' rw'
  | _, _, _ => []
  end.

(** Lines 134-137: [z_tmp += abs(znew[j] - z[j])] from [0.0]. *)
Definition total_change (znew z : array) : float :=
  fold_left add (map2 (fun a b => abs (a - b)) znew z) 0.
End Expressions.

(** ** The local variables the loops carry, as both functions name them *)

(** The variables the candidate scan updates: [gcv_temp = [score, penalty]]
    and [tempNDVI_arr], which has no value until a candidate wins. *)
Record best : Type := Best {
  gcv_temp : float * float;
  tempNDVI_arr : option array
}.

(** The variables alive across the turns of [for it in range(r_its)];
    [robust_weights] has no value before the first turn ends. *)
Record loop_state : Type := LoopState {
  robust_gcv : list (float * float);
  record : best;
  r_weights : array;
  robust_weights : option array
}.

(** The variables of the envelope loop, and the number of passes made. *)
Record envelope_state : Type := EnvelopeState {
  z : array;
  ww : array;
  passes : nat
}.

(** Lines 46-61 and 171-186: the state before the first turn. *)
Definition loop_init (m : nat) : loop_state :=
  LoopState [] (Best (1e15, 0) None) (np_ones m) None.

(** ** The vectorized entry point [ws2dwcvp] (lines 18-149) *)

Module Vectorized.
Section Body.
Context {R : Runtime}.
Variables (y : array) (nodata p : float) (llas : array) (robust : bool).

(** Lines 30-38: the validity weights [w] and the count [n] of valid samples. *)
Fixpoint init_weights (y : array) : array * Z :=
  match y with
  | [] => ([], 0%Z)
  | x :: y' =>
      let (w, n) := init_weights y' in
      if invalid nodata x then (0 :: w, n) else (1 :: w, (n + 1)%Z)
  end.

(** Lines 76-88: one turn of [for lmda in smoothing]. *)
Definition gcv_candidate (w_temp d_eigs : array) (b : best) (lmda : float) : Smooth best :=
  NDVI_smoothed <- call_ws2d y lmda w_temp ;;
  let gcv_score := gcv_score_of y w_temp d_eigs lmda NDVI_smoothed in
  let gcv := (gcv_score, lmda) in
  let NDVIhat := NDVI_smoothed in
  if fst gcv <? fst (gcv_temp b)
  then ret (Best gcv (Some NDVIhat))
  else ret b.

(** Lines 63-71: the grid the iteration scans. *)
Definition smoothing_of (it : nat) (robust_gcv : list (float * float)) : result array :=
  match (if (1 <? it)%nat
         then match nth_error robust_gcv 1 with
              | Some g => Ok (snd g)
              | None => Raise IndexError
              end
         else Ok 0) with
  | Ok Sopt_Rog_val =>
      Ok (if Sopt_Rog_val =? 0
          then map (fun l => np_power 10 l) llas
          else [Sopt_Rog_val])
  | Raise e => Raise e
  end.

(** Lines 63-111: one turn of the robust loop.  When no candidate has won
    yet, [tempNDVI_arr] is the empty array of a variable never assigned, and
    [y - tempNDVI_arr] does not broadcast: the kernel is here with more than
    five samples, shapes [(m,)] and [(0,)]. *)
Definition robust_iteration (w d_eigs : array) (n : Z) (st : loop_state) (it : nat)
  : Smooth loop_state :=
  match smoothing_of it (robust_gcv st) with
  | Raise e => raise e
  | Ok smoothing =>
      let w_temp := map2 mul w (r_weights st) in
      b <- foldM (gcv_candidate w_temp d_eigs) smoothing (record st) ;;
      let best_gcv := gcv_temp b in
      let s := snd best_gcv in
      r_weights' <- (if robust
                     then match tempNDVI_arr b with
                          | Some fitted =>
                              ret (tukey_update y w_temp d_eigs s fitted (r_weights st) (Z2f n))
                          | None => raise ValueError
                          end
                     else ret (r_weights st)) ;;
      ret (LoopState (robust_gcv st ++ [best_gcv]) b r_weights'
                     (Some (map2 mul w r_weights')))
  end.

Definition r_its : nat := if negb robust then 1 else 4.

(** The first [its] turns of the loop. *)
Definition robust_loop (w d_eigs : array) (n : Z) (its : nat) : Smooth loop_state :=
  foldM (robust_iteration w d_eigs n) (seq 0 its) (loop_init (length y)).

(** Lines 113-118. *)
Definition select_lopt (robust_gcv : list (float * float)) : result float :=
  match nth_error robust_gcv (if robust then 1 else 0) with
  | Some g => Ok (snd g)
  | None => Raise IndexError
  end.

(** Lines 122-142: at most [k] more passes. *)
Fixpoint envelope_loop (k : nat) (robust_weights : array) (lopt : float)
         (st : envelope_state) : Smooth envelope_state :=
  match k with
  | O => ret st
  | S k' =>
      let ww := envelope_weights p y (z st) robust_weights in
      znew <- call_ws2d y lopt ww ;;
      let z_tmp := total_change znew (z st) in
      if z_tmp =? 0
      then ret (EnvelopeState (z st) ww (S (passes st)))
      else envelope_loop k' robust_weights lopt (EnvelopeState znew ww (S (passes st)))
  end.

(** Lines 46-145: the branch [n > 5]. *)
Definition optimize (w d_eigs : array) (n : Z) : Smooth (list Z * float) :=
  st <- robust_loop w d_eigs n r_its ;;
  match select_lopt (robust_gcv st) with
  | Raise e => raise e
  | Ok lopt =>
      let rw := array_of (robust_weights st) in
      let m := length y in
      e <- envelope_loop 10 rw lopt (EnvelopeState (np_zeros m) (np_zeros m) 0) ;;
      z <- call_ws2d y lopt (ww e) ;;
      ret (map (fun v => f64_to_i16 (np_round v)) z, lopt)
  end.

Definition ws2dwcvp_logged : Smooth (list Z * float) :=
  let m := length y in
  let (w, n) := init_weights y in
  match eigenvalues m with
  | Raise e => raise e
  | Ok d_eigs =>
      if (5 <? n)%Z
      then optimize w d_eigs n
      else ret (map f64_to_i16 y, 0)
  end.

(** What the caller receives: [out] and [lopt[0]], or the exception. *)
Definition ws2dwcvp : result (list Z * float) := fst (ws2dwcvp_logged []).

(** The penalty and the weights of every call of the smoother, in order. *)
Definition ws2dwcvp_calls : list call := snd (ws2dwcvp_logged []).
End Body.
End Vectorized.

(** ** The scalar variant [_ws2dwcvp] (lines 152-270)

    The caller passes the weights [w]; [n] is their sum, a float; there is no
    test on [n]; the rounded curve is returned as floats.

    [@jit] compiles with Python's error model, the kernel [ws2dwcvp] with
    NumPy's: here the three divisions of a float by a float (lines 206, 207
    and 225) raise [ZeroDivisionError] on a zero divisor; the divisions of
    arrays follow NumPy in both functions and raise nothing. *)

(** [a / b] on two floats under Python's error model. *)
Definition py_div (a b : float) : result float :=
  if b =? 0 then Raise ZeroDivisionError else Ok (a / b).

Definition lift {A} (r : result A) : Smooth A := fun tr => (r, tr).

Module Scalar.
Section Body.
Context {R : Runtime}.
Variables (y w : array) (p : float) (llas : array) (robust : bool).

(** Lines 201-213: one turn of [for lmda in smoothing]. *)
Definition gcv_candidate (w_temp d_eigs : array) (b : best) (lmda : float) : Smooth best :=
  NDVI_smoothed <- call_ws2d y lmda w_temp ;;
  let gamma := gamma_of w_temp d_eigs lmda in
  let tr_H := np_sum gamma in
  let wsse := wsse_of y w_temp NDVI_smoothed in
  q <- lift (py_div tr_H (np_sum w_temp)) ;;
  let denominator := np_sum w_temp * np_power (1 - q) 2 in
  gcv_score <- lift (py_div wsse denominator) ;;
  if gcv_score <? fst (gcv_temp b)
  then ret (Best (gcv_score, lmda) (Some NDVI_smoothed))
  else ret b.

(** Lines 199-213: the scan of the grid. *)
Fixpoint scan (w_temp d_eigs smoothing : array) (b : best) : Smooth best :=
  match smoothing with
  | [] => ret b
  | lmda :: rest => b' <- gcv_candidate w_temp d_eigs b lmda ;; scan w_temp d_eigs rest b'
  end.

(** Lines 188-234: one turn of the robust loop.  An unassigned
    [tempNDVI_arr] is the empty array, and [y - tempNDVI_arr] does not
    broadcast for a series of two samples or more. *)
Definition robust_iteration (d_eigs : array) (n : float) (it : nat) (st : loop_state)
  : Smooth loop_state :=
  Sopt_Rog_val <- (if (1 <? it)%nat
                   then match robust_gcv st with
                        | _ :: g :: _ => ret (snd g)
                        | _ => raise IndexError
                        end
                   else ret 0) ;;
  let smoothing := if Sopt_Rog_val =? 0
                   then map (np_power 10) llas
                   else [Sopt_Rog_val] in
  let w_temp := map2 mul w (r_weights st) in
  b <- scan w_temp d_eigs smoothing (record st) ;;
  let s := snd (gcv_temp b) in
  if robust
  then match tempNDVI_arr b with
       | Some fitted =>
           _ <- lift (py_div (np_sum (gamma_of w_temp d_eigs s)) n) ;;
           let r_weights' := tukey_update y w_temp d_eigs s fitted (r_weights st) n in
           ret (LoopState (robust_gcv st ++ [gcv_temp b]) b r_weights'
                          (Some (map2 mul w r_weights')))
       | None => raise ValueError
       end
  else ret (LoopState (robust_gcv st ++ [gcv_temp b]) b (r_weights st)
                      (Some (map2 mul w (r_weights st)))).

(** Lines 187-234: the turns [it], [it + 1], ... of which [k] remain. *)
Fixpoint robust_loop (d_eigs : array) (n : float) (k it : nat) (st : loop_state)
  : Smooth loop_state :=
  match k with
  | O => ret st
  | S k' => st' <- robust_iteration d_eigs n it st ;; robust_loop d_eigs n k' (S it) st'
  end.

(** Lines 245-265: at most [k] more passes. *)
Fixpoint envelope_loop (k : nat) (robust_weights : array) (lopt : float)
         (st : envelope_state) : Smooth envelope_state :=
  match k with
  | O => ret st
  | S k' =>
      let ww := envelope_weights p y (z st) robust_weights in
      znew <- call_ws2d y lopt ww ;;
      if total_change znew (z st) =? 0
      then ret (EnvelopeState (z st) ww (S (passes st)))
      else envelope_loop k' robust_weights lopt (EnvelopeState znew ww (S (passes st)))
  end.

Definition _ws2dwcvp_logged : Smooth (array * float) :=
  let m := length y in
  let n := np_sum w in
  match eigenvalues m with
  | Raise e => raise e
  | Ok d_eigs =>
      st <- robust_loop d_eigs n (if negb robust then 1 else 4)%nat 0 (loop_init m) ;;
      lopt <- (match nth_error (robust_gcv st) (if robust then 1 else 0) with
               | Some g => ret (snd g)
               | None => raise IndexError
               end) ;;
      let rw := array_of (robust_weights st) in
      e <- envelope_loop 10 rw lopt (EnvelopeState (np_zeros m) (np_zeros m) 0) ;;
      z <- call_ws2d y lopt (ww e) ;;
      ret (map np_round z, lopt)
  end.

(** What the caller receives: [(z, lopt)], or the exception. *)
Definition _ws2dwcvp : result (array * float) := fst (_ws2dwcvp_logged []).
End Body.
End Scalar.

(** ** An instance of [Runtime] to run the code on concrete series

  Stand-ins that compute: a Whittaker smoother with second-order differences,
  the curve [z] that solves [(W + lmda D'D) z = W y] ([W] the diagonal of the
  weights, [D] the second-difference matrix), by elimination without
  pivoting; the cosine by its series; [**] for the exponents the module
  uses; the median by sorting; and, for the stores that are not defined, the
  conversion of x86-64. *)

Module Stand_in.

(** Entry [(k, i)] of [D]: row [k] is [1, -2, 1] from column [k]. *)
Definition diff2 (k i : nat) : float :=
  if (i =? k)%nat then 1
  else if (i =? k + 1)%nat then -2
  else if (i =? k + 2)%nat then 1
  else 0.

Definition DtD (m i j : nat) : float :=
  fold_left (fun acc k => acc + diff2 k i * diff2 k j) (seq 0 (m - 2)) 0.

(** Row [i] of [W + lmda D'D] with its right-hand side [w_i y_i]. *)
Definition equations (y : array) (lmda : float) (w : array) : list (array * float) :=
  let m := length y in
  map (fun i =>
         let wi := nth i w 0 in
         (map (fun j => (if (i =? j)%nat then wi else 0) + lmda * DtD m i j) (seq 0 m),
          wi * nth i y 0))
      (seq 0 m).

Definition dot (a b : array) : float := np_sum (map2 mul a b).

Definition eliminate (a11 : float) (r1 : array) (b1 : float) (eq : array * float)
  : array * float :=
  match fst eq with
  | ai1 :: ri => let c := ai1 / a11 in
                 (map2 sub ri (map (mul c) r1), snd eq - c * b1)
  | [] => eq
  end.

Fixpoint solve (fuel : nat) (sys : list (array * float)) : array :=
  match fuel, sys with
  | S fuel', (r, b1) :: rest =>
      match r with
      | a11 :: r1 =>
          let z' := solve fuel' (map (eliminate a11 r1 b1) rest) in
          (b1 - dot r1 z') / a11 :: z'
      | [] => nan :: solve fuel' rest
      end
  | _, _ => []
  end.

Definition whittaker (y : array) (lmda : float) (w : array) : array :=
  solve (length y) (equations y lmda w).

(** [1 - x^2/(1*2) (1 - x^2/(3*4) (1 - ...))], twenty factors. *)
Definition cos_series (x : float) : float :=
  fold_left (fun acc k => 1 - x * x / (Z2f (2 * k - 1) * Z2f (2 * k)) * acc)
            (map Z.of_nat (rev (seq 1 20))) 1.

Fixpoint pow_nat (x : float) (k : nat) : float :=
  match k with
  | O => 1
  | S k' => x * pow_nat x k'
  end.

(** [x ** e] for [e = 2], [e = 0.5] and the integers; NaN for another
    exponent. *)
Definition power (x e : float) : float :=
  if e =? 2 then x * x
  else if e =? 0.5 then sqrt x
  else if negb (np_round e =? e) then nan
  else match f64_trunc e with
       | Some k => if (0 <=? k)%Z then pow_nat x (Z.to_nat k)
                   else 1 / pow_nat x (Z.to_nat (- k))
       | None => nan
       end.

Fixpoint insert_sorted (x : float) (l : array) : array :=
  match l with
  | [] => [x]
  | h :: t => if x <=? h then x :: l else h :: insert_sorted x t
  end.

Definition sort (l : array) : array := fold_right insert_sorted [] l.

Definition median (a : array) : float :=
  let s := sort a in
  let k := length s in
  if Nat.even k
  then (nth (k / 2 - 1) s nan + nth (k / 2) s nan) / 2
  else nth (k / 2) s nan.

(** The low sixteen bits, in two's complement, of the 32-bit conversion. *)
Definition x86_store (x : float) : Z :=
  match f64_trunc x with
  | Some z => if ((-2147483648 <=? z) && (z <=? 2147483647))%Z
              then ((z + 32768) mod 65536 - 32768)%Z
              else 0%Z
  | None => 0%Z
  end.

#[export] Instance runtime : Runtime.
Proof.
  refine {| ws2d := whittaker;
            np_cos := cos_series;
            np_power := power;
            np_median := median;
            cast_undef := x86_store |}.
  assert (solve_length : forall fuel sys,
             (length sys <= fuel)%nat -> length (solve fuel sys) = length sys).
  { induction fuel as [|fuel IH]; intros [|[r b1] rest]; simpl; intros H;
      try reflexivity; try lia.
    destruct r as [|a11 r1]; simpl; rewrite IH; rewrite ?length_map; auto; lia. }
  intros y lmda w. unfold whittaker, equations.
  rewrite solve_length; rewrite length_map, length_seq; lia.
Defined.

End Stand_in.

(** ** Observing a run of [ws2dwcvp] *)

Section Observations.
Context {R : Runtime}.
Variables (y : array) (nodata p : float) (llas : array) (robust : bool).

(** The validity weights and the number of valid samples of the series. *)
Definition validity : array := fst (Vectorized.init_weights nodata y).
Definition n_valid : Z := snd (Vectorized.init_weights nodata y).

(** The robust loop of [ws2dwcvp] on the series, stopped after [its] turns:
    its variables and the calls of the smoother so far. *)
Definition after_turns (its : nat) : result loop_state * list call :=
  match eigenvalues (length y) with
  | Ok d_eigs => Vectorized.robust_loop y llas robust validity d_eigs n_valid its []
  | Raise e => (Raise e, [])
  end.

(** The weights of the scan that follows state [st], and the score this scan
    gives the candidate [lmda]. *)
Definition w_temp_of (st : loop_state) : array := map2 mul validity (r_weights st).

Definition score_in (d_eigs : array) (st : loop_state) (lmda : float) : float :=
  gcv_score_of y (w_temp_of st) d_eigs lmda (ws2d y lmda (w_temp_of st)).

(** The full grid, [10**llas]. *)
Definition full_grid : array := map (np_power 10) llas.

(** What the candidate [lmda] leaves of the record [b] in a scan with the
    weights [w_temp]. *)
Definition challenge (w_temp d_eigs : array) (b : best) (lmda : float) : best :=
  let fitted := ws2d y lmda w_temp in
  let score := gcv_score_of y w_temp d_eigs lmda fitted in
  if score <? fst (gcv_temp b) then Best (score, lmda) (Some fitted) else b.
End Observations.

(** The float an [int16] of the output stands for. *)
Definition i16_to_f64 (v : Z) : float := if (v <? 0)%Z then - Z2f (- v) else Z2f v.

(** A weight that compares equal to zero, or is NaN. *)
Definition zero_or_nan (v : float) : Prop := (v =? 0) = true \/ is_nan v = true.

(** [a] is as long as the series and [P] holds of its entry at every invalid
    sample. *)
Definition at_invalid (P : float -> Prop) (nodata : float) (y a : array) : Prop :=
  length a = length y /\
  forall j x v, nth_error y j = Some x -> invalid nodata x = true ->
                nth_error a j = Some v -> P v.

(** The result of the scalar variant as [ws2dwcvp] stores it: the curve in the
    [int16] output. *)
Definition stored {R : Runtime} (r : result (array * float)) : result (list Z * float) :=
  match r with
  | Ok (z, lopt) => Ok (map f64_to_i16 z, lopt)
  | Raise e => Raise e
  end.

(** ** The properties the specification states and the code does not have,
       as it states them *)

Section As_stated.
Context {R : Runtime}.
Variables (y : array) (nodata p : float) (llas : array) (robust : bool).

(** With five valid samples or fewer, the output is the input and the penalty
    is 0. *)
Definition fallback_returns_input : Prop :=
  (n_valid y nodata <= 5)%Z ->
  exists out, Vectorized.ws2dwcvp y nodata p llas robust = Ok (out, 0) /\
              map i16_to_f64 out = y.

(** Every scan of the grid starts from a fresh record [[1e15, 0]]. *)
Definition record_reset_each_turn : Prop :=
  forall it st st' d_eigs,
    eigenvalues (length y) = Ok d_eigs ->
    fst (after_turns y nodata llas robust it) = Ok st ->
    fst (after_turns y nodata llas robust (S it)) = Ok st' ->
    exists grid,
      Vectorized.smoothing_of llas it (robust_gcv st) = Ok grid /\
      forall tr,
        fst (foldM (Vectorized.gcv_candidate y (w_temp_of y nodata st) d_eigs) grid
                   (Best (1e15, 0) None) tr)
        = Ok (record st').

(** The reported penalty is not the penalty of an entry of the history whose
    score is the smallest of all recorded scores. *)
Definition lopt_not_of_min_score : Prop :=
  forall out lopt st g,
    Vectorized.ws2dwcvp y nodata p llas robust = Ok (out, lopt) ->
    fst (after_turns y nodata llas robust (if robust then 4 else 1)) = Ok st ->
    In g (robust_gcv st) ->
    (forall g', In g' (robust_gcv st) -> (fst g <=? fst g') = true) ->
    snd g <> lopt.

(** The penalty selected by a scan, the one of the record at its end, scores
    in that scan at most what every candidate of the scan scores. *)
Definition selected_below_every_candidate : Prop :=
  forall it st st' d_eigs grid,
    eigenvalues (length y) = Ok d_eigs ->
    fst (after_turns y nodata llas robust it) = Ok st ->
    fst (after_turns y nodata llas robust (S it)) = Ok st' ->
    Vectorized.smoothing_of llas it (robust_gcv st) = Ok grid ->
    forall c, In c grid ->
      (score_in y nodata d_eigs st (snd (gcv_temp (record st')))
       <=? score_in y nodata d_eigs st c) = true.

(** From the third turn on the grid is the single penalty recorded by the
    second turn; the first two turns scan the full grid. *)
Definition later_turns_scan_one_penalty : Prop :=
  forall it st,
    fst (after_turns y nodata llas robust it) = Ok st ->
    ((1 < it)%nat ->
     exists g, nth_error (robust_gcv st) 1 = Some g /\
               Vectorized.smoothing_of llas it (robust_gcv st) = Ok [snd g]) /\
    ((it <= 1)%nat ->
     Vectorized.smoothing_of llas it (robust_gcv st) = Ok (full_grid llas)).

(** Every weight array passed to the smoother is 0 at every invalid sample. *)
Definition weights_zero_at_invalid : Prop :=
  Forall (fun c : call => at_invalid (fun v => (v =? 0) = true) nodata y (snd c))
         (Vectorized.ws2dwcvp_calls y nodata p llas robust).

(** After every update the robustness weight of an invalid sample is 0. *)
Definition r_weights_zero_at_invalid : Prop :=
  robust = true ->
  forall it st,
    fst (after_turns y nodata llas robust (S it)) = Ok st ->
    at_invalid (fun v => (v =? 0) = true) nodata y (r_weights st).

(** With more than five valid samples the scalar variant, given the validity
    weights, returns what [ws2dwcvp] returns, but for the store. *)
Definition scalar_agrees_above_five : Prop :=
  (5 < n_valid y nodata)%Z ->
  Vectorized.ws2dwcvp y nodata p llas robust
  = stored (Scalar._ws2dwcvp y (validity y nodata) p llas robust).
End As_stated.

(** * Notions the proofs use *)

(** The order of [SFcompare] is the lexicographic order of a key. *)
Definition key (f : spec_float) : Z * Z * Z :=
  match f with
  | S754_nan => (0, 0, 0)
  | S754_zero _ => (0, 0, 0)
  | S754_infinity s => (if s then -2 else 2, 0, 0)
  | S754_finite s m e => if s then (-1, - e, - Zpos m) else (1, e, Zpos m)
  end%Z.

Definition key_lt (a b : Z * Z * Z) : Prop :=
  let '(a1, a2, a3) := a in
  let '(b1, b2, b3) := b in
  (a1 < b1 \/ (a1 = b1 /\ (a2 < b2 \/ (a2 = b2 /\ a3 < b3))))%Z.

Definition is_nanS (f : spec_float) : bool :=
  match f with S754_nan => true | _ => false end.

(** The float of a positive integer below [2^53]: its bits, moved up to fill
    the 53 digits of the mantissa. *)
Definition pad (p : positive) : nat := Z.to_nat (53 - Zpos (digits2_pos p))%Z.

(** What holds of every record the loop can hold: its score is a number and
    its curve, if any, is as long as the series. *)
Definition sound_record (y : array) (b : best) : Prop :=
  is_nan (fst (gcv_temp b)) = false /\
  forall fitted, tempNDVI_arr b = Some fitted -> length fitted = length y.

(** What holds of the variables of the loop after any number of turns. *)
Definition sound_state (y : array) (st : loop_state) : Prop :=
  sound_record y (record st) /\ length (r_weights st) = length y.

(** [logs m P Q]: whatever the log so far, every call [m] adds satisfies [P],
    also when [m] raises, and a value [m] returns satisfies [Q]. *)
Definition logs {A} (m : Smooth A) (P : call -> Prop) (Q : A -> Prop) : Prop :=
  forall tr, exists new,
    snd (m tr) = tr ++ new /\ Forall P new /\ forall a, fst (m tr) = Ok a -> Q a.

(** ** Further observations of a run *)

(** The penalty a call reports, or the exception it raises. *)
Definition penalty_of {A} (r : result (A * float)) : result float :=
  match r with
  | Ok (_, lopt) => Ok lopt
  | Raise e => Raise e
  end.

Section More_observations.
Context {R : Runtime}.
Variables (y : array) (nodata : float) (llas : array).

(** Whether some candidate of the first scan scores below the initial record
    [1e15]. *)
Definition first_scan_selects : bool :=
  match eigenvalues (length y) with
  | Ok d_eigs =>
      existsb (fun lmda => score_in y nodata d_eigs (loop_init (length y)) lmda <? 1e15)
              (full_grid llas)
  | Raise _ => false
  end.

(** A record is the initial one, or it holds a candidate of the full grid and
    its curve. *)
Definition from_grid (b : best) : Prop :=
  match tempNDVI_arr b with
  | None => gcv_temp b = (1e15, 0)
  | Some _ => In (snd (gcv_temp b)) (full_grid llas)
  end.

(** An entry of the history holds the initial penalty or a candidate of the
    full grid. *)
Definition entry_from_grid (g : float * float) : Prop :=
  snd g = 0 \/ In (snd g) (full_grid llas).
End More_observations.

(** Whether one of the two divisions in the score of [lmda] has the divisor
    zero: the sum of the weights at line 206, the denominator at line 207. *)
Definition zero_divisor {R : Runtime} (w_temp d_eigs : array) (lmda : float) : bool :=
  (np_sum w_temp =? 0)
  || (np_sum w_temp
      * np_power (1 - np_sum (gamma_of w_temp d_eigs lmda) / np_sum w_temp) 2 =? 0).

(** Whether a candidate of the first scan of [_ws2dwcvp] has such a divisor. *)
Definition scalar_divides_by_zero {R : Runtime} (y w llas : array) : bool :=
  match eigenvalues (length y) with
  | Ok d_eigs =>
      existsb (zero_divisor (map2 mul w (np_ones (length y))) d_eigs) (full_grid llas)
  | Raise _ => false
  end.

(** Lines 94-102: the standardized residuals [u_arr] of an update. *)
Definition standardized {R : Runtime} (y w_temp d_eigs : array) (s : float)
           (tempNDVI_arr r_weights : array) (n : float) : array :=
  let gamma := gamma_of w_temp d_eigs s in
  let r_arr := map2 sub y tempNDVI_arr in
  let kept := select (map (fun v => negb (v =? 0)) r_weights) r_arr in
  let MAD := np_median (map abs (map (fun v => v - np_median kept) kept)) in
  map (fun v => v / (1.4826 * MAD * sqrt (1 - np_sum gamma / n))) r_arr.

(** Lines 97-101: the median absolute deviation of the residuals [r]. *)
Definition mad {R : Runtime} (r : array) : float :=
  np_median (map abs (map (fun v => v - np_median r) r)).

(** * Facts about binary64 arithmetic

    From the specification of the primitive floats: the order, products with
    zero, and counting in floats. *)

Module Float_facts.

Lemma SFcompare_key (f g : spec_float) :
  is_nanS f = false -> is_nanS g = false ->
  match SFcompare f g with
  | Some Lt => key_lt (key f) (key g)
  | Some Eq => key f = key g
  | Some Gt => key_lt (key g) (key f)
  | None => False
  end.
Proof.
  destruct f as [s1|s1| |s1 m1 e1], g as [s2|s2| |s2 m2 e2]; simpl; try discriminate;
    intros _ _; try destruct s1; try destruct s2; simpl; try lia; try reflexivity.
  - destruct (Z.compare_spec e1 e2); try lia.
    subst. rewrite Pos.compare_cont_spec. simpl.
    destruct (Pos.compare_spec m1 m2); simpl; try lia. subst; reflexivity.
  - destruct (Z.compare_spec e1 e2); try lia.
    subst. rewrite Pos.compare_cont_spec. simpl.
    destruct (Pos.compare_spec m1 m2); simpl; try lia. subst; reflexivity.
Qed.

Lemma SFcompare_nan (f g : spec_float) :
  is_nanS f = true \/ is_nanS g = true -> SFcompare f g = None.
Proof. destruct f, g; simpl; intros [H|H]; try discriminate; reflexivity. Qed.

Lemma is_nan_spec (x : float) : is_nan x = is_nanS (Prim2SF x).
Proof.
  unfold is_nan. rewrite eqb_spec. unfold SFeqb.
  destruct (is_nanS (Prim2SF x)) eqn:E.
  - rewrite SFcompare_nan; auto.
  - pose proof (SFcompare_key (Prim2SF x) (Prim2SF x) E E) as H.
    destruct (SFcompare (Prim2SF x) (Prim2SF x)) as [[ | | ]|]; try reflexivity; try contradiction;
    exfalso; destruct (key (Prim2SF x)) as [[a b] c]; simpl in H; lia.
Qed.

(** How [<?] and [<=?] read on the keys. *)
Lemma ltb_true (x y : float) :
  (x <? y) = true <->
  is_nan x = false /\ is_nan y = false /\ key_lt (key (Prim2SF x)) (key (Prim2SF y)).
Proof.
  rewrite ltb_spec, !is_nan_spec. unfold SFltb.
  destruct (is_nanS (Prim2SF x)) eqn:Ex.
  { rewrite SFcompare_nan by auto. split; [discriminate | intros (H & _); discriminate]. }
  destruct (is_nanS (Prim2SF y)) eqn:Ey.
  { rewrite SFcompare_nan by auto. split; [discriminate | intros (_ & H & _); discriminate]. }
  pose proof (SFcompare_key _ _ Ex Ey) as H.
  destruct (SFcompare (Prim2SF x) (Prim2SF y)) as [[ | | ]|]; try contradiction;
    destruct (key (Prim2SF x)) as [[a b] c], (key (Prim2SF y)) as [[a' b'] c']; simpl in *;
    split; try discriminate; try tauto; intros (_ & _ & H'); try (inversion H; lia); lia.
Qed.

Lemma leb_true (x y : float) :
  (x <=? y) = true <->
  is_nan x = false /\ is_nan y = false /\ ~ key_lt (key (Prim2SF y)) (key (Prim2SF x)).
Proof.
  rewrite leb_spec, !is_nan_spec. unfold SFleb.
  destruct (is_nanS (Prim2SF x)) eqn:Ex.
  { rewrite SFcompare_nan by auto. split; [discriminate | intros (H & _); discriminate]. }
  destruct (is_nanS (Prim2SF y)) eqn:Ey.
  { rewrite SFcompare_nan by auto. split; [discriminate | intros (_ & H & _); discriminate]. }
  pose proof (SFcompare_key _ _ Ex Ey) as H.
  destruct (SFcompare (Prim2SF x) (Prim2SF y)) as [[ | | ]|]; try contradiction;
    destruct (key (Prim2SF x)) as [[a b] c], (key (Prim2SF y)) as [[a' b'] c']; simpl in *;
    split; try discriminate; try tauto; try (intros _; repeat split; auto; try (inversion H; lia); lia);
    intros (_ & _ & H'); try (exfalso; apply H'; lia).
Qed.

Lemma eqb_true (x y : float) :
  (x =? y) = true <->
  is_nan x = false /\ is_nan y = false /\ key (Prim2SF x) = key (Prim2SF y).
Proof.
  rewrite eqb_spec, !is_nan_spec. unfold SFeqb.
  destruct (is_nanS (Prim2SF x)) eqn:Ex.
  { rewrite SFcompare_nan by auto. split; [discriminate | intros (H & _); discriminate]. }
  destruct (is_nanS (Prim2SF y)) eqn:Ey.
  { rewrite SFcompare_nan by auto. split; [discriminate | intros (_ & H & _); discriminate]. }
  pose proof (SFcompare_key _ _ Ex Ey) as H.
  destruct (SFcompare (Prim2SF x) (Prim2SF y)) as [[ | | ]|]; try contradiction;
    destruct (key (Prim2SF x)) as [[a b] c], (key (Prim2SF y)) as [[a' b'] c']; simpl in *;
    split; try discriminate; try tauto; intros (_ & _ & H'); inversion H'; lia.
Qed.

Lemma ltb_not_nan (x y : float) : (x <? y) = true -> is_nan x = false /\ is_nan y = false.
Proof. rewrite ltb_true. tauto. Qed.

Lemma ltb_leb (x y : float) : (x <? y) = true -> (x <=? y) = true.
Proof.
  rewrite ltb_true, leb_true. intros (Hx & Hy & H). repeat split; auto.
  destruct (key (Prim2SF x)) as [[a b] c], (key (Prim2SF y)) as [[a' b'] c']; simpl in *; lia.
Qed.

Lemma leb_refl (x : float) : is_nan x = false -> (x <=? x) = true.
Proof.
  rewrite leb_true. intros Hx. repeat split; auto.
  destruct (key (Prim2SF x)) as [[a b] c]; simpl; lia.
Qed.

Lemma leb_trans (x y z : float) : (x <=? y) = true -> (y <=? z) = true -> (x <=? z) = true.
Proof.
  rewrite !leb_true. intros (Hx & Hy & H) (_ & Hz & H'). repeat split; auto.
  destruct (key (Prim2SF x)) as [[a b] c], (key (Prim2SF y)) as [[a' b'] c'],
    (key (Prim2SF z)) as [[a'' b''] c'']; simpl in *; lia.
Qed.

Lemma not_ltb_leb (x y : float) :
  is_nan x = false -> is_nan y = false -> (x <? y) = false -> (y <=? x) = true.
Proof.
  intros Hx Hy H. apply leb_true. repeat split; auto.
  intros K. assert ((x <? y) = true) by (apply ltb_true; auto). congruence.
Qed.

Lemma leb_not_ltb (x y : float) : (x <=? y) = true -> (y <? x) = false.
Proof.
  rewrite leb_true. intros (Hx & Hy & H).
  destruct (y <? x) eqn:E; [|reflexivity]. apply ltb_true in E. tauto.
Qed.

Lemma ltb_trans (x y z : float) : (x <? y) = true -> (y <? z) = true -> (x <? z) = true.
Proof.
  rewrite !ltb_true. intros (Hx & Hy & H) (_ & Hz & H'). repeat split; auto.
  destruct (key (Prim2SF x)) as [[a b] c], (key (Prim2SF y)) as [[a' b'] c'],
    (key (Prim2SF z)) as [[a'' b''] c'']; simpl in *; lia.
Qed.

Lemma leb_ltb_trans (x y z : float) :
  (x <=? y) = true -> (y <? z) = true -> (x <? z) = true.
Proof.
  rewrite leb_true, !ltb_true. intros (Hx & Hy & H) (_ & Hz & H'). repeat split; auto.
  destruct (key (Prim2SF x)) as [[a b] c], (key (Prim2SF y)) as [[a' b'] c'],
    (key (Prim2SF z)) as [[a'' b''] c'']; simpl in *; lia.
Qed.

Lemma ltb_not_leb (x y : float) : (x <? y) = true -> (y <=? x) = false.
Proof.
  intros H. destruct (y <=? x) eqn:E; [|reflexivity].
  apply leb_not_ltb in E. congruence.
Qed.

Lemma eqb_not_ltb (x y : float) : (x =? y) = true -> (x <? y) = false.
Proof.
  rewrite eqb_true. intros (Hx & Hy & H).
  destruct (x <? y) eqn:E; [|reflexivity]. apply ltb_true in E.
  destruct E as (_ & _ & E). rewrite H in E.
  destruct (key (Prim2SF y)) as [[a b] c]; simpl in E; lia.
Qed.


Lemma Prim2SF_zero : Prim2SF 0 = S754_zero false.
Proof. vm_compute. reflexivity. Qed.

Lemma eqb_zero (v : float) : (v =? 0) = true <-> exists s, Prim2SF v = S754_zero s.
Proof.
  rewrite eqb_spec, Prim2SF_zero. unfold SFeqb.
  destruct (Prim2SF v) as [s|s| |s m e]; simpl; split; try discriminate; eauto;
    try (intros [s' H]; discriminate); destruct s; discriminate.
Qed.

Lemma zero_mul (x : float) : zero_or_nan (0 * x).
Proof.
  unfold zero_or_nan. rewrite is_nan_spec, eqb_zero, mul_spec, Prim2SF_zero.
  destruct (Prim2SF x); simpl; eauto.
Qed.

Lemma zero_or_nan_mul (v a : float) : zero_or_nan v -> zero_or_nan (v * a).
Proof.
  unfold zero_or_nan. rewrite !is_nan_spec, !eqb_zero, mul_spec.
  intros [[s H]|H].
  - rewrite H. destruct (Prim2SF a); simpl; eauto.
  - destruct (Prim2SF v); try discriminate. right. reflexivity.
Qed.

Lemma is_infinity_spec (x : float) :
  is_infinity x = match Prim2SF x with S754_infinity _ => true | _ => false end.
Proof.
  unfold is_infinity. rewrite eqb_spec, abs_spec.
  replace (Prim2SF infinity) with (S754_infinity false) by (vm_compute; reflexivity).
  unfold SFeqb. destruct (Prim2SF x) as [s|s| |s m e]; simpl; reflexivity.
Qed.

Lemma zero_mul_finite (x : float) :
  is_nan x = false -> is_infinity x = false -> (0 * x =? 0) = true.
Proof.
  rewrite is_nan_spec, is_infinity_spec, eqb_zero, mul_spec, Prim2SF_zero.
  destruct (Prim2SF x); simpl; try discriminate; eauto.
Qed.

Lemma eqb_zero_mul_finite (v a : float) :
  (v =? 0) = true -> is_nan a = false -> is_infinity a = false -> (v * a =? 0) = true.
Proof.
  rewrite is_nan_spec, is_infinity_spec, !eqb_zero, mul_spec. intros [s H]. rewrite H.
  destruct (Prim2SF a); simpl; try discriminate; eauto.
Qed.

(** ** Integers below [2^53] are added exactly *)

Section Integers.
Local Open Scope Z_scope.

Lemma iter_pos_nat {A} (f : A -> A) (n : positive) (x : A) :
  iter_pos f n x = Nat.iter (Pos.to_nat n) f x.
Proof.
  revert x; induction n as [n IH|n IH|]; intros x; cbn [iter_pos].
  - rewrite !IH, Pos2Nat.inj_xI, <- Nat.iter_succ_r, <- Nat.iter_add.
    replace (S (2 * Pos.to_nat n))%nat with (Pos.to_nat n + S (Pos.to_nat n))%nat by lia.
    reflexivity.
  - rewrite !IH, Pos2Nat.inj_xO, <- Nat.iter_add.
    replace (2 * Pos.to_nat n)%nat with (Pos.to_nat n + Pos.to_nat n)%nat by lia.
    reflexivity.
  - reflexivity.
Qed.

Lemma pos_iter_nat {A} (f : A -> A) (x : A) (n : positive) :
  Pos.iter f x n = Nat.iter (Pos.to_nat n) f x.
Proof. apply Pos2Nat.inj_iter. Qed.

Lemma shr_even (n : nat) (m : positive) :
  Nat.iter n shr_1 (Build_shr_record (Zpos (Nat.iter n xO m)) false false)
  = Build_shr_record (Zpos m) false false.
Proof.
  induction n as [|n IH]; [reflexivity|].
  rewrite Nat.iter_succ_r.
  change (Nat.iter (S n) xO m) with (xO (Nat.iter n xO m)).
  cbn [shr_1 orb]. exact IH.
Qed.

Lemma digits_shift (n : nat) (m : positive) :
  Zpos (digits2_pos (Nat.iter n xO m)) = Zpos (digits2_pos m) + Z.of_nat n.
Proof.
  induction n as [|n IH]; [simpl; lia|].
  change (Nat.iter (S n) xO m) with (xO (Nat.iter n xO m)).
  simpl digits2_pos. lia.
Qed.

Lemma value_shift (n : nat) (m : positive) :
  Zpos (Nat.iter n xO m) = Zpos m * 2 ^ Z.of_nat n.
Proof.
  induction n as [|n IH]; [simpl; lia|].
  change (Nat.iter (S n) xO m) with (xO (Nat.iter n xO m)).
  rewrite Pos2Z.inj_xO, IH, Nat2Z.inj_succ, Z.pow_succ_r by lia. ring.
Qed.

Lemma digits_bounds (p : positive) :
  2 ^ (Zpos (digits2_pos p) - 1) <= Zpos p < 2 ^ Zpos (digits2_pos p).
Proof.
  assert (step : forall d, 0 < d -> 2 ^ d = 2 * 2 ^ (d - 1)).
  { intros d Hd. replace d with (Z.succ (d - 1)) at 1 by lia. apply Z.pow_succ_r. lia. }
  induction p as [p IH|p IH|]; cbn [digits2_pos].
  - rewrite Pos2Z.inj_succ, (Pos2Z.inj_xI p).
    replace (Z.succ (Zpos (digits2_pos p)) - 1) with (Zpos (digits2_pos p)) by lia.
    rewrite (step (Z.succ _)) by lia.
    replace (Z.succ (Zpos (digits2_pos p)) - 1) with (Zpos (digits2_pos p)) by lia.
    rewrite (step (Zpos (digits2_pos p))) in * by lia.
    set (X := 2 ^ (Zpos (digits2_pos p) - 1)) in *. clearbody X. lia.
  - rewrite Pos2Z.inj_succ, (Pos2Z.inj_xO p).
    replace (Z.succ (Zpos (digits2_pos p)) - 1) with (Zpos (digits2_pos p)) by lia.
    rewrite (step (Z.succ _)) by lia.
    replace (Z.succ (Zpos (digits2_pos p)) - 1) with (Zpos (digits2_pos p)) by lia.
    rewrite (step (Zpos (digits2_pos p))) in * by lia.
    set (X := 2 ^ (Zpos (digits2_pos p) - 1)) in *. clearbody X. lia.
  - simpl. lia.
Qed.

(** A mantissa of 53 digits with an exponent in range is what rounding gives
    back, from any exact way of writing the same number. *)
Lemma binary_round_aux_canonical (s : bool) (m : positive) (e : Z) :
  Zpos (digits2_pos m) = 53 -> -1074 <= e <= 971 ->
  binary_round_aux prec emax s (Zpos m) e loc_Exact = S754_finite s m e.
Proof.
  intros Hd He. unfold binary_round_aux, shr_fexp, fexp, Zdigits2, SpecFloat.emin, prec, emax.
  rewrite Hd.
  replace (Z.max (53 + e - 53) (3 - 1024 - 53) - e) with 0 by lia.
  cbn [shr shr_record_of_loc shr_m loc_of_shr_record round_nearest_even].
  rewrite Hd.
  replace (Z.max (53 + e - 53) (3 - 1024 - 53) - e) with 0 by lia.
  cbn [shr shr_m].
  replace (e <=? 1024 - 53) with true by (symmetry; apply Z.leb_le; lia). reflexivity.
Qed.

Lemma binary_round_shl (s : bool) (mx : positive) (ex : Z) (n : nat) :
  Zpos (digits2_pos mx) + Z.of_nat n = 53 -> -1074 <= ex - Z.of_nat n -> ex <= 971 ->
  binary_round prec emax s mx ex = S754_finite s (Nat.iter n xO mx) (ex - Z.of_nat n).
Proof.
  intros Hd Hlo Hhi. unfold binary_round, shl_align, fexp, SpecFloat.emin, prec, emax.
  replace (Z.max (Zpos (digits2_pos mx) + ex - 53) (3 - 1024 - 53)) with (ex - Z.of_nat n) by lia.
  destruct n as [|n].
  - replace (ex - Z.of_nat 0 - ex) with 0 by lia. simpl Nat.iter.
    replace (ex - Z.of_nat 0) with ex by lia.
    apply binary_round_aux_canonical; simpl in *; lia.
  - replace (ex - Z.of_nat (S n) - ex) with (Zneg (Pos.of_succ_nat n)) by lia.
    rewrite pos_iter_nat, SuccNat2Pos.id_succ.
    apply binary_round_aux_canonical; [rewrite digits_shift|]; lia.
Qed.

Lemma binary_round_shr (s : bool) (m : positive) (e : Z) (n : nat) :
  Zpos (digits2_pos m) = 53 -> -1074 <= e - Z.of_nat n -> e <= 971 ->
  binary_round prec emax s (Nat.iter n xO m) (e - Z.of_nat n) = S754_finite s m e.
Proof.
  intros Hd Hlo Hhi. unfold binary_round, shl_align, fexp, SpecFloat.emin, prec, emax.
  rewrite digits_shift, Hd.
  replace (Z.max (53 + Z.of_nat n + (e - Z.of_nat n) - 53) (3 - 1024 - 53)) with e by lia.
  destruct n as [|n].
  - replace (e - (e - Z.of_nat 0)) with 0 by lia. simpl Nat.iter.
    replace (e - Z.of_nat 0) with e by lia.
    apply binary_round_aux_canonical; lia.
  - replace (e - (e - Z.of_nat (S n))) with (Zpos (Pos.of_succ_nat n)) by lia.
    unfold binary_round_aux, shr_fexp, fexp, Zdigits2, SpecFloat.emin.
    rewrite digits_shift, Hd.
    replace (Z.max (53 + Z.of_nat (S n) + (e - Z.of_nat (S n)) - 53) (3 - 1024 - 53)
             - (e - Z.of_nat (S n))) with (Zpos (Pos.of_succ_nat n)) by lia.
    unfold shr, shr_record_of_loc.
    rewrite iter_pos_nat, SuccNat2Pos.id_succ, shr_even.
    replace (e - Z.of_nat (S n) + Zpos (Pos.of_succ_nat n)) with e by lia.
    cbn [shr_m loc_of_shr_record round_nearest_even shr_record_of_loc]. rewrite Hd.
    replace (Z.max (53 + e - 53) (3 - 1024 - 53) - e) with 0 by lia.
    cbn [shr shr_m].
    replace (e <=? 1024 - 53) with true by (symmetry; apply Z.leb_le; lia). reflexivity.
Qed.

Lemma digits_small (p : positive) : Zpos p < 2 ^ 53 -> Zpos (digits2_pos p) <= 53.
Proof.
  intros H. pose proof (digits_bounds p) as [Hlo _].
  assert (2 ^ (Zpos (digits2_pos p) - 1) < 2 ^ 53) as Hlt by lia.
  apply Z.pow_lt_mono_r_iff in Hlt; lia.
Qed.

Lemma Z2f_spec (p : positive) :
  Zpos p < 2 ^ 53 ->
  Prim2SF (Z2f (Zpos p)) = S754_finite false (Nat.iter (pad p) xO p) (- Z.of_nat (pad p)).
Proof.
  intros H. pose proof (digits_small p H) as Hd.
  unfold Z2f. rewrite of_uint63_spec, of_Z_spec.
  rewrite Z.mod_small by (unfold wB, size; simpl Z.of_nat; lia).
  unfold binary_normalize.
  rewrite (binary_round_shl false p 0 (pad p)); unfold pad; try lia.
  reflexivity.
Qed.

Lemma Prim2SF_one : Prim2SF 1%float = S754_finite false (Nat.iter 52 xO 1%positive) (-52).
Proof. vm_compute. reflexivity. Qed.

Lemma Z2f_succ (k : Z) : 0 <= k -> k + 1 < 2 ^ 53 -> (Z2f k + 1)%float = Z2f (k + 1).
Proof.
  intros H0 H. destruct k as [|p|p]; [vm_compute; reflexivity| |lia].
  apply Prim2SF_inj. rewrite add_spec, Z2f_spec, Prim2SF_one by lia.
  replace (Zpos p + 1) with (Zpos (p + 1)) by lia.
  rewrite Z2f_spec by lia.
  pose proof (digits_small p ltac:(lia)) as Hd.
  pose proof (digits_small (p + 1) ltac:(lia)) as Hd'.
  assert (pad p <= 52)%nat as Hn by (unfold pad; lia).
  assert (pad (p + 1) <= 52)%nat as Hn' by (unfold pad; lia).
  unfold SF64add, SFadd.
  replace (Z.min (- Z.of_nat (pad p)) (-52)) with (-52) by lia.
  assert (fst (shl_align (Nat.iter (pad p) xO p) (- Z.of_nat (pad p)) (-52))
          = Nat.iter 52 xO p) as ->.
  { unfold shl_align.
    destruct (-52 - - Z.of_nat (pad p)) as [|d|d] eqn:E; try lia.
    - cbn [fst]. replace (pad p) with 52%nat by lia. reflexivity.
    - cbn [fst]. rewrite pos_iter_nat, <- Nat.iter_add. f_equal. lia. }
  assert (fst (shl_align (Nat.iter 52 xO 1%positive) (-52) (-52)) = Nat.iter 52 xO 1%positive) as ->
    by reflexivity.
  cbn [cond_Zopp].
  replace (Zpos (Nat.iter 52 xO p) + Zpos (Nat.iter 52 xO 1%positive))
    with (Zpos (Nat.iter 52 xO (p + 1)%positive))
    by (rewrite !value_shift; lia).
  unfold binary_normalize.
  replace (Nat.iter 52 xO (p + 1)%positive)
    with (Nat.iter (52 - pad (p + 1)) xO (Nat.iter (pad (p + 1)) xO (p + 1)%positive))
    by (rewrite <- Nat.iter_add; f_equal; lia).
  replace (-52) with (- Z.of_nat (pad (p + 1)) - Z.of_nat (52 - pad (p + 1))) at 1 by lia.
  apply binary_round_shr; try lia.
  rewrite digits_shift. unfold pad. lia.
Qed.

Lemma Z2f_add_zero (k : Z) : 0 <= k < 2 ^ 53 -> (Z2f k + 0)%float = Z2f k.
Proof.
  intros H. destruct k as [|p|p]; [vm_compute; reflexivity| |lia].
  apply Prim2SF_inj. rewrite add_spec, Z2f_spec by lia. reflexivity.
Qed.

End Integers.

End Float_facts.

(** * Arrays and runs *)

Section Arrays.
Context {R : Runtime}.

Lemma map2_length {A B C} (f : A -> B -> C) (a : list A) (b : list B) :
  length (map2 f a b) = Nat.min (length a) (length b).
Proof.
  revert b; induction a as [|x a IH]; intros [|v b]; simpl; try reflexivity.
  now rewrite IH.
Qed.

Lemma nth_error_map2 {A B C} (f : A -> B -> C) (a : list A) (b : list B) (j : nat) :
  nth_error (map2 f a b) j
  = match nth_error a j, nth_error b j with
    | Some x, Some v => Some (f x v)
    | _, _ => None
    end.
Proof.
  revert a b; induction j as [|j IH]; intros [|x a] [|v b]; simpl; try reflexivity.
  - now destruct (nth_error a j).
  - apply IH.
Qed.

Lemma init_weights_length (nodata : float) (y : array) :
  length (fst (Vectorized.init_weights nodata y)) = length y.
Proof.
  induction y as [|x y IH]; simpl; [reflexivity|].
  destruct (Vectorized.init_weights nodata y) as [w n]; simpl in *.
  destruct (invalid nodata x); simpl; now rewrite IH.
Qed.

Lemma validity_nth (nodata : float) (y : array) (j : nat) (x : float) :
  nth_error y j = Some x ->
  nth_error (validity y nodata) j = Some (if invalid nodata x then 0 else 1).
Proof.
  unfold validity. revert j; induction y as [|x0 y IH]; intros [|j]; simpl; try discriminate.
  - intros [= ->]. destruct (Vectorized.init_weights nodata y) as [w n].
    destruct (invalid nodata x); reflexivity.
  - intros H. specialize (IH j H).
    destruct (Vectorized.init_weights nodata y) as [w n]; simpl in *.
    destruct (invalid nodata x0); simpl; exact IH.
Qed.

Lemma n_valid_bounds (nodata : float) (y : array) :
  (0 <= n_valid y nodata <= Z.of_nat (length y))%Z.
Proof.
  unfold n_valid. induction y as [|x y IH]; simpl; [lia|].
  destruct (Vectorized.init_weights nodata y) as [w n]; simpl in *.
  destruct (invalid nodata x); simpl; lia.
Qed.

Lemma eigenvalues_nonempty (m : nat) :
  m <> 0%nat -> exists d_eigs, eigenvalues m = Ok d_eigs /\ length d_eigs = m.
Proof.
  intros Hm. unfold eigenvalues, np_arange.
  destruct m as [|m]; [congruence|]. simpl. eexists; split; [reflexivity|].
  simpl. now rewrite !length_map, length_seq.
Qed.

Lemma eigenvalues_empty : eigenvalues 0 = Ok [].
Proof. reflexivity. Qed.

(** The eigenvalues are defined for every length. *)
Lemma eigenvalues_defined (m : nat) :
  exists d_eigs, eigenvalues m = Ok d_eigs /\ length d_eigs = m.
Proof.
  destruct m as [|m]; [exists []; split; reflexivity|].
  apply eigenvalues_nonempty. discriminate.
Qed.

Lemma envelope_weights_length (p : float) (y z rw : array) :
  length z = length y -> length rw = length y ->
  length (envelope_weights p y z rw) = length y.
Proof.
  revert z rw; induction y as [|x y IH]; intros [|v z] [|r rw]; simpl; try discriminate;
    try reflexivity.
  intros [= Hz] [= Hr]. now rewrite IH.
Qed.

Lemma envelope_weights_nth (p : float) (y z rw : array) (j : nat) (v : float) :
  nth_error (envelope_weights p y z rw) j = Some v ->
  exists r wa, nth_error rw j = Some r /\ v = r * wa /\ (wa = p \/ wa = 1 - p).
Proof.
  revert y z rw; induction j as [|j IH]; intros [|x y] [|t z] [|r rw]; simpl; try discriminate.
  - intros [= <-]. exists r. destruct (t <? x); eauto.
  - apply IH.
Qed.

Lemma tukey_update_length (y w_temp d_eigs : array) (s : float) (fitted rw : array) (n : float) :
  length fitted = length y ->
  length (tukey_update y w_temp d_eigs s fitted rw n) = length y.
Proof.
  intros H. unfold tukey_update, assign_where.
  rewrite !map2_length, !length_map, !map2_length. lia.
Qed.

(** The last assignment of the update, [r_weights[r_arr > 0] = 1]. *)
Lemma tukey_update_positive (y w_temp d_eigs : array) (s : float) (fitted rw : array)
      (n : float) (j : nat) (r : float) :
  nth_error (map2 sub y fitted) j = Some r -> (0 <? r) = true ->
  nth_error (tukey_update y w_temp d_eigs s fitted rw n) j = Some 1.
Proof.
  intros Hr Hpos. unfold tukey_update, assign_where.
  rewrite nth_error_map2, nth_error_map, Hr. cbn [option_map]. rewrite Hpos.
  rewrite nth_error_map2, !nth_error_map, Hr. cbn [option_map].
  reflexivity.
Qed.
End Arrays.

Section Runs.
Context {R : Runtime}.
Variables (y : array) (llas : array) (robust : bool).

Lemma foldM_app {A B} (f : A -> B -> Smooth A) (l1 l2 : list B) (a : A) (tr : list call) :
  foldM f (l1 ++ l2) a tr
  = match foldM f l1 a tr with
    | (Ok a', tr') => foldM f l2 a' tr'
    | (Raise e, tr') => (Raise e, tr')
    end.
Proof.
  revert a tr; induction l1 as [|b l1 IH]; intros a tr; simpl; [reflexivity|].
  unfold bind. destruct (f a b tr) as [[a'|e] tr']; [apply IH | reflexivity].
Qed.

(** A candidate never raises: it calls the smoother once and leaves the
    record that [challenge] computes. *)
Lemma gcv_candidate_run (w_temp d_eigs : array) (b : best) (lmda : float) (tr : list call) :
  Vectorized.gcv_candidate y w_temp d_eigs b lmda tr
  = (Ok (challenge y w_temp d_eigs b lmda), tr ++ [(lmda, w_temp)]).
Proof.
  unfold Vectorized.gcv_candidate, challenge, bind, call_ws2d, ret. cbn [fst].
  now destruct (_ <? _).
Qed.

Lemma scan_run (w_temp d_eigs grid : array) (b : best) (tr : list call) :
  foldM (Vectorized.gcv_candidate y w_temp d_eigs) grid b tr
  = (Ok (fold_left (challenge y w_temp d_eigs) grid b),
     tr ++ map (fun lmda => (lmda, w_temp)) grid).
Proof.
  revert b tr; induction grid as [|lmda grid IH]; intros b tr; simpl.
  - unfold ret. now rewrite app_nil_r.
  - unfold bind. rewrite gcv_candidate_run. rewrite IH. now rewrite <- app_assoc.
Qed.

Lemma robust_loop_S (w d_eigs : array) (n : Z) (it : nat) (tr : list call) :
  Vectorized.robust_loop y llas robust w d_eigs n (S it) tr
  = match Vectorized.robust_loop y llas robust w d_eigs n it tr with
    | (Ok st, tr') => Vectorized.robust_iteration y llas robust w d_eigs n st it tr'
    | (Raise e, tr') => (Raise e, tr')
    end.
Proof.
  unfold Vectorized.robust_loop. rewrite seq_S, foldM_app. cbn [Nat.add].
  destruct (foldM _ (seq 0 it) _ tr) as [[st|e] tr']; [|reflexivity].
  simpl. unfold bind.
  destruct (Vectorized.robust_iteration y llas robust w d_eigs n st it tr') as [[st'|e] tr''];
    reflexivity.
Qed.

(** What a turn that ends leaves behind. *)
Lemma robust_iteration_inv (w d_eigs : array) (n : Z) (st st' : loop_state) (it : nat)
      (tr tr' : list call) :
  Vectorized.robust_iteration y llas robust w d_eigs n st it tr = (Ok st', tr') ->
  exists grid,
    Vectorized.smoothing_of llas it (robust_gcv st) = Ok grid /\
    record st' = fold_left (challenge y (map2 mul w (r_weights st)) d_eigs) grid (record st) /\
    robust_gcv st' = robust_gcv st ++ [gcv_temp (record st')] /\
    tr' = tr ++ map (fun lmda => (lmda, map2 mul w (r_weights st))) grid /\
    robust_weights st' = Some (map2 mul w (r_weights st')) /\
    (if robust
     then exists fitted,
         tempNDVI_arr (record st') = Some fitted /\
         r_weights st' = tukey_update y (map2 mul w (r_weights st)) d_eigs
                                      (snd (gcv_temp (record st'))) fitted
                                      (r_weights st) (Z2f n)
     else r_weights st' = r_weights st).
Proof.
  unfold Vectorized.robust_iteration.
  destruct (Vectorized.smoothing_of llas it (robust_gcv st)) as [grid|e]; [|discriminate].
  unfold bind. rewrite scan_run.
  set (b := fold_left _ grid (record st)).
  destruct robust.
  - destruct (tempNDVI_arr b) as [fitted|] eqn:Hf; unfold ret, raise; [|discriminate].
    intros [= <- <-]. exists grid. cbn. repeat split; eauto.
  - unfold ret. intros [= <- <-]. exists grid. cbn. repeat split; eauto.
Qed.

(** The log of a run only grows. *)
Lemma robust_loop_log (w d_eigs : array) (n : Z) (it : nat) (tr : list call) :
  exists new, snd (Vectorized.robust_loop y llas robust w d_eigs n it tr) = tr ++ new.
Proof.
  induction it as [|it [new IH]].
  - exists []. cbn. now rewrite app_nil_r.
  - rewrite robust_loop_S.
    destruct (Vectorized.robust_loop y llas robust w d_eigs n it tr) as [[st|e] tr0] eqn:E;
      cbn in IH; subst tr0; [|eexists; reflexivity].
    destruct (Vectorized.robust_iteration y llas robust w d_eigs n st it (tr ++ new))
      as [[st'|e] tr'] eqn:E'.
    + apply robust_iteration_inv in E' as (grid & _ & _ & _ & -> & _).
      rewrite <- app_assoc. eexists; reflexivity.
    + revert E'. unfold Vectorized.robust_iteration.
      destruct (Vectorized.smoothing_of llas it (robust_gcv st)); unfold raise, bind;
        [|intros [= _ <-]; eexists; reflexivity].
      rewrite scan_run. destruct robust; unfold ret, raise.
      * destruct (tempNDVI_arr _); [discriminate|]. intros [= _ <-].
        rewrite <- app_assoc. eexists; reflexivity.
      * discriminate.
Qed.

(** A run that reaches turn [S it] has reached turn [it]. *)
Lemma robust_loop_prefix (w d_eigs : array) (n : Z) (it : nat) (st' : loop_state)
      (tr tr' : list call) :
  Vectorized.robust_loop y llas robust w d_eigs n (S it) tr = (Ok st', tr') ->
  exists st tr0,
    Vectorized.robust_loop y llas robust w d_eigs n it tr = (Ok st, tr0) /\
    Vectorized.robust_iteration y llas robust w d_eigs n st it tr0 = (Ok st', tr').
Proof.
  rewrite robust_loop_S.
  destruct (Vectorized.robust_loop y llas robust w d_eigs n it tr) as [[st|e] tr0];
    [eauto | discriminate].
Qed.

(** The loop makes a turn at least, and a turn assigns [robust_weights]. *)
Lemma robust_weights_assigned (w d_eigs : array) (n : Z) (st : loop_state)
      (tr tr' : list call) :
  Vectorized.robust_loop y llas robust w d_eigs n (Vectorized.r_its robust) tr = (Ok st, tr') ->
  exists rw, robust_weights st = Some rw.
Proof.
  assert (exists k, Vectorized.r_its robust = S k) as (k & ->)
      by (unfold Vectorized.r_its; destruct robust; cbn; eauto).
  intros H. apply robust_loop_prefix in H as (st0 & tr0 & _ & Hit).
  apply robust_iteration_inv in Hit as (grid & _ & _ & _ & _ & Hw & _). eauto.
Qed.
End Runs.

Section Whole_runs.
Context {R : Runtime}.
Variables (y : array) (nodata p : float) (llas : array) (robust : bool).

(** The envelope loop never raises.  It makes between one and [k] passes, one
    call of the smoother per pass, all with the penalty [lopt], the last of
    them with the weights it leaves in [ww]; it stops before the [k]-th pass
    only on a zero total change. *)
Lemma envelope_loop_run (k : nat) (rw : array) (lopt : float) (st : envelope_state)
      (tr : list call) :
  exists e calls,
    Vectorized.envelope_loop y p k rw lopt st tr = (Ok e, tr ++ calls) /\
    (passes e = passes st + length calls)%nat /\
    (length calls <= k)%nat /\
    (k <> 0%nat -> calls <> [] /\ last calls (0, []) = (lopt, ww e)) /\
    Forall (fun c : call => fst c = lopt) calls /\
    ((length calls < k)%nat ->
     (total_change (ws2d y lopt (ww e)) (z e) =? 0) = true).
Proof.
  revert st tr; induction k as [|k IH]; intros st tr.
  - exists st, []. cbn. rewrite app_nil_r. repeat split; auto; try lia; try congruence.
  - cbn [Vectorized.envelope_loop]. unfold bind, call_ws2d.
    set (ww0 := envelope_weights p y (z st) rw).
    destruct (total_change (ws2d y lopt ww0) (z st) =? 0) eqn:E.
    + exists (EnvelopeState (z st) ww0 (S (passes st))), [(lopt, ww0)].
      cbn. repeat split; auto; try lia; try congruence.
    + destruct (IH (EnvelopeState (ws2d y lopt ww0) ww0 (S (passes st))) (tr ++ [(lopt, ww0)]))
        as (e & calls & Hrun & Hp & Hlen & Hlast & Hall & Hconv).
      exists e, ((lopt, ww0) :: calls).
      rewrite Hrun, <- app_assoc. cbn in *. repeat split; auto; try lia; try congruence.
      * destruct k as [|k].
        -- assert (calls = []) as -> by (destruct calls; [reflexivity | cbn in Hlen; lia]).
           rewrite app_nil_r in Hrun. cbn in Hrun. injection Hrun as <-. reflexivity.
        -- destruct Hlast as [Hne Hl]; [congruence|].
           destruct calls; [congruence | exact Hl].
      * intros H. apply Hconv. lia.
Qed.

(** What a run of the branch [n > 5] that ends has done. *)
Lemma optimize_inv (w d_eigs : array) (n : Z) (tr tr' : list call) (out : list Z)
      (lopt : float) :
  Vectorized.optimize y p llas robust w d_eigs n tr = (Ok (out, lopt), tr') ->
  exists st tr1 rw e calls,
    Vectorized.robust_loop y llas robust w d_eigs n (Vectorized.r_its robust) tr = (Ok st, tr1) /\
    Vectorized.select_lopt robust (robust_gcv st) = Ok lopt /\
    robust_weights st = Some rw /\
    Vectorized.envelope_loop y p 10 rw lopt
      (EnvelopeState (np_zeros (length y)) (np_zeros (length y)) 0) tr1 = (Ok e, tr1 ++ calls) /\
    passes e = length calls /\
    (length calls <= 10)%nat /\
    calls <> [] /\
    last calls (0, []) = (lopt, ww e) /\
    ((length calls < 10)%nat -> (total_change (ws2d y lopt (ww e)) (z e) =? 0) = true) /\
    out = map (fun v => f64_to_i16 (np_round v)) (ws2d y lopt (ww e)) /\
    tr' = tr1 ++ calls ++ [(lopt, ww e)].
Proof.
  unfold Vectorized.optimize, bind.
  destruct (Vectorized.robust_loop y llas robust w d_eigs n (Vectorized.r_its robust) tr)
    as [[st|e] tr1] eqn:Eloop; [|discriminate].
  destruct (Vectorized.select_lopt robust (robust_gcv st)) as [l|e] eqn:El; [|discriminate].
  destruct (robust_weights_assigned y llas robust _ _ _ _ _ _ Eloop) as (rw & Erw).
  rewrite Erw. cbn [array_of].
  destruct (envelope_loop_run 10 rw l
              (EnvelopeState (np_zeros (length y)) (np_zeros (length y)) 0) tr1)
    as (e & calls & Hrun & Hp & Hlen & Hlast & _ & Hconv).
  rewrite Hrun. unfold call_ws2d, ret. intros [= <- <- <-].
  destruct Hlast as [Hne Hl]; [congruence|].
  exists st, tr1, rw, e, calls. cbn in Hp. rewrite <- app_assoc.
  repeat split; auto.
Qed.

(** A run of [ws2dwcvp] on more than five valid samples is a run of that
    branch. *)
Lemma ws2dwcvp_logged_optimize :
  (5 < n_valid y nodata)%Z ->
  exists d_eigs,
    eigenvalues (length y) = Ok d_eigs /\ length d_eigs = length y /\
    Vectorized.ws2dwcvp_logged y nodata p llas robust
    = Vectorized.optimize y p llas robust (validity y nodata) d_eigs (n_valid y nodata).
Proof.
  intros Hn. pose proof (n_valid_bounds nodata y) as Hb.
  destruct (eigenvalues_nonempty (length y)) as (d_eigs & Hd & Hlen); [lia|].
  exists d_eigs. repeat split; auto.
  unfold Vectorized.ws2dwcvp_logged, validity, n_valid in *.
  destruct (Vectorized.init_weights nodata y) as [w n]. cbn [fst snd] in *.
  rewrite Hd. replace (5 <? n)%Z with true by (symmetry; apply Z.ltb_lt; lia). reflexivity.
Qed.

(** A run of [ws2dwcvp] on five valid samples or fewer returns at once; so
    on the empty series, where the store [d_eigs[0] = 1e-15] finds no
    entry. *)
Lemma ws2dwcvp_logged_fallback :
  (n_valid y nodata <= 5)%Z ->
  Vectorized.ws2dwcvp_logged y nodata p llas robust [] = (Ok (map f64_to_i16 y, 0), []).
Proof.
  intros Hn.
  destruct (eigenvalues_defined (length y)) as (d_eigs & Hd & _).
  unfold Vectorized.ws2dwcvp_logged, n_valid in *.
  destruct (Vectorized.init_weights nodata y) as [w n]. cbn [snd] in Hn.
  rewrite Hd. replace (5 <? n)%Z with false by (symmetry; apply Z.ltb_ge; lia).
  reflexivity.
Qed.

(** After [it] turns the history has [it] entries. *)
Lemma history_length (w d_eigs : array) (n : Z) (it : nat) (st : loop_state)
      (tr tr' : list call) :
  Vectorized.robust_loop y llas robust w d_eigs n it tr = (Ok st, tr') ->
  length (robust_gcv st) = it.
Proof.
  revert st tr'; induction it as [|it IH]; intros st tr'.
  - cbn. now intros [= <- _].
  - intros H. apply robust_loop_prefix in H as (st0 & tr0 & H0 & H1).
    apply robust_iteration_inv in H1 as (grid & _ & _ & -> & _).
    rewrite length_app, (IH _ _ H0). cbn. lia.
Qed.
End Whole_runs.

(** * The degenerate path *)

(** C1, as amended: for every series with at most five valid samples (a
    sample is invalid when it equals the nodata value, is NaN or is
    infinite), the empty series included, [ws2dwcvp] makes no call of the
    smoother, reports the penalty 0 and stores the input samples in the
    [int16] output, each converted by [f64_to_i16]: a sample that is not an
    integer loses its fraction, and what is stored for NaN, an infinity or a
    value outside the range of [int16] is not defined. *)
Theorem fallback_stores_input {R : Runtime} (y : array) (nodata p : float) (llas : array)
        (robust : bool) :
  (n_valid y nodata <= 5)%Z ->
  Vectorized.ws2dwcvp y nodata p llas robust = Ok (map f64_to_i16 y, 0) /\
  Vectorized.ws2dwcvp_calls y nodata p llas robust = [].
Proof.
  intros Hn.
  unfold Vectorized.ws2dwcvp, Vectorized.ws2dwcvp_calls.
  rewrite (ws2dwcvp_logged_fallback y nodata p llas robust Hn).
  split; reflexivity.
Qed.

Lemma fallback_stores_input_witness :
  (n_valid [1.5]%float (-9999)%float <= 5)%Z /\
  Vectorized.ws2dwcvp (R := Stand_in.runtime) [1.5] (-9999) 0.9 [0; 1; 2; 3] false
  = Ok ([1%Z], 0).
Proof.
  split; [vm_compute; discriminate|].
  apply (fallback_stores_input (R := Stand_in.runtime) [1.5] (-9999) 0.9 [0; 1; 2; 3] false).
  vm_compute; discriminate.
Defined.

(** C1, as stated, fails on the series [[1.5]]: one valid sample, and the
    output holds 1. *)
Lemma fallback_input_not_returned :
  ~ fallback_returns_input (R := Stand_in.runtime) [1.5] (-9999) 0.9 [0; 1; 2; 3] false.
Proof.
  intros H. destruct H as (out & Hout & Hmap); [vm_compute; discriminate|].
  unfold Vectorized.ws2dwcvp in Hout.
  rewrite (ws2dwcvp_logged_fallback (R := Stand_in.runtime) [1.5] (-9999) 0.9 [0; 1; 2; 3] false)
    in Hout; [|vm_compute; discriminate].
  injection Hout as <-.
  apply (f_equal (fun a => match a with [v] => v =? 1 | _ => false end)) in Hmap.
  vm_compute in Hmap. discriminate.
Qed.

(** The scenario of ten nodata samples: there the stored values are the
    samples. *)
Lemma fallback_all_nodata :
  let y := repeat (-9999) 10 in
  Vectorized.ws2dwcvp (R := Stand_in.runtime) y (-9999) 0.9 [0; 1; 2; 3] true
  = Ok (repeat (-9999)%Z 10, 0) /\
  map i16_to_f64 (repeat (-9999)%Z 10) = y.
Proof. vm_compute. split; reflexivity. Qed.

(** The empty series has no valid sample: the output is empty and the
    penalty 0. *)
Lemma empty_series_returns {R : Runtime} (nodata p : float) (llas : array) (robust : bool) :
  Vectorized.ws2dwcvp [] nodata p llas robust = Ok ([], 0).
Proof. reflexivity. Qed.

(** * The envelope loop *)

(** C9: in a run of [ws2dwcvp] that returns from the branch [n > 5], the
    envelope loop makes between one and ten passes, each with one call of the
    smoother; then the smoother is called once more, with the weights [ww] of
    the last pass, and the output is that curve, each value rounded to the
    nearest integer and stored.  A loop that stops before the tenth pass has
    met a total change of zero, and the curve returned is still the one of
    the additional call, not the estimate [z] the loop was left with. *)
Theorem envelope_result {R : Runtime} (y : array) (nodata p : float) (llas : array)
        (robust : bool) (out : list Z) (lopt : float) :
  Vectorized.ws2dwcvp y nodata p llas robust = Ok (out, lopt) ->
  (5 < n_valid y nodata)%Z ->
  exists e calls,
    (1 <= passes e <= 10)%nat /\
    length calls = passes e /\
    last calls (0, []) = (lopt, ww e) /\
    Vectorized.ws2dwcvp_calls y nodata p llas robust
    = snd (after_turns y nodata llas robust (if robust then 4 else 1))
        ++ calls ++ [(lopt, ww e)] /\
    out = map (fun v => f64_to_i16 (np_round v)) (ws2d y lopt (ww e)) /\
    ((passes e < 10)%nat -> (total_change (ws2d y lopt (ww e)) (z e) =? 0) = true).
Proof.
  intros Hrun Hn.
  destruct (ws2dwcvp_logged_optimize y nodata p llas robust Hn) as (d_eigs & Hd & _ & Heq).
  unfold Vectorized.ws2dwcvp_calls, Vectorized.ws2dwcvp in *. rewrite Heq in *.
  destruct (Vectorized.optimize _ _ _ _ _ _ _ _) as [r tr'] eqn:E. cbn in Hrun. subst r.
  apply optimize_inv in E
    as (st & tr1 & rw & e & calls & Hloop & _ & _ & _ & Hp & Hlen & Hne & Hlast & Hconv
        & -> & ->).
  exists e, calls. unfold after_turns. rewrite Hd.
  replace (if robust then 4 else 1)%nat with (Vectorized.r_its robust)
    by (now destruct robust).
  rewrite Hloop. cbn [snd]. rewrite Hp.
  repeat split; auto.
  destruct calls; [congruence | cbn; lia].
Qed.

Lemma envelope_result_witness :
  let y := [1; 2; 3; 100; 5; 6; 7; 8; 9; 10] in
  Vectorized.ws2dwcvp (R := Stand_in.runtime) y (-9999) 0.9 [0; 1; 2; 3] false
  = Ok ([79; 72; 65; 59; 52; 45; 38; 31; 25; 18]%Z, 1000) /\
  (5 < n_valid y (-9999)%float)%Z /\
  exists e calls,
    (1 <= passes e <= 10)%nat /\
    length calls = passes e /\
    last calls (0, []) = (1000, ww e) /\
    Vectorized.ws2dwcvp_calls (R := Stand_in.runtime) y (-9999) 0.9 [0; 1; 2; 3] false
    = snd (after_turns (R := Stand_in.runtime) y (-9999) [0; 1; 2; 3] false 1)
        ++ calls ++ [(1000, ww e)] /\
    [79; 72; 65; 59; 52; 45; 38; 31; 25; 18]%Z
    = map (fun v => f64_to_i16 (R := Stand_in.runtime) (np_round v))
          (Stand_in.whittaker y 1000 (ww e)) /\
    ((passes e < 10)%nat ->
     (total_change (Stand_in.whittaker y 1000 (ww e)) (z e) =? 0) = true).
Proof.
  intros y.
  assert (Hrun : Vectorized.ws2dwcvp (R := Stand_in.runtime) y (-9999) 0.9 [0; 1; 2; 3] false
                 = Ok ([79; 72; 65; 59; 52; 45; 38; 31; 25; 18]%Z, 1000))
    by (vm_compute; reflexivity).
  assert (Hn : (5 < n_valid y (-9999)%float)%Z) by (vm_compute; reflexivity).
  split; [exact Hrun|]. split; [exact Hn|].
  exact (envelope_result (R := Stand_in.runtime) y (-9999) 0.9 [0; 1; 2; 3] false
                         _ _ Hrun Hn).
Defined.

(** * The scan of the grid and the record it keeps *)

Section Scans.
Context {R : Runtime}.
Variables (y : array) (nodata : float) (llas : array) (robust : bool).
Import Float_facts.

Lemma challenge_sound (w_temp d_eigs : array) (b : best) (lmda : float) :
  sound_record y b -> sound_record y (challenge y w_temp d_eigs b lmda).
Proof.
  intros [Hs Hl]. unfold challenge.
  destruct (_ <? _) eqn:E; [|split; assumption].
  split; cbn.
  - apply ltb_not_nan in E. tauto.
  - intros fitted [= <-]. apply ws2d_shape.
Qed.

Lemma scan_sound (w_temp d_eigs grid : array) (b : best) :
  sound_record y b -> sound_record y (fold_left (challenge y w_temp d_eigs) grid b).
Proof.
  revert b; induction grid as [|lmda grid IH]; intros b Hb; cbn; [exact Hb|].
  apply IH, challenge_sound, Hb.
Qed.

(** A candidate lowers the recorded score or leaves the record alone. *)
Lemma challenge_below_record (w_temp d_eigs : array) (b : best) (lmda : float) :
  sound_record y b ->
  (fst (gcv_temp (challenge y w_temp d_eigs b lmda)) <=? fst (gcv_temp b)) = true.
Proof.
  intros [Hs _]. unfold challenge.
  destruct (_ <? _) eqn:E; cbn; [now apply ltb_leb | now apply leb_refl].
Qed.

Lemma challenge_below_candidate (w_temp d_eigs : array) (b : best) (lmda : float) :
  sound_record y b ->
  is_nan (gcv_score_of y w_temp d_eigs lmda (ws2d y lmda w_temp)) = false ->
  (fst (gcv_temp (challenge y w_temp d_eigs b lmda))
   <=? gcv_score_of y w_temp d_eigs lmda (ws2d y lmda w_temp)) = true.
Proof.
  intros [Hs _] Hc. unfold challenge.
  destruct (_ <? _) eqn:E; cbn; [now apply leb_refl | now apply not_ltb_leb].
Qed.

Lemma scan_below_record (w_temp d_eigs grid : array) (b : best) :
  sound_record y b ->
  (fst (gcv_temp (fold_left (challenge y w_temp d_eigs) grid b)) <=? fst (gcv_temp b)) = true.
Proof.
  revert b; induction grid as [|lmda grid IH]; intros b Hb; cbn.
  - apply leb_refl, Hb.
  - eapply leb_trans; [apply IH, challenge_sound, Hb | apply challenge_below_record, Hb].
Qed.

Lemma scan_below_candidates (w_temp d_eigs grid : array) (b : best) (c : float) :
  sound_record y b -> In c grid ->
  is_nan (gcv_score_of y w_temp d_eigs c (ws2d y c w_temp)) = false ->
  (fst (gcv_temp (fold_left (challenge y w_temp d_eigs) grid b))
   <=? gcv_score_of y w_temp d_eigs c (ws2d y c w_temp)) = true.
Proof.
  revert b; induction grid as [|lmda grid IH]; intros b Hb [].
  - subst lmda. intros Hc. cbn.
    eapply leb_trans; [apply scan_below_record, challenge_sound, Hb|].
    now apply challenge_below_candidate.
  - intros Hc. cbn. apply IH; auto using challenge_sound.
Qed.

(** A scan leaves the record as it was, when no candidate scores strictly
    below it, or leaves the first candidate in the order of the grid whose
    score is the smallest of the scan, with its curve. *)
Lemma scan_first_minimum (w_temp d_eigs grid : array) (b : best) :
  let score c := gcv_score_of y w_temp d_eigs c (ws2d y c w_temp) in
  (fold_left (challenge y w_temp d_eigs) grid b = b /\
   forall c, In c grid -> (score c <? fst (gcv_temp b)) = false) \/
  (exists pre c post,
      grid = pre ++ c :: post /\
      fold_left (challenge y w_temp d_eigs) grid b = Best (score c, c) (Some (ws2d y c w_temp)) /\
      (score c <? fst (gcv_temp b)) = true /\
      (forall c', In c' pre -> (score c' <=? score c) = false) /\
      (forall c', In c' post -> (score c' <? score c) = false)).
Proof.
  intros score. revert b; induction grid as [|a grid IH]; intros b.
  - left. split; [reflexivity | intros c []].
  - cbn [fold_left]. unfold challenge at 2 4. fold (score a).
    destruct (score a <? fst (gcv_temp b)) eqn:Ea.
    + right. destruct (IH (Best (score a, a) (Some (ws2d y a w_temp))))
        as [[Hk Hall] | (pre & c & post & -> & Hf & Hlt & Hpre & Hpost)].
      * exists [], a, grid. cbn [gcv_temp fst] in Hall.
        repeat split; auto. intros c' [].
      * cbn [gcv_temp fst] in Hlt.
        exists (a :: pre), c, post. repeat split; auto.
        -- eapply ltb_trans; eauto.
        -- intros c' [<- | Hc']; [now apply ltb_not_leb | now apply Hpre].
    + destruct (IH b) as [[Hk Hall] | (pre & c & post & -> & Hf & Hlt & Hpre & Hpost)].
      * left. split; [exact Hk|]. intros c [<- | Hc]; [exact Ea | now apply Hall].
      * right. exists (a :: pre), c, post. repeat split; auto.
        intros c' [<- | Hc']; [|now apply Hpre].
        destruct (score a <=? score c) eqn:E; [|reflexivity].
        rewrite (leb_ltb_trans _ _ _ E Hlt) in Ea. discriminate.
Qed.

Lemma loop_init_sound : sound_state y (loop_init (length y)).
Proof.
  repeat split; cbn; try discriminate.
  unfold np_ones. apply repeat_length.
Qed.

Lemma robust_iteration_sound (w d_eigs : array) (n : Z) (st st' : loop_state) (it : nat)
      (tr tr' : list call) :
  sound_state y st ->
  Vectorized.robust_iteration y llas robust w d_eigs n st it tr = (Ok st', tr') ->
  sound_state y st'.
Proof.
  intros [Hrec Hlen] H.
  apply robust_iteration_inv in H as (grid & _ & Hr & _ & _ & _ & Hw).
  assert (sound_record y (record st')) as Hrec' by (rewrite Hr; now apply scan_sound).
  split; [exact Hrec'|].
  destruct robust.
  - destruct Hw as (fitted & Hf & ->). apply tukey_update_length.
    now apply Hrec'.
  - now rewrite Hw.
Qed.

Lemma robust_loop_sound (w d_eigs : array) (n : Z) (it : nat) (st : loop_state)
      (tr : list call) :
  Vectorized.robust_loop y llas robust w d_eigs n it [] = (Ok st, tr) -> sound_state y st.
Proof.
  revert st tr; induction it as [|it IH]; intros st tr.
  - cbn. intros [= <- _]. apply loop_init_sound.
  - intros H. apply robust_loop_prefix in H as (st0 & tr0 & H0 & H1).
    eapply robust_iteration_sound; eauto.
Qed.

(** Two successive states of the loop of a run. *)
Lemma after_turns_S (it : nat) (st' : loop_state) :
  fst (after_turns y nodata llas robust (S it)) = Ok st' ->
  exists d_eigs st tr tr',
    eigenvalues (length y) = Ok d_eigs /\
    after_turns y nodata llas robust it = (Ok st, tr) /\
    after_turns y nodata llas robust (S it) = (Ok st', tr') /\
    Vectorized.robust_iteration y llas robust (validity y nodata) d_eigs (n_valid y nodata)
                                st it tr = (Ok st', tr') /\
    sound_state y st /\ sound_state y st'.
Proof.
  unfold after_turns.
  destruct (eigenvalues (length y)) as [d_eigs|e]; [|discriminate].
  destruct (Vectorized.robust_loop _ _ _ _ _ _ (S it) _) as [r tr'] eqn:E.
  cbn. intros ->. pose proof E as E'.
  apply robust_loop_prefix in E' as (st & tr & H0 & H1).
  exists d_eigs, st, tr, tr'. repeat split; auto;
    try (eapply robust_loop_sound; eauto).
Qed.
End Scans.

(** * The history and the reported penalty *)

Section History.
Context {R : Runtime}.
Variables (y : array) (llas : array) (robust : bool).
Import Float_facts.

(** A scan of the single candidate [lopt] from a record that holds [lopt]
    leaves a record that holds [lopt]. *)
Lemma challenge_same_penalty (w_temp d_eigs : array) (b : best) (lopt : float) :
  snd (gcv_temp b) = lopt ->
  snd (gcv_temp (fold_left (challenge y w_temp d_eigs) [lopt] b)) = lopt.
Proof.
  intros H. cbn [fold_left]. unfold challenge. destruct (_ <? _); [reflexivity | exact H].
Qed.

(** The grid of a turn after the second, when the second turn recorded a
    penalty that is not zero. *)
Lemma smoothing_of_late (it : nat) (hist : list (float * float)) (g : float * float) :
  (1 < it)%nat -> nth_error hist 1 = Some g -> (snd g =? 0) = false ->
  Vectorized.smoothing_of llas it hist = Ok [snd g].
Proof.
  intros Hit Hg Hz. unfold Vectorized.smoothing_of.
  replace (1 <? it)%nat with true by (symmetry; apply Nat.ltb_lt; lia).
  now rewrite Hg, Hz.
Qed.

(** The entry a turn appends is the record it leaves. *)
Lemma history_last (w d_eigs : array) (n : Z) (it : nat) (st : loop_state) (tr : list call) :
  Vectorized.robust_loop y llas robust w d_eigs n (S it) [] = (Ok st, tr) ->
  nth_error (robust_gcv st) it = Some (gcv_temp (record st)).
Proof.
  intros H. apply robust_loop_prefix in H as (st0 & tr0 & H0 & H).
  apply history_length in H0.
  apply robust_iteration_inv in H as (grid & _ & _ & Hh & _).
  rewrite Hh, nth_error_app2, H0, Nat.sub_diag by lia. reflexivity.
Qed.

(** The recorded scores never increase: the score of the record is at most
    every score of the history. *)
Lemma record_below_history (w d_eigs : array) (n : Z) (it : nat) (st : loop_state)
      (tr : list call) :
  Vectorized.robust_loop y llas robust w d_eigs n it [] = (Ok st, tr) ->
  Forall (fun g => (fst (gcv_temp (record st)) <=? fst g) = true) (robust_gcv st).
Proof.
  revert st tr; induction it as [|it IH]; intros st tr H.
  - cbn in H. injection H as <- _. constructor.
  - assert (sound_state y st) as [[Hs _] _] by (eapply robust_loop_sound; eauto).
    apply robust_loop_prefix in H as (st0 & tr0 & H0 & H).
    assert (sound_state y st0) as [Hs0 _] by (eapply robust_loop_sound; eauto).
    apply robust_iteration_inv in H as (grid & _ & Hr & Hh & _).
    rewrite Hh. apply Forall_app. split.
    + eapply Forall_impl; [|apply (IH _ _ H0)]. cbn beta. intros g Hg.
      eapply leb_trans; [|exact Hg]. rewrite Hr. now apply scan_below_record.
    + constructor; [|constructor]. now apply leb_refl.
Qed.

(** From the third turn on the record holds the penalty of the second entry
    of the history, when that penalty is not zero. *)
Lemma late_record_penalty (w d_eigs : array) (n : Z) (it : nat) (st : loop_state)
      (tr : list call) (g : float * float) :
  (2 <= it)%nat ->
  Vectorized.robust_loop y llas robust w d_eigs n it [] = (Ok st, tr) ->
  nth_error (robust_gcv st) 1 = Some g -> (snd g =? 0) = false ->
  snd (gcv_temp (record st)) = snd g.
Proof.
  revert st tr; induction it as [|it IH]; intros st tr Hit H Hg Hz; [lia|].
  pose proof (history_last _ _ _ _ _ _ H) as Hlast.
  apply robust_loop_prefix in H as (st0 & tr0 & H0 & H).
  pose proof (history_length _ _ _ _ _ _ _ _ _ _ H0) as Hlen.
  apply robust_iteration_inv in H as (grid & Hgrid & Hr & Hh & _).
  destruct (Nat.eq_dec it 1) as [-> | Hne].
  - rewrite Hlast in Hg. now injection Hg as <-.
  - assert (nth_error (robust_gcv st0) 1 = Some g) as Hg0
        by (rewrite Hh, nth_error_app1 in Hg by lia; exact Hg).
    rewrite (smoothing_of_late it _ g) in Hgrid by (auto; lia). injection Hgrid as <-.
    rewrite Hr. apply challenge_same_penalty.
    apply (IH st0 tr0); auto. lia.
Qed.
End History.

(** C2, as amended: when [ws2dwcvp] returns from the branch [n > 5], the
    robust loop has recorded one entry per turn (four when [robust], one
    otherwise) and the reported penalty is the penalty of the entry at a
    fixed index of that history, 1 when [robust] and 0 otherwise; no minimum
    over the recorded entries is taken.  But the recorded scores never
    increase, so the last entry holds the smallest score of the history, and
    without [robust], or when the reported penalty is not zero, the last
    entry holds the reported penalty: the reported penalty is then the
    penalty of an entry with the smallest recorded score. *)
Theorem lopt_is_fixed_entry {R : Runtime} (y : array) (nodata p : float) (llas : array)
        (robust : bool) (out : list Z) (lopt : float) :
  Vectorized.ws2dwcvp y nodata p llas robust = Ok (out, lopt) ->
  (5 < n_valid y nodata)%Z ->
  exists st,
    fst (after_turns y nodata llas robust (if robust then 4 else 1)) = Ok st /\
    length (robust_gcv st) = (if robust then 4 else 1)%nat /\
    (exists score, nth_error (robust_gcv st) (if robust then 1 else 0) = Some (score, lopt)) /\
    exists g,
      nth_error (robust_gcv st) (if robust then 3 else 0) = Some g /\
      (forall g', In g' (robust_gcv st) -> (fst g <=? fst g') = true) /\
      (robust = false \/ (lopt =? 0) = false -> snd g = lopt).
Proof.
  intros Hrun Hn.
  destruct (ws2dwcvp_logged_optimize y nodata p llas robust Hn) as (d_eigs & Hd & _ & Heq).
  unfold Vectorized.ws2dwcvp in Hrun. rewrite Heq in Hrun.
  destruct (Vectorized.optimize _ _ _ _ _ _ _ _) as [r tr'] eqn:E. cbn in Hrun. subst r.
  apply optimize_inv in E as (st & tr1 & rw & e & calls & Hloop & Hsel & _).
  exists st. unfold after_turns. rewrite Hd.
  replace (if robust then 4 else 1)%nat with (Vectorized.r_its robust)
    by (now destruct robust).
  rewrite Hloop. split; [reflexivity|]. split; [eapply history_length; eauto|].
  unfold Vectorized.select_lopt in Hsel.
  destruct (nth_error (robust_gcv st) (if robust then 1 else 0)) as [[score l]|] eqn:Hg;
    [|discriminate].
  injection Hsel as <-. split; [eauto|].
  exists (gcv_temp (record st)). split; [|split].
  - destruct robust; exact (history_last _ _ _ _ _ _ _ _ _ Hloop).
  - apply Forall_forall. exact (record_below_history _ _ _ _ _ _ _ _ _ Hloop).
  - intros Hz. destruct robust.
    + destruct Hz as [Hz | Hz]; [discriminate|].
      exact (late_record_penalty _ _ _ _ _ _ 4 _ _ (score, l) (le_S _ _ (le_S _ _ (le_n 2)))
                                 Hloop Hg Hz).
    + rewrite (history_last _ _ _ _ _ _ _ _ _ Hloop) in Hg. now injection Hg as ->.
Qed.

Lemma lopt_is_fixed_entry_witness :
  let y := [1; 2; 3; 100; 5; 6; 7; 8; 9; 10] in
  Vectorized.ws2dwcvp (R := Stand_in.runtime) y (-9999) 0.9 [0; 1; 2; 3] true
  = Ok ([95; 86; 77; 67; 58; 48; 38; 29; 19; 10]%Z, 1000) /\
  (5 < n_valid y (-9999)%float)%Z /\
  exists st,
    fst (after_turns (R := Stand_in.runtime) y (-9999) [0; 1; 2; 3] true 4) = Ok st /\
    length (robust_gcv st) = 4%nat /\
    (exists score, nth_error (robust_gcv st) 1 = Some (score, 1000)) /\
    exists g,
      nth_error (robust_gcv st) 3 = Some g /\
      (forall g', In g' (robust_gcv st) -> (fst g <=? fst g') = true) /\
      (true = false \/ (1000 =? 0) = false -> snd g = 1000).
Proof.
  intros y.
  assert (Hrun : Vectorized.ws2dwcvp (R := Stand_in.runtime) y (-9999) 0.9 [0; 1; 2; 3] true
                 = Ok ([95; 86; 77; 67; 58; 48; 38; 29; 19; 10]%Z, 1000))
    by (vm_compute; reflexivity).
  assert (Hn : (5 < n_valid y (-9999)%float)%Z) by (vm_compute; reflexivity).
  split; [exact Hrun|]. split; [exact Hn|].
  exact (lopt_is_fixed_entry (R := Stand_in.runtime) y (-9999) 0.9 [0; 1; 2; 3] true
                             _ _ Hrun Hn).
Defined.

(** C2, as stated, fails on the series [1, 2, 3, 100, 5, ..., 10] with the grid
    [10**0 .. 10**3] and [robust]: the four entries of the history all hold
    the score of the first turn and the penalty 1000, and 1000 is the
    reported penalty. *)
Lemma lopt_of_min_score :
  ~ lopt_not_of_min_score (R := Stand_in.runtime)
      [1; 2; 3; 100; 5; 6; 7; 8; 9; 10] (-9999) 0.9 [0; 1; 2; 3] true.
Proof.
  set (y := [1; 2; 3; 100; 5; 6; 7; 8; 9; 10]).
  intros H.
  assert (Hrun : Vectorized.ws2dwcvp (R := Stand_in.runtime) y (-9999) 0.9 [0; 1; 2; 3] true
                 = Ok ([95; 86; 77; 67; 58; 48; 38; 29; 19; 10]%Z, 1000))
    by (vm_compute; reflexivity).
  destruct (fst (after_turns (R := Stand_in.runtime) y (-9999) [0; 1; 2; 3] true 4))
    as [st|] eqn:H4; [|vm_compute in H4; discriminate].
  apply (H _ _ st (hd (0, 0) (robust_gcv st)) Hrun H4);
    vm_compute in H4; injection H4 as <-.
  - left. reflexivity.
  - intros g' Hg'. cbn in Hg'.
    destruct Hg' as [<- | [<- | [<- | [<- | []]]]]; vm_compute; reflexivity.
  - reflexivity.
Qed.

(** C3, as amended: the record [gcv_temp] (with its curve [tempNDVI_arr]) is
    set to [[1e15, 0]] once, before the robust loop, and never reset: the scan
    of a turn starts from the record the turn before has left.  The entry a
    turn appends to the history is the record at the end of its scan, so it
    is the first-seen minimum over the candidates of that turn and of all
    turns before, and the recorded scores never increase along the
    history. *)
Theorem record_carried_over {R : Runtime} (y : array) (nodata : float) (llas : array)
        (robust : bool) (it : nat) (st st' : loop_state) (d_eigs : array) :
  eigenvalues (length y) = Ok d_eigs ->
  fst (after_turns y nodata llas robust it) = Ok st ->
  fst (after_turns y nodata llas robust (S it)) = Ok st' ->
  record (loop_init (length y)) = Best (1e15, 0) None /\
  exists grid,
    Vectorized.smoothing_of llas it (robust_gcv st) = Ok grid /\
    (forall tr,
        fst (foldM (Vectorized.gcv_candidate y (w_temp_of y nodata st) d_eigs) grid
                   (record st) tr)
        = Ok (record st')) /\
    nth_error (robust_gcv st') it = Some (gcv_temp (record st')) /\
    (fst (gcv_temp (record st')) <=? fst (gcv_temp (record st))) = true.
Proof.
  intros Hd Hst Hst'. split; [reflexivity|].
  apply after_turns_S in Hst' as (d & st0 & tr & tr' & Hd' & H0 & _ & Hit & Hs & _).
  rewrite Hd in Hd'. injection Hd' as <-.
  rewrite H0 in Hst. cbn in Hst. injection Hst as ->.
  pose proof H0 as Hlen. unfold after_turns in Hlen. rewrite Hd in Hlen.
  apply history_length in Hlen.
  apply robust_iteration_inv in Hit as (grid & Hg & Hr & Hh & _).
  exists grid. split; [exact Hg|]. split; [|split].
  - intros tr0. rewrite scan_run. cbn. now rewrite Hr.
  - rewrite Hh, nth_error_app2, Hlen, Nat.sub_diag by lia. reflexivity.
  - rewrite Hr. apply scan_below_record, Hs.
Qed.

Lemma record_carried_over_witness :
  let y := [1; 2; 3; 100; 5; 6; 7; 8; 9; 10] in
  exists d_eigs st st',
    eigenvalues (R := Stand_in.runtime) (length y) = Ok d_eigs /\
    fst (after_turns (R := Stand_in.runtime) y (-9999) [0; 1; 2; 3] true 1) = Ok st /\
    fst (after_turns (R := Stand_in.runtime) y (-9999) [0; 1; 2; 3] true 2) = Ok st' /\
    record (loop_init (length y)) = Best (1e15, 0) None /\
    exists grid,
      Vectorized.smoothing_of (R := Stand_in.runtime) [0; 1; 2; 3] 1 (robust_gcv st) = Ok grid /\
      (forall tr,
          fst (foldM (Vectorized.gcv_candidate (R := Stand_in.runtime) y
                        (w_temp_of y (-9999) st) d_eigs) grid (record st) tr)
          = Ok (record st')) /\
      nth_error (robust_gcv st') 1 = Some (gcv_temp (record st')) /\
      (fst (gcv_temp (record st')) <=? fst (gcv_temp (record st))) = true.
Proof.
  intros y.
  destruct (eigenvalues (R := Stand_in.runtime) (length y)) as [d_eigs|] eqn:Hd;
    [|vm_compute in Hd; discriminate].
  destruct (fst (after_turns (R := Stand_in.runtime) y (-9999) [0; 1; 2; 3] true 1))
    as [st|] eqn:H1; [|vm_compute in H1; discriminate].
  destruct (fst (after_turns (R := Stand_in.runtime) y (-9999) [0; 1; 2; 3] true 2))
    as [st'|] eqn:H2; [|vm_compute in H2; discriminate].
  exists d_eigs, st, st'.
  split; [reflexivity|]. split; [reflexivity|]. split; [reflexivity|].
  exact (record_carried_over (R := Stand_in.runtime) y (-9999) [0; 1; 2; 3] true 1 st st' d_eigs
                             Hd H1 H2).
Defined.

(** C3, as stated, fails on the series [1, 2, 3, 100, 5, ..., 10] with the grid
    [10**0 .. 10**3] and [robust]: every candidate of the second turn scores
    above 1100, and the record that turn appends is the one of the first turn,
    with its score below 1100. *)
Lemma record_not_reset :
  ~ record_reset_each_turn (R := Stand_in.runtime)
      [1; 2; 3; 100; 5; 6; 7; 8; 9; 10] (-9999) [0; 1; 2; 3] true.
Proof.
  set (y := [1; 2; 3; 100; 5; 6; 7; 8; 9; 10]).
  intros H.
  destruct (eigenvalues (R := Stand_in.runtime) (length y)) as [d_eigs|] eqn:Hd;
    [|vm_compute in Hd; discriminate].
  destruct (fst (after_turns (R := Stand_in.runtime) y (-9999) [0; 1; 2; 3] true 1))
    as [st|] eqn:H1; [|vm_compute in H1; discriminate].
  destruct (fst (after_turns (R := Stand_in.runtime) y (-9999) [0; 1; 2; 3] true 2))
    as [st'|] eqn:H2; [|vm_compute in H2; discriminate].
  destruct (H 1%nat st st' d_eigs Hd H1 H2) as (grid & Hg & Hscan).
  specialize (Hscan []).
  vm_compute in Hd. injection Hd as <-.
  vm_compute in H1. injection H1 as <-.
  vm_compute in H2. injection H2 as <-.
  vm_compute in Hg. injection Hg as <-.
  apply (f_equal (fun r => match r with
                           | Ok b => fst (gcv_temp b) <? 1100
                           | Raise _ => false
                           end)) in Hscan.
  vm_compute in Hscan. discriminate.
Qed.

(** C4, as amended: the scan of a turn starts from the record the turns
    before have left, so there are two cases at its end.  Either no
    candidate scores strictly below that record: then score, penalty and
    curve stay as they were, the selected penalty is not one this call has
    chosen, and its score in this call may lie above that of another
    candidate.  Or the record is replaced: then the selected penalty is a
    candidate of the grid, recorded with the score this call gives it and
    with its curve; that score is strictly below the record the scan started
    from, no candidate of the scan scores strictly below it, it is at most
    the score of every candidate whose score is a number, and every candidate
    earlier in the grid scores strictly above it or NaN, so that of equal
    smallest scores the first seen is selected.  In both cases the recorded
    score is at most the score of every candidate whose score is a number,
    and a candidate whose score is NaN never replaces the record.  The
    comparison is strict: a candidate that ties with the record leaves the
    record, its penalty and its curve as they are. *)
Theorem selected_score_minimal {R : Runtime} (y : array) (nodata : float) (llas : array)
        (robust : bool) (it : nat) (st st' : loop_state) (d_eigs grid : array) :
  eigenvalues (length y) = Ok d_eigs ->
  fst (after_turns y nodata llas robust it) = Ok st ->
  fst (after_turns y nodata llas robust (S it)) = Ok st' ->
  Vectorized.smoothing_of llas it (robust_gcv st) = Ok grid ->
  ((record st' = record st /\
    forall c, In c grid ->
              (score_in y nodata d_eigs st c <? fst (gcv_temp (record st))) = false) \/
   (exists pre c post,
       grid = pre ++ c :: post /\
       record st' = Best (score_in y nodata d_eigs st c, c)
                         (Some (ws2d y c (w_temp_of y nodata st))) /\
       (score_in y nodata d_eigs st c <? fst (gcv_temp (record st))) = true /\
       (forall c', In c' pre ->
                   (score_in y nodata d_eigs st c' <=? score_in y nodata d_eigs st c) = false) /\
       (forall c', In c' grid ->
                   (score_in y nodata d_eigs st c' <? score_in y nodata d_eigs st c) = false /\
                   (is_nan (score_in y nodata d_eigs st c') = false ->
                    (score_in y nodata d_eigs st c <=? score_in y nodata d_eigs st c') = true)))) /\
  (forall c, In c grid ->
     (is_nan (score_in y nodata d_eigs st c) = false ->
      (fst (gcv_temp (record st')) <=? score_in y nodata d_eigs st c) = true) /\
     (score_in y nodata d_eigs st c <? fst (gcv_temp (record st'))) = false) /\
  (forall b c tr,
      (score_in y nodata d_eigs st c =? fst (gcv_temp b)) = true ->
      fst (Vectorized.gcv_candidate y (w_temp_of y nodata st) d_eigs b c tr) = Ok b).
Proof.
  intros Hd Hst Hst' Hgrid.
  apply after_turns_S in Hst' as (d & st0 & tr & tr' & Hd' & H0 & _ & Hit & Hs & _).
  rewrite Hd in Hd'. injection Hd' as <-.
  rewrite H0 in Hst. cbn in Hst. injection Hst as ->.
  apply robust_iteration_inv in Hit as (grid' & Hg & Hr & _).
  rewrite Hgrid in Hg. injection Hg as <-.
  assert (forall c, In c grid ->
            (is_nan (score_in y nodata d_eigs st c) = false ->
             (fst (gcv_temp (record st')) <=? score_in y nodata d_eigs st c) = true) /\
            (score_in y nodata d_eigs st c <? fst (gcv_temp (record st'))) = false) as Hmin.
  { intros c Hc.
    assert (is_nan (score_in y nodata d_eigs st c) = false ->
            (fst (gcv_temp (record st')) <=? score_in y nodata d_eigs st c) = true) as Hle.
    { intros Hnan. rewrite Hr. apply scan_below_candidates; auto. apply Hs. }
    split; [exact Hle|].
    destruct (is_nan (score_in y nodata d_eigs st c)) eqn:Hnan.
    + destruct (_ <? _) eqn:E; [|reflexivity].
      apply Float_facts.ltb_not_nan in E. destruct E as [E _]. congruence.
    + apply Float_facts.leb_not_ltb. now apply Hle. }
  split; [|split; [exact Hmin|]].
  - destruct (scan_first_minimum y (w_temp_of y nodata st) d_eigs grid (record st))
      as [[Hk Hall] | (pre & c & post & Hsplit & Hf & Hlt & Hpre & Hpost)].
    + left. split; [now rewrite Hr | exact Hall].
    + right. exists pre, c, post.
      assert (record st' = Best (score_in y nodata d_eigs st c, c)
                                (Some (ws2d y c (w_temp_of y nodata st)))) as Hrec
          by (now rewrite Hr).
      repeat split; auto.
      * destruct (Hmin c' H) as [_ Hc']. rewrite Hrec in Hc'. exact Hc'.
      * intros Hnan. destruct (Hmin c' H) as [Hc' _]. rewrite Hrec in Hc'. now apply Hc'.
  - intros b c tr0 Htie. rewrite gcv_candidate_run. cbn. unfold challenge.
    fold (w_temp_of y nodata st). fold (score_in y nodata d_eigs st c).
    now rewrite (Float_facts.eqb_not_ltb _ _ Htie).
Qed.

Lemma selected_score_minimal_witness :
  let y := [1; 2; 3; 100; 5; 6; 7; 8; 9; 10] in
  exists d_eigs st st',
    eigenvalues (R := Stand_in.runtime) (length y) = Ok d_eigs /\
    fst (after_turns (R := Stand_in.runtime) y (-9999) [0; 1; 2; 3] false 0) = Ok st /\
    fst (after_turns (R := Stand_in.runtime) y (-9999) [0; 1; 2; 3] false 1) = Ok st' /\
    Vectorized.smoothing_of (R := Stand_in.runtime) [0; 1; 2; 3] 0 (robust_gcv st)
    = Ok [1; 10; 100; 1000] /\
    In 10 [1; 10; 100; 1000] /\
    is_nan (score_in (R := Stand_in.runtime) y (-9999) d_eigs st 10) = false /\
    (fst (gcv_temp (record st')) <=? score_in (R := Stand_in.runtime) y (-9999) d_eigs st 10)
    = true.
Proof.
  intros y.
  destruct (eigenvalues (R := Stand_in.runtime) (length y)) as [d_eigs|] eqn:Hd;
    [|vm_compute in Hd; discriminate].
  destruct (fst (after_turns (R := Stand_in.runtime) y (-9999) [0; 1; 2; 3] false 0))
    as [st|] eqn:H0; [|vm_compute in H0; discriminate].
  destruct (fst (after_turns (R := Stand_in.runtime) y (-9999) [0; 1; 2; 3] false 1))
    as [st'|] eqn:H1; [|vm_compute in H1; discriminate].
  assert (Hg : Vectorized.smoothing_of (R := Stand_in.runtime) [0; 1; 2; 3] 0 (robust_gcv st)
               = Ok [1; 10; 100; 1000]) by (vm_compute; reflexivity).
  assert (Hin : In 10 [1; 10; 100; 1000]) by (right; left; reflexivity).
  assert (Hnan : is_nan (score_in (R := Stand_in.runtime) y (-9999) d_eigs st 10) = false).
  { vm_compute in Hd, H0. injection Hd as <-. injection H0 as <-. vm_compute. reflexivity. }
  exists d_eigs, st, st'. repeat (split; [solve [reflexivity | assumption]|]).
  exact (proj1 (proj1 (proj2 (selected_score_minimal (R := Stand_in.runtime) y (-9999)
                                [0; 1; 2; 3] false 0 st st' d_eigs _ Hd H0 H1 Hg))
                      10 Hin) Hnan).
Defined.

(** C4, as stated, fails on the series [50, 98, 83, 48, 41, 48, 1, 24, 50, 44]
    with the grid [10**0 .. 10**3] and [robust], in the second turn: no
    candidate scores below the record [(532.58..., 1)] of the first turn, so
    the penalty 1 stays selected, and with the weights of the second turn the
    penalty 1 scores [557.05...], above the [546.31...] of the candidate
    1000. *)
Lemma selected_not_below_candidate :
  ~ selected_below_every_candidate (R := Stand_in.runtime)
      [50; 98; 83; 48; 41; 48; 1; 24; 50; 44] (-9999) [0; 1; 2; 3] true.
Proof.
  set (y := [50; 98; 83; 48; 41; 48; 1; 24; 50; 44]).
  intros H.
  destruct (eigenvalues (R := Stand_in.runtime) (length y)) as [d_eigs|] eqn:Hd;
    [|vm_compute in Hd; discriminate].
  destruct (fst (after_turns (R := Stand_in.runtime) y (-9999) [0; 1; 2; 3] true 1))
    as [st|] eqn:H1; [|vm_compute in H1; discriminate].
  destruct (fst (after_turns (R := Stand_in.runtime) y (-9999) [0; 1; 2; 3] true 2))
    as [st'|] eqn:H2; [|vm_compute in H2; discriminate].
  assert (Hg : Vectorized.smoothing_of (R := Stand_in.runtime) [0; 1; 2; 3] 1 (robust_gcv st)
               = Ok [1; 10; 100; 1000]) by (vm_compute; reflexivity).
  assert (Hin : In 1000 [1; 10; 100; 1000]) by (do 3 right; left; reflexivity).
  specialize (H 1%nat st st' d_eigs [1; 10; 100; 1000] Hd H1 H2 Hg 1000 Hin).
  vm_compute in Hd, H1, H2. injection Hd as <-. injection H1 as <-. injection H2 as <-.
  vm_compute in H. discriminate.
Qed.

(** The same run, as the amended statement has it: the second turn leaves
    the record of the first. *)
Lemma selected_carried_over :
  let y := [50; 98; 83; 48; 41; 48; 1; 24; 50; 44] in
  match fst (after_turns (R := Stand_in.runtime) y (-9999) [0; 1; 2; 3] true 1),
        fst (after_turns (R := Stand_in.runtime) y (-9999) [0; 1; 2; 3] true 2) with
  | Ok st, Ok st' => gcv_temp (record st') = gcv_temp (record st) /\ snd (gcv_temp (record st')) = 1
  | _, _ => False
  end.
Proof. vm_compute. split; reflexivity. Qed.

(** With a NaN sample the score of every candidate is NaN and the record
    stays [[1e15, 0]]: no candidate is selected, and nothing is at most
    NaN. *)
Lemma selected_not_below_nan_candidate :
  ~ selected_below_every_candidate (R := Stand_in.runtime)
      [1; 2; 3; 4; 5; 6; nan] (-9999) [0; 1] false.
Proof.
  set (y := [1; 2; 3; 4; 5; 6; nan]).
  intros H.
  destruct (eigenvalues (R := Stand_in.runtime) (length y)) as [d_eigs|] eqn:Hd;
    [|vm_compute in Hd; discriminate].
  destruct (fst (after_turns (R := Stand_in.runtime) y (-9999) [0; 1] false 0))
    as [st|] eqn:H0; [|vm_compute in H0; discriminate].
  destruct (fst (after_turns (R := Stand_in.runtime) y (-9999) [0; 1] false 1))
    as [st'|] eqn:H1; [|vm_compute in H1; discriminate].
  assert (Hg : Vectorized.smoothing_of (R := Stand_in.runtime) [0; 1] 0 (robust_gcv st)
               = Ok [1; 10]) by (vm_compute; reflexivity).
  specialize (H 0%nat st st' d_eigs [1; 10] Hd H0 H1 Hg 1 (or_introl eq_refl)).
  vm_compute in Hd, H0, H1. injection Hd as <-. injection H0 as <-. injection H1 as <-.
  vm_compute in H. discriminate.
Qed.

(** * The grid of a turn *)

(** C5, as amended: the calls of the smoother in a turn are one per candidate
    of its grid, in order, all with the weights of the turn.  The first two
    turns (indices 0 and 1) scan the full grid, 10 raised to each supplied
    exponent.  A later turn scans the single penalty recorded by the second
    turn, unless that penalty compares equal to 0: then it scans the full
    grid again. *)
Theorem turn_grid {R : Runtime} (y : array) (nodata : float) (llas : array) (robust : bool)
        (it : nat) (st st' : loop_state) (tr tr' : list call) :
  after_turns y nodata llas robust it = (Ok st, tr) ->
  after_turns y nodata llas robust (S it) = (Ok st', tr') ->
  exists grid,
    Vectorized.smoothing_of llas it (robust_gcv st) = Ok grid /\
    tr' = tr ++ map (fun lmda => (lmda, w_temp_of y nodata st)) grid /\
    ((it <= 1)%nat -> grid = full_grid llas) /\
    ((1 < it)%nat ->
     exists g, nth_error (robust_gcv st) 1 = Some g /\
               grid = if snd g =? 0 then full_grid llas else [snd g]).
Proof.
  intros H0 H1.
  assert (fst (after_turns y nodata llas robust (S it)) = Ok st') as HS by now rewrite H1.
  apply after_turns_S in HS as (d & st0 & tr0 & tr1 & Hd & H0' & H1' & Hit & _).
  rewrite H0 in H0'. injection H0' as <- <-.
  rewrite H1 in H1'. injection H1' as <-.
  apply robust_iteration_inv in Hit as (grid & Hg & _ & _ & Htr & _).
  exists grid. split; [exact Hg|]. split; [exact Htr|].
  unfold Vectorized.smoothing_of in Hg. split.
  - intros Hit. replace (1 <? it)%nat with false in Hg by (symmetry; apply Nat.ltb_ge; lia).
    replace (0 =? 0) with true in Hg by (vm_compute; reflexivity).
    now injection Hg as <-.
  - intros Hit. replace (1 <? it)%nat with true in Hg by (symmetry; apply Nat.ltb_lt; lia).
    destruct (nth_error (robust_gcv st) 1) as [g|]; [|discriminate].
    exists g. split; [reflexivity|]. now injection Hg as <-.
Qed.

Lemma turn_grid_witness :
  let y := [5; 3; 8; 1; 9; 2; 7; 4; 6; 5] in
  exists st st' tr tr',
    after_turns (R := Stand_in.runtime) y (-9999) [0; 1] true 2 = (Ok st, tr) /\
    after_turns (R := Stand_in.runtime) y (-9999) [0; 1] true 3 = (Ok st', tr') /\
    exists grid,
      Vectorized.smoothing_of (R := Stand_in.runtime) [0; 1] 2 (robust_gcv st) = Ok grid /\
      tr' = tr ++ map (fun lmda => (lmda, w_temp_of y (-9999) st)) grid /\
      ((2 <= 1)%nat -> grid = full_grid (R := Stand_in.runtime) [0; 1]) /\
      ((1 < 2)%nat ->
       exists g, nth_error (robust_gcv st) 1 = Some g /\
                 grid = if snd g =? 0 then full_grid (R := Stand_in.runtime) [0; 1]
                        else [snd g]).
Proof.
  intros y.
  destruct (after_turns (R := Stand_in.runtime) y (-9999) [0; 1] true 2) as [[st|] tr] eqn:H2;
    [|vm_compute in H2; discriminate].
  destruct (after_turns (R := Stand_in.runtime) y (-9999) [0; 1] true 3) as [[st'|] tr'] eqn:H3;
    [|vm_compute in H3; discriminate].
  exists st, st', tr, tr'. split; [reflexivity|]. split; [reflexivity|].
  exact (turn_grid (R := Stand_in.runtime) y (-9999) [0; 1] true 2 st st' tr tr' H2 H3).
Defined.

(** C5, as stated, fails when the second turn records the penalty 0: with the
    exponents [-400] (where [10**-400] is [0.0]) and [1], the second turn of
    this run selects the penalty 0, and the third turn scans both candidates
    of the grid. *)
Lemma third_turn_scans_full_grid :
  ~ later_turns_scan_one_penalty (R := Stand_in.runtime)
      [5; 3; 8; 1; 9; 2; 7; 4; 6; 5] (-9999) [-400; 1] true.
Proof.
  set (y := [5; 3; 8; 1; 9; 2; 7; 4; 6; 5]).
  intros H.
  destruct (fst (after_turns (R := Stand_in.runtime) y (-9999) [-400; 1] true 2))
    as [st|] eqn:H2; [|vm_compute in H2; discriminate].
  destruct (H 2%nat st H2) as [Hlate _].
  destruct Hlate as (g & _ & Hg); [lia|].
  vm_compute in H2. injection H2 as <-.
  apply (f_equal (fun r => match r with Ok l => length l | Raise _ => 0%nat end)) in Hg.
  vm_compute in Hg. discriminate.
Qed.

(** * The robustness weights *)

(** C8: after every update of the robustness weights (a turn of the robust
    loop with [robust] set), a sample whose residual, [y] minus the fitted
    curve of the record, is strictly positive has the robustness weight 1,
    whatever its standardized residual. *)
Theorem positive_residual_weight_one {R : Runtime} (y : array) (nodata : float)
        (llas : array) (it : nat) (st : loop_state) (fitted : array) (j : nat) (r : float) :
  fst (after_turns y nodata llas true (S it)) = Ok st ->
  tempNDVI_arr (record st) = Some fitted ->
  nth_error (map2 sub y fitted) j = Some r ->
  (0 <? r) = true ->
  nth_error (r_weights st) j = Some 1.
Proof.
  intros Hst Hf Hr Hpos.
  apply after_turns_S in Hst as (d & st0 & tr & tr' & _ & _ & _ & Hit & _).
  apply robust_iteration_inv in Hit as (grid & _ & _ & _ & _ & _ & fitted' & Hf' & ->).
  rewrite Hf in Hf'. injection Hf' as <-.
  now apply tukey_update_positive with (r := r).
Qed.

Lemma positive_residual_weight_one_witness :
  let y := [1; 2; 3; 100; 5; 6; 7; 8; 9; 10] in
  exists st fitted r,
    fst (after_turns (R := Stand_in.runtime) y (-9999) [0; 1; 2; 3] true 1) = Ok st /\
    tempNDVI_arr (record st) = Some fitted /\
    nth_error (map2 sub y fitted) 3 = Some r /\
    (0 <? r) = true /\
    nth_error (r_weights st) 3 = Some 1.
Proof.
  intros y.
  destruct (fst (after_turns (R := Stand_in.runtime) y (-9999) [0; 1; 2; 3] true 1))
    as [st|] eqn:H1; [|vm_compute in H1; discriminate].
  destruct (tempNDVI_arr (record st)) as [fitted|] eqn:Hf;
    [|vm_compute in H1; injection H1 as <-; discriminate].
  destruct (nth_error (map2 sub y fitted) 3) as [r|] eqn:Hr;
    [|vm_compute in H1; injection H1 as <-; injection Hf as <-; discriminate].
  assert (Hpos : (0 <? r) = true).
  { vm_compute in H1. injection H1 as <-. injection Hf as <-.
    vm_compute in Hr. injection Hr as <-. vm_compute. reflexivity. }
  exists st, fitted, r. repeat (split; [reflexivity || assumption|]).
  exact (positive_residual_weight_one (R := Stand_in.runtime) y (-9999) [0; 1; 2; 3] 0 st
                                      fitted 3 r H1 Hf Hr Hpos).
Defined.

(** C7, as amended: the robustness weights are not masked by the validity
    weights.  They start at 1 for every sample and an update sets them from
    the residuals alone, so that an invalid sample with a positive residual
    gets the weight 1.  What is kept at 0 for an invalid sample is the product
    [robust_weights = w * r_weights] computed after every update: its entry
    there is [0 * r_weights[j]], which compares equal to 0 whenever the
    robustness weight is a finite number, and is NaN otherwise. *)
Theorem r_weights_not_masked {R : Runtime} (y : array) (nodata : float) (llas : array)
        (it : nat) (st : loop_state) :
  fst (after_turns y nodata llas true (S it)) = Ok st ->
  exists product,
    robust_weights st = Some product /\
    at_invalid zero_or_nan nodata y product /\
    (forall j x rw,
        nth_error y j = Some x -> invalid nodata x = true ->
        nth_error (r_weights st) j = Some rw ->
        nth_error product j = Some (0 * rw) /\
        (is_nan rw = false -> is_infinity rw = false -> (0 * rw =? 0) = true)) /\
    (forall fitted j x r,
        nth_error y j = Some x -> invalid nodata x = true ->
        tempNDVI_arr (record st) = Some fitted ->
        nth_error (map2 sub y fitted) j = Some r -> (0 <? r) = true ->
        nth_error (r_weights st) j = Some 1).
Proof.
  intros Hst. pose proof Hst as Hst0.
  apply after_turns_S in Hst as (d & st0 & tr & tr' & _ & _ & _ & Hit & _ & _ & Hlen).
  apply robust_iteration_inv in Hit as (grid & _ & _ & _ & _ & Hprod & fitted' & Hf' & Hupd).
  exists (map2 mul (validity y nodata) (r_weights st)). split; [exact Hprod|].
  assert (Hnth : forall j x rw,
             nth_error y j = Some x -> invalid nodata x = true ->
             nth_error (r_weights st) j = Some rw ->
             nth_error (map2 mul (validity y nodata) (r_weights st)) j = Some (0 * rw)).
  { intros j x rw Hx Hinv Hrw.
    rewrite nth_error_map2, (validity_nth nodata y j x Hx), Hinv, Hrw. reflexivity. }
  split; [|split].
  - split.
    + rewrite map2_length. unfold validity. rewrite init_weights_length. lia.
    + intros j x v Hx Hinv Hv.
      destruct (nth_error (r_weights st) j) as [rw|] eqn:Hrw.
      * rewrite (Hnth j x rw Hx Hinv Hrw) in Hv. injection Hv as <-.
        apply Float_facts.zero_mul.
      * rewrite nth_error_map2, Hrw in Hv. destruct (nth_error (validity y nodata) j);
          discriminate.
  - intros j x rw Hx Hinv Hrw. split; [now apply Hnth with (x := x)|].
    apply Float_facts.zero_mul_finite.
  - intros fitted j x r _ _ Hf Hr Hpos.
    rewrite Hf in Hf'. injection Hf' as <-. rewrite Hupd.
    now apply tukey_update_positive with (r := r).
Qed.

Lemma r_weights_not_masked_witness :
  let y := [1; 2; 3; 4; 5; 6; 9999] in
  exists st,
    fst (after_turns (R := Stand_in.runtime) y 9999 [0; 1] true 1) = Ok st /\
    exists product,
      robust_weights st = Some product /\
      at_invalid zero_or_nan 9999 y product /\
      (forall j x rw,
          nth_error y j = Some x -> invalid 9999 x = true ->
          nth_error (r_weights st) j = Some rw ->
          nth_error product j = Some (0 * rw) /\
          (is_nan rw = false -> is_infinity rw = false -> (0 * rw =? 0) = true)) /\
      (forall fitted j x r,
          nth_error y j = Some x -> invalid 9999 x = true ->
          tempNDVI_arr (record st) = Some fitted ->
          nth_error (map2 sub y fitted) j = Some r -> (0 <? r) = true ->
          nth_error (r_weights st) j = Some 1).
Proof.
  intros y.
  destruct (fst (after_turns (R := Stand_in.runtime) y 9999 [0; 1] true 1))
    as [st|] eqn:H1; [|vm_compute in H1; discriminate].
  exists st. split; [reflexivity|].
  exact (r_weights_not_masked (R := Stand_in.runtime) y 9999 [0; 1] 0 st H1).
Defined.

(** C7, as stated, fails when the nodata value lies above the curve: in the
    series [1, ..., 6, 9999] with the nodata value 9999 the last sample is
    invalid, its residual is positive, and the first update gives it the
    robustness weight 1. *)
Lemma invalid_sample_gets_weight_one :
  ~ r_weights_zero_at_invalid (R := Stand_in.runtime) [1; 2; 3; 4; 5; 6; 9999] 9999 [0; 1] true.
Proof.
  set (y := [1; 2; 3; 4; 5; 6; 9999]).
  intros H.
  destruct (fst (after_turns (R := Stand_in.runtime) y 9999 [0; 1] true 1))
    as [st|] eqn:H1; [|vm_compute in H1; discriminate].
  destruct (H eq_refl 0%nat st H1) as [_ Hzero].
  vm_compute in H1. injection H1 as <-.
  specialize (Hzero 6%nat 9999 1 eq_refl eq_refl eq_refl).
  vm_compute in Hzero. discriminate.
Qed.

(** * The weights the smoother receives *)

Section Logs.
Context {A B : Type} (P : call -> Prop).

Lemma logs_ret (a : A) (Q : A -> Prop) : Q a -> logs (ret a) P Q.
Proof.
  intros Ha tr. exists []. cbn. rewrite app_nil_r. repeat split; auto.
  now intros a' [= <-].
Qed.

Lemma logs_raise (e : exn) (Q : A -> Prop) : logs (raise e) P Q.
Proof.
  intros tr. exists []. cbn. rewrite app_nil_r. repeat split; auto. discriminate.
Qed.

Lemma logs_bind (m : Smooth A) (k : A -> Smooth B) (Q : A -> Prop) (Q' : B -> Prop) :
  logs m P Q -> (forall a, Q a -> logs (k a) P Q') -> logs (bind m k) P Q'.
Proof.
  intros Hm Hk tr. destruct (Hm tr) as (new & Hs & Hf & Hq). unfold bind.
  destruct (m tr) as [[a|e] tr1]; cbn in *; subst tr1.
  - destruct (Hk a (Hq a eq_refl) (tr ++ new)) as (new' & Hs' & Hf' & Hq').
    exists (new ++ new'). rewrite Hs', app_assoc. repeat split; auto.
    apply Forall_app; auto.
  - exists new. cbn. repeat split; auto. discriminate.
Qed.

End Logs.

Lemma logs_foldM {A B} (P : call -> Prop) (f : A -> B -> Smooth A) (l : list B) (a : A)
      (I : A -> Prop) :
  (forall a b, I a -> logs (f a b) P I) -> I a -> logs (foldM f l a) P I.
Proof.
  intros Hf. revert a; induction l as [|b l IH]; intros a Ha; cbn.
  - now apply logs_ret.
  - eapply logs_bind; [apply Hf, Ha | exact IH].
Qed.

(** [logs] reads a computation through its results only, and its
    postcondition can be weakened. *)
Lemma logs_ext {A} (P : call -> Prop) (m m' : Smooth A) (Q : A -> Prop) :
  (forall tr, m' tr = m tr) -> logs m P Q -> logs m' P Q.
Proof.
  intros Heq H tr. destruct (H tr) as (new & H1 & H2 & H3).
  exists new. rewrite Heq. auto.
Qed.

Lemma logs_post {A} (P : call -> Prop) (m : Smooth A) (Q Q' : A -> Prop) :
  (forall a, Q a -> Q' a) -> logs m P Q -> logs m P Q'.
Proof.
  intros HQ H tr. destruct (H tr) as (new & H1 & H2 & H3).
  exists new. auto.
Qed.

Lemma logs_call {R : Runtime} (P : call -> Prop) (Q : array -> Prop) (y : array)
      (lmda : float) (w : array) :
  P (lmda, w) -> Q (ws2d y lmda w) -> logs (call_ws2d y lmda w) P Q.
Proof.
  intros Hp Hq tr. exists [(lmda, w)]. cbn. repeat split; auto.
  now intros a [= <-].
Qed.

Section Fitting_weights.
Context {R : Runtime}.
Variables (y : array) (nodata p : float) (llas : array) (robust : bool).

(** [P] is what is to hold of a fitting weight at an invalid sample and [Q] of
    a robustness weight there. *)
Variables P Q : float -> Prop.
Hypothesis P_zero : P 0.
Hypothesis P_product : forall r, Q r -> P (0 * r).
Hypothesis P_above : forall v, P v -> P (v * p).
Hypothesis P_below : forall v, P v -> P (v * (1 - p)).
Hypothesis Q_one : Q 1.
Hypothesis Q_update : robust = true -> forall r, Q r.

Let good (c : call) : Prop := at_invalid P nodata y (snd c).

Let sound (st : loop_state) : Prop :=
  sound_record y (record st) /\
  at_invalid Q nodata y (r_weights st) /\
  forall rw, robust_weights st = Some rw -> at_invalid P nodata y rw.

Lemma product_at_invalid (rw : array) :
  at_invalid Q nodata y rw -> at_invalid P nodata y (map2 mul (validity y nodata) rw).
Proof.
  intros [Hlen Hq]. split.
  - rewrite map2_length. unfold validity. rewrite init_weights_length. lia.
  - intros j x v Hx Hinv. rewrite nth_error_map2, (validity_nth nodata y j x Hx), Hinv.
    destruct (nth_error rw j) as [r|] eqn:Hr; [|discriminate].
    intros [= <-]. eapply P_product, Hq; eauto.
Qed.

Lemma scan_logs (w_temp d_eigs grid : array) (b : best) :
  at_invalid P nodata y w_temp ->
  logs (foldM (Vectorized.gcv_candidate y w_temp d_eigs) grid b) good
       (fun b' => b' = fold_left (challenge y w_temp d_eigs) grid b).
Proof.
  intros Hw tr. exists (map (fun lmda => (lmda, w_temp)) grid).
  rewrite scan_run. cbn. repeat split.
  - apply Forall_forall. intros c Hc. apply in_map_iff in Hc as (lmda & <- & _). exact Hw.
  - now intros b' [= <-].
Qed.

Lemma robust_iteration_logs (d_eigs : array) (n : Z) (st : loop_state) (it : nat) :
  sound st ->
  logs (Vectorized.robust_iteration y llas robust (validity y nodata) d_eigs n st it) good
       (fun st' => sound st' /\ robust_weights st' <> None).
Proof.
  intros (Hrec & Hq & _). unfold Vectorized.robust_iteration.
  destruct (Vectorized.smoothing_of llas it (robust_gcv st)) as [grid|e];
    [|apply logs_raise].
  eapply logs_bind; [apply scan_logs, product_at_invalid, Hq|].
  intros b ->.
  set (b := fold_left _ grid (record st)).
  assert (sound_record y b) as Hb by now apply scan_sound.
  eapply logs_bind with (Q := at_invalid Q nodata y).
  - destruct robust eqn:Hrob; [|now apply logs_ret].
    destruct (tempNDVI_arr b) as [fitted|] eqn:Hf; [|apply logs_raise].
    apply logs_ret. split.
    + apply tukey_update_length. now apply Hb.
    + intros. now apply Q_update.
  - intros rw' Hrw'. apply logs_ret. unfold sound. cbn.
    split; [|discriminate].
    split; [exact Hb|]. split; [exact Hrw'|].
    intros rw [= <-]. apply product_at_invalid, Hrw'.
Qed.

Lemma robust_loop_logs (d_eigs : array) (n : Z) (its : nat) :
  logs (Vectorized.robust_loop y llas robust (validity y nodata) d_eigs n its) good
       (fun st => sound st /\ (its <> 0%nat -> robust_weights st <> None)).
Proof.
  induction its as [|its IH].
  - apply logs_ret. split; [|congruence].
    repeat split; cbn; try discriminate.
    + apply repeat_length.
    + intros j x r _ _ Hr. apply nth_error_In, repeat_spec in Hr. now subst r.
  - apply logs_ext
      with (m := st <- Vectorized.robust_loop y llas robust (validity y nodata) d_eigs n its ;;
                 Vectorized.robust_iteration y llas robust (validity y nodata) d_eigs n st its).
    + intros tr. rewrite robust_loop_S. reflexivity.
    + eapply logs_bind; [apply IH|].
      intros st [Hst _]. eapply logs_post; [|now apply robust_iteration_logs].
      intros st' [Hs Hw]. split; [exact Hs | intros _; exact Hw].
Qed.

Lemma envelope_weights_at_invalid (rw zs : array) :
  at_invalid P nodata y rw -> length zs = length y ->
  at_invalid P nodata y (envelope_weights p y zs rw).
Proof.
  intros [Hlen Hp] Hz. split; [now apply envelope_weights_length|].
  intros j x v Hx Hinv Hv.
  apply envelope_weights_nth in Hv as (r & wa & Hr & -> & [-> | ->]);
    [apply P_above | apply P_below]; eapply Hp; eauto.
Qed.

Lemma envelope_loop_logs (k : nat) (rw : array) (lopt : float) (st : envelope_state) :
  at_invalid P nodata y rw -> length (z st) = length y -> at_invalid P nodata y (ww st) ->
  logs (Vectorized.envelope_loop y p k rw lopt st) good
       (fun e => at_invalid P nodata y (ww e)).
Proof.
  intros Hrw. revert st; induction k as [|k IH]; intros st Hz Hww; cbn.
  - now apply logs_ret.
  - assert (at_invalid P nodata y (envelope_weights p y (z st) rw)) as Hnew
        by now apply envelope_weights_at_invalid.
    eapply logs_bind with (Q := fun znew => length znew = length y).
    + apply logs_call; [exact Hnew | apply ws2d_shape].
    + intros znew Hlen. destruct (_ =? _); [now apply logs_ret|].
      now apply IH.
Qed.

Lemma optimize_logs (d_eigs : array) (n : Z) :
  logs (Vectorized.optimize y p llas robust (validity y nodata) d_eigs n) good (fun _ => True).
Proof.
  unfold Vectorized.optimize.
  eapply logs_bind; [apply robust_loop_logs|].
  intros st ((_ & _ & Hrw) & Hsome).
  destruct (Vectorized.select_lopt robust (robust_gcv st)) as [lopt|e]; [|apply logs_raise].
  destruct (robust_weights st) as [rw|];
    [|exfalso; apply Hsome; [unfold Vectorized.r_its; destruct robust; discriminate
                              | reflexivity]].
  specialize (Hrw rw eq_refl). cbn [array_of].
  eapply logs_bind.
  - apply envelope_loop_logs; cbn; auto; try apply repeat_length.
    split; [apply repeat_length|].
    intros j x v _ _ Hv. apply nth_error_In, repeat_spec in Hv. now subst v.
  - intros e He. cbn beta in He. eapply logs_bind with (Q := fun _ => True).
    + now apply logs_call.
    + intros. now apply logs_ret.
Qed.

Lemma ws2dwcvp_calls_good : Forall good (Vectorized.ws2dwcvp_calls y nodata p llas robust).
Proof.
  unfold Vectorized.ws2dwcvp_calls, Vectorized.ws2dwcvp_logged.
  pose proof optimize_logs as Hopt. unfold validity in Hopt.
  destruct (Vectorized.init_weights nodata y) as [w n]. cbn [fst] in Hopt.
  destruct (eigenvalues (length y)) as [d_eigs|e]; [|constructor].
  destruct (5 <? n)%Z; [|constructor].
  destruct (Hopt d_eigs n []) as (new & -> & Hnew & _). exact Hnew.
Qed.
End Fitting_weights.

(** C6, as amended: every weight array passed to the smoother, in the scans
    (validity times robustness), in the passes of the envelope loop and in
    the final call (validity times robustness times envelope weight), is as
    long as the series, and its entry at an invalid sample is the validity
    weight 0 multiplied by the other weights: it compares equal to 0 or it is
    NaN (the product of 0 with a robustness weight that is NaN or infinite),
    and never another number.  Without [robust], and for a finite envelope
    parameter, it compares equal to 0. *)
Theorem fitting_weights_at_invalid {R : Runtime} (y : array) (nodata p : float)
        (llas : array) (robust : bool) :
  Forall (fun c : call => at_invalid zero_or_nan nodata y (snd c))
         (Vectorized.ws2dwcvp_calls y nodata p llas robust) /\
  (robust = false -> is_finite p = true -> is_finite (1 - p) = true ->
   Forall (fun c : call => at_invalid (fun v => (v =? 0) = true) nodata y (snd c))
          (Vectorized.ws2dwcvp_calls y nodata p llas robust)).
Proof.
  split.
  - apply ws2dwcvp_calls_good with (Q := fun _ => True); auto.
    + left. reflexivity.
    + intros r _. apply Float_facts.zero_mul.
    + intros v. apply Float_facts.zero_or_nan_mul.
    + intros v. apply Float_facts.zero_or_nan_mul.
  - intros -> Hp Hq.
    unfold is_finite in Hp, Hq.
    apply negb_true_iff, orb_false_iff in Hp as [Hp1 Hp2].
    apply negb_true_iff, orb_false_iff in Hq as [Hq1 Hq2].
    apply ws2dwcvp_calls_good with (Q := fun r => r = 1); auto.
    + intros r ->. reflexivity.
    + intros v Hv. now apply Float_facts.eqb_zero_mul_finite.
    + intros v Hv. now apply Float_facts.eqb_zero_mul_finite.
    + discriminate.
Qed.

Lemma fitting_weights_at_invalid_witness :
  let y := [1; 2; 3; 4; 5; 6; 7; -9999] in
  false = false /\ is_finite 0.9 = true /\ is_finite (1 - 0.9) = true /\
  Forall (fun c : call => at_invalid (fun v => (v =? 0) = true) (-9999) y (snd c))
         (Vectorized.ws2dwcvp_calls (R := Stand_in.runtime) y (-9999) 0.9 [0; 1; 2; 3] false).
Proof.
  intros y. split; [reflexivity|]. split; [reflexivity|]. split; [reflexivity|].
  apply (proj2 (fitting_weights_at_invalid (R := Stand_in.runtime) y (-9999) 0.9
                                           [0; 1; 2; 3] false));
    reflexivity.
Defined.

(** C6, as stated, fails on a flat series with one nodata sample,
    [0, 0, 0, 0, 0, 0, 0, -3000]: the curve of the first turn is 0 everywhere,
    the median absolute deviation is 0 and the first update leaves [0/0], NaN,
    as the robustness weight of every valid sample; in the second update the
    sum of [gamma] is NaN and so is the robustness weight of the invalid
    sample; in the third turn the weight passed for it is [0 * NaN]. *)
Lemma nan_weight_at_invalid_sample :
  ~ weights_zero_at_invalid (R := Stand_in.runtime)
      [0; 0; 0; 0; 0; 0; 0; -3000] (-3000) 0.9 [0; 1; 2; 3] true.
Proof.
  unfold weights_zero_at_invalid. intros H.
  rewrite Forall_forall in H.
  assert (Hin : In (nth 8 (Vectorized.ws2dwcvp_calls (R := Stand_in.runtime)
                        [0; 0; 0; 0; 0; 0; 0; -3000] (-3000) 0.9 [0; 1; 2; 3] true) (0, []))
                   (Vectorized.ws2dwcvp_calls (R := Stand_in.runtime)
                        [0; 0; 0; 0; 0; 0; 0; -3000] (-3000) 0.9 [0; 1; 2; 3] true)).
  { apply nth_In. vm_compute. lia. }
  apply H in Hin. destruct Hin as [_ Hzero].
  assert (Hv : nth_error (snd (nth 8 (Vectorized.ws2dwcvp_calls (R := Stand_in.runtime)
                        [0; 0; 0; 0; 0; 0; 0; -3000] (-3000) 0.9 [0; 1; 2; 3] true) (0, []))) 7
               = Some nan) by (vm_compute; reflexivity).
  assert (Hx : nth_error [0; 0; 0; 0; 0; 0; 0; -3000] 7 = Some (-3000)) by reflexivity.
  assert (Hi : invalid (-3000) (-3000) = true) by (vm_compute; reflexivity).
  pose proof (Hzero 7%nat (-3000) nan Hx Hi Hv) as K.
  assert (Hn : (nan =? 0) = false) by (vm_compute; reflexivity).
  rewrite Hn in K. discriminate.
Qed.

(** * The two entry points *)

Section Variants.
Context {R : Runtime}.
Variables (y : array) (p : float) (llas : array) (robust : bool).

(** Counting the valid samples in floats, as [w.sum()] does, gives the count. *)
Lemma np_sum_validity (nodata : float) :
  (Z.of_nat (length y) < 2 ^ 53)%Z ->
  np_sum (validity y nodata) = Z2f (n_valid y nodata).
Proof.
  unfold np_sum, validity, n_valid.
  change 0 with (Z2f 0) at 1.
  assert (forall (ys : array) (a : Z),
             (0 <= a)%Z -> (a + Z.of_nat (length ys) < 2 ^ 53)%Z ->
             fold_left add (fst (Vectorized.init_weights nodata ys)) (Z2f a)
             = Z2f (a + snd (Vectorized.init_weights nodata ys))) as H.
  { induction ys as [|x ys IH]; intros a Ha Hb; cbn [Vectorized.init_weights].
    - cbn. now rewrite Z.add_0_r.
    - pose proof (n_valid_bounds nodata ys) as Hn. unfold n_valid in Hn.
      cbn [length] in Hb. rewrite Nat2Z.inj_succ in Hb.
      destruct (Vectorized.init_weights nodata ys) as [w n] eqn:E. cbn [fst snd] in *.
      destruct (invalid nodata x); cbn [fst snd fold_left].
      + rewrite Float_facts.Z2f_add_zero by lia. apply IH; lia.
      + rewrite Float_facts.Z2f_succ by lia. rewrite IH by lia. f_equal. lia. }
  intros Hlen. now rewrite H by lia.
Qed.

(** A computation of the scalar variant agrees with one of the kernel when it
    raises [ZeroDivisionError] or does what the kernel does. *)
Lemma py_div_cases (a b : float) :
  py_div a b = Raise ZeroDivisionError \/ py_div a b = Ok (a / b).
Proof. unfold py_div. destruct (b =? 0); auto. Qed.

Lemma scalar_candidate (w_temp d_eigs : array) (b : best) (lmda : float) (tr : list call) :
  fst (Scalar.gcv_candidate y w_temp d_eigs b lmda tr) = Raise ZeroDivisionError \/
  Scalar.gcv_candidate y w_temp d_eigs b lmda tr
  = Vectorized.gcv_candidate y w_temp d_eigs b lmda tr.
Proof.
  unfold Scalar.gcv_candidate, Vectorized.gcv_candidate, bind, call_ws2d, lift.
  destruct (py_div_cases (np_sum (gamma_of w_temp d_eigs lmda)) (np_sum w_temp)) as [-> | ->];
    [now left|].
  match goal with
  | |- context [py_div ?a ?b] => destruct (py_div_cases a b) as [-> | ->]
  end; [now left|].
  right. reflexivity.
Qed.

Lemma scalar_scan (w_temp d_eigs grid : array) (b : best) (tr : list call) :
  fst (Scalar.scan y w_temp d_eigs grid b tr) = Raise ZeroDivisionError \/
  Scalar.scan y w_temp d_eigs grid b tr
  = foldM (Vectorized.gcv_candidate y w_temp d_eigs) grid b tr.
Proof.
  revert b tr; induction grid as [|lmda grid IH]; intros b tr;
    cbn [Scalar.scan foldM]; [now right|].
  unfold bind.
  destruct (scalar_candidate w_temp d_eigs b lmda tr) as [H | ->].
  - left. destruct (Scalar.gcv_candidate y w_temp d_eigs b lmda tr) as [[b'|e] tr'];
      cbn [fst] in H; [discriminate | injection H as ->; reflexivity].
  - destruct (Vectorized.gcv_candidate y w_temp d_eigs b lmda tr) as [[b'|e] tr'];
      [apply IH | now right].
Qed.

(** A turn of the scalar loop, when the float [n] of the one is the count [n]
    of the other. *)
Lemma scalar_iteration (w d_eigs : array) (n : Z) (it : nat) (st : loop_state)
      (tr : list call) :
  fst (Scalar.robust_iteration y w llas robust d_eigs (Z2f n) it st tr)
  = Raise ZeroDivisionError \/
  Scalar.robust_iteration y w llas robust d_eigs (Z2f n) it st tr
  = Vectorized.robust_iteration y llas robust w d_eigs n st it tr.
Proof.
  unfold Scalar.robust_iteration, Vectorized.robust_iteration, Vectorized.smoothing_of, bind.
  assert (nth_error (robust_gcv st) 1
          = match robust_gcv st with _ :: g :: _ => Some g | _ => None end) as ->
      by (destruct (robust_gcv st) as [|g0 [|g l]]; reflexivity).
  assert (forall Sopt : float,
             fst (let (r, tr') :=
                    Scalar.scan y (map2 mul w (r_weights st)) d_eigs
                      (if Sopt =? 0 then map (np_power 10) llas else [Sopt]) (record st) tr in
                  match r with
                  | Ok b =>
                      (if robust
                       then match tempNDVI_arr b with
                            | Some fitted =>
                                x <- lift (py_div (np_sum (gamma_of (map2 mul w (r_weights st))
                                                                    d_eigs (snd (gcv_temp b))))
                                                  (Z2f n)) ;;
                                ret (LoopState (robust_gcv st ++ [gcv_temp b]) b
                                       (tukey_update y (map2 mul w (r_weights st)) d_eigs
                                          (snd (gcv_temp b)) fitted (r_weights st) (Z2f n))
                                       (Some (map2 mul w
                                          (tukey_update y (map2 mul w (r_weights st)) d_eigs
                                             (snd (gcv_temp b)) fitted (r_weights st) (Z2f n)))))
                            | None => raise ValueError
                            end
                       else ret (LoopState (robust_gcv st ++ [gcv_temp b]) b (r_weights st)
                                   (Some (map2 mul w (r_weights st))))) tr'
                  | Raise e => (Raise e, tr')
                  end) = Raise ZeroDivisionError \/
             (let (r, tr') :=
                Scalar.scan y (map2 mul w (r_weights st)) d_eigs
                  (if Sopt =? 0 then map (np_power 10) llas else [Sopt]) (record st) tr in
              match r with
              | Ok b =>
                  (if robust
                   then match tempNDVI_arr b with
                        | Some fitted =>
                            x <- lift (py_div (np_sum (gamma_of (map2 mul w (r_weights st))
                                                                d_eigs (snd (gcv_temp b))))
                                              (Z2f n)) ;;
                            ret (LoopState (robust_gcv st ++ [gcv_temp b]) b
                                   (tukey_update y (map2 mul w (r_weights st)) d_eigs
                                      (snd (gcv_temp b)) fitted (r_weights st) (Z2f n))
                                   (Some (map2 mul w
                                      (tukey_update y (map2 mul w (r_weights st)) d_eigs
                                         (snd (gcv_temp b)) fitted (r_weights st) (Z2f n)))))
                        | None => raise ValueError
                        end
                   else ret (LoopState (robust_gcv st ++ [gcv_temp b]) b (r_weights st)
                               (Some (map2 mul w (r_weights st))))) tr'
              | Raise e => (Raise e, tr')
              end)
             = (let (r, tr') :=
                  foldM (Vectorized.gcv_candidate y (map2 mul w (r_weights st)) d_eigs)
                        (if Sopt =? 0 then map (fun l => np_power 10 l) llas else [Sopt])
                        (record st) tr in
                match r with
                | Ok b =>
                    (let (r0, tr'0) :=
                       (if robust
                        then match tempNDVI_arr b with
                             | Some fitted =>
                                 ret (tukey_update y (map2 mul w (r_weights st)) d_eigs
                                        (snd (gcv_temp b)) fitted (r_weights st) (Z2f n))
                             | None => raise ValueError
                             end
                        else ret (r_weights st)) tr' in
                     match r0 with
                     | Ok r_weights' =>
                         ret (LoopState (robust_gcv st ++ [gcv_temp b]) b r_weights'
                                (Some (map2 mul w r_weights'))) tr'0
                     | Raise e => (Raise e, tr'0)
                     end)
                | Raise e => (Raise e, tr')
                end)) as Hturn.
  { intros Sopt.
    destruct (scalar_scan (map2 mul w (r_weights st)) d_eigs
                (if Sopt =? 0 then map (np_power 10) llas else [Sopt]) (record st) tr)
      as [H | H].
    - left. destruct (Scalar.scan _ _ _ _ _ _) as [[b|e] tr'];
        cbn [fst] in H; [discriminate | injection H as ->; reflexivity].
    - rewrite H, !scan_run.
      destruct robust; [|now right].
      destruct (tempNDVI_arr _) as [fitted|]; [|now right].
      unfold bind, lift.
      match goal with
      | |- context [py_div ?a ?b] => destruct (py_div_cases a b) as [-> | ->]
      end; [now left | now right]. }
  destruct (1 <? it)%nat.
  - destruct (robust_gcv st) as [|g0 [|g l]]; try (now right).
    cbn [ret raise]. apply Hturn.
  - cbn [ret]. apply Hturn.
Qed.

Lemma scalar_loop (w d_eigs : array) (n : Z) (k it : nat) (st : loop_state)
      (tr : list call) :
  fst (Scalar.robust_loop y w llas robust d_eigs (Z2f n) k it st tr) = Raise ZeroDivisionError \/
  Scalar.robust_loop y w llas robust d_eigs (Z2f n) k it st tr
  = foldM (Vectorized.robust_iteration y llas robust w d_eigs n) (seq it k) st tr.
Proof.
  revert it st tr; induction k as [|k IH]; intros it st tr;
    cbn [Scalar.robust_loop seq foldM]; [now right|].
  unfold bind.
  destruct (scalar_iteration w d_eigs n it st tr) as [H | ->].
  - left. destruct (Scalar.robust_iteration _ _ _ _ _ _ _ _ _) as [[st'|e] tr'];
      cbn [fst] in H; [discriminate | injection H as ->; reflexivity].
  - destruct (Vectorized.robust_iteration y llas robust w d_eigs n st it tr) as [[st'|e] tr'];
      [apply IH | now right].
Qed.

Lemma scalar_envelope (k : nat) (rw : array) (lopt : float) (st : envelope_state)
      (tr : list call) :
  Scalar.envelope_loop y p k rw lopt st tr = Vectorized.envelope_loop y p k rw lopt st tr.
Proof.
  revert st tr; induction k as [|k IH]; intros st tr;
    cbn [Scalar.envelope_loop Vectorized.envelope_loop]; [reflexivity|].
  unfold bind, call_ws2d. destruct (_ =? _); [reflexivity | apply IH].
Qed.

(** The scalar variant on the weights [w], with [n] the count its sum stands
    for, raises [ZeroDivisionError] or is the branch [n > 5] of the kernel,
    but for the store. *)
Lemma scalar_optimize (w d_eigs : array) (n : Z) (tr : list call) :
  np_sum w = Z2f n ->
  eigenvalues (length y) = Ok d_eigs ->
  fst (Scalar._ws2dwcvp_logged y w p llas robust tr) = Raise ZeroDivisionError \/
  stored (fst (Scalar._ws2dwcvp_logged y w p llas robust tr))
  = fst (Vectorized.optimize y p llas robust w d_eigs n tr).
Proof.
  intros Hn Hd.
  unfold Scalar._ws2dwcvp_logged, Vectorized.optimize, Vectorized.robust_loop,
    Vectorized.select_lopt, Vectorized.r_its, bind.
  rewrite Hd, Hn.
  destruct (scalar_loop w d_eigs n (if negb robust then 1 else 4)%nat 0
                        (loop_init (length y)) tr) as [H | ->].
  - left. destruct (Scalar.robust_loop _ _ _ _ _ _ _ _ _ _) as [[st|e] tr1];
      cbn [fst] in H; [discriminate | injection H as ->; reflexivity].
  - right.
    destruct (foldM _ (seq 0 (if negb robust then 1 else 4)%nat) (loop_init (length y)) tr)
      as [[st|e] tr1]; [|reflexivity].
    destruct (nth_error (robust_gcv st) (if robust then 1 else 0)) as [g|]; [|reflexivity].
    cbn [ret]. rewrite scalar_envelope.
    destruct (Vectorized.envelope_loop _ _ _ _ _ _ _) as [[e|e] tr2]; [|reflexivity].
    cbn. now rewrite map_map.
Qed.

(** A curve the scalar variant returns is a rounded curve of the smoother,
    from its last call. *)
Lemma scalar_returns_smoothed (w : array) (z : array) (lopt : float) (tr : list call) :
  Scalar._ws2dwcvp_logged y w p llas robust [] = (Ok (z, lopt), tr) ->
  exists ww calls, z = map np_round (ws2d y lopt ww) /\ tr = calls ++ [(lopt, ww)].
Proof.
  unfold Scalar._ws2dwcvp_logged, bind.
  destruct (eigenvalues (length y)) as [d_eigs|e]; [|discriminate].
  destruct (Scalar.robust_loop _ _ _ _ _ _ _ _ _ _) as [[st|e] tr1]; [|discriminate].
  destruct (nth_error (robust_gcv st) (if robust then 1 else 0)) as [g|]; [|discriminate].
  cbn [ret]. rewrite scalar_envelope.
  destruct (Vectorized.envelope_loop _ _ _ _ _ _ _) as [[e|e] tr2]; [|discriminate].
  unfold call_ws2d, ret. intros [= <- <- <-]. eauto.
Qed.
End Variants.

(** C10, as amended: on every series shorter than [2^53] samples with more
    than five valid samples, and with the validity weights that [ws2dwcvp]
    derives from the series, whenever the scalar variant [_ws2dwcvp] returns,
    [ws2dwcvp] returns the same penalty and the same rounded curve, stored
    in the [int16] output, and whenever the scalar variant raises
    [ValueError], so does [ws2dwcvp]; but the scalar variant, compiled with
    Python's error model, raises [ZeroDivisionError] where the kernel carries
    on with an infinity or NaN, and then the two are not related.  With five
    valid samples or fewer [ws2dwcvp] returns the stored input and the
    penalty 0 without a call of the smoother, while the scalar variant has no
    such test: a curve it returns is always the rounded curve of its last
    call of the smoother. *)
Theorem vectorized_refines_scalar {R : Runtime} (y : array) (nodata p : float)
        (llas : array) (robust : bool) :
  (Z.of_nat (length y) < 2 ^ 53)%Z ->
  ((5 < n_valid y nodata)%Z ->
   Scalar._ws2dwcvp y (validity y nodata) p llas robust <> Raise ZeroDivisionError ->
   Vectorized.ws2dwcvp y nodata p llas robust
   = stored (Scalar._ws2dwcvp y (validity y nodata) p llas robust)) /\
  ((n_valid y nodata <= 5)%Z ->
   Vectorized.ws2dwcvp y nodata p llas robust = Ok (map f64_to_i16 y, 0) /\
   Vectorized.ws2dwcvp_calls y nodata p llas robust = []) /\
  (forall z lopt,
      Scalar._ws2dwcvp y (validity y nodata) p llas robust = Ok (z, lopt) ->
      exists ww calls,
        z = map np_round (ws2d y lopt ww) /\
        snd (Scalar._ws2dwcvp_logged y (validity y nodata) p llas robust []) = calls ++ [(lopt, ww)]).
Proof.
  intros Hlen. split; [|split].
  - intros Hn Hz.
    destruct (ws2dwcvp_logged_optimize y nodata p llas robust Hn) as (d_eigs & Hd & _ & Heq).
    unfold Vectorized.ws2dwcvp, Scalar._ws2dwcvp in *. rewrite Heq.
    destruct (scalar_optimize y p llas robust (validity y nodata) d_eigs (n_valid y nodata) [])
      as [H | H]; [now apply np_sum_validity | exact Hd | contradiction | now symmetry].
  - intros Hn. unfold Vectorized.ws2dwcvp, Vectorized.ws2dwcvp_calls.
    rewrite (ws2dwcvp_logged_fallback y nodata p llas robust Hn). split; reflexivity.
  - intros z lopt Hrun. unfold Scalar._ws2dwcvp in Hrun.
    destruct (Scalar._ws2dwcvp_logged y (validity y nodata) p llas robust []) as [r tr] eqn:E.
    cbn [fst] in Hrun. subst r. cbn [snd].
    eapply scalar_returns_smoothed; eauto.
Qed.

Lemma vectorized_refines_scalar_witness :
  let y := [1; 2; 3; 100; 5; 6; 7; 8; 9; 10] in
  (Z.of_nat (length y) < 2 ^ 53)%Z /\
  (5 < n_valid y (-9999))%Z /\
  Scalar._ws2dwcvp (R := Stand_in.runtime) y (validity y (-9999)) 0.9 [0; 1; 2; 3] true
  <> Raise ZeroDivisionError /\
  Vectorized.ws2dwcvp (R := Stand_in.runtime) y (-9999) 0.9 [0; 1; 2; 3] true
  = stored (R := Stand_in.runtime)
      (Scalar._ws2dwcvp (R := Stand_in.runtime) y (validity y (-9999)) 0.9 [0; 1; 2; 3] true).
Proof.
  intros y.
  assert (Hlen : (Z.of_nat (length y) < 2 ^ 53)%Z) by (vm_compute; reflexivity).
  assert (Hn : (5 < n_valid y (-9999))%Z) by (vm_compute; reflexivity).
  assert (Hz : Scalar._ws2dwcvp (R := Stand_in.runtime) y (validity y (-9999)) 0.9
                                [0; 1; 2; 3] true <> Raise ZeroDivisionError)
    by (vm_compute; discriminate).
  split; [exact Hlen|]. split; [exact Hn|]. split; [exact Hz|].
  exact (proj1 (vectorized_refines_scalar (R := Stand_in.runtime) y (-9999) 0.9 [0; 1; 2; 3]
                                          true Hlen) Hn Hz).
Defined.

(** C10, as stated, fails where a score has the denominator zero: with the
    exponents [[-400; 1]] the first penalty is [10 ** -400 = 0], every
    [gamma] is 1 and the denominator [10 * (1 - 10 / 10) ** 2] is 0; the
    scalar variant raises [ZeroDivisionError] and the kernel goes on to
    report the penalty 10. *)
Lemma scalar_raises_where_kernel_returns :
  ~ scalar_agrees_above_five (R := Stand_in.runtime) [1; 2; 3; 100; 5; 6; 7; 8; 9; 10]
      (-9999) 0.9 [-400; 1] false.
Proof.
  intros H. unfold scalar_agrees_above_five in H.
  set (y := [1; 2; 3; 100; 5; 6; 7; 8; 9; 10]) in H.
  assert (Hn : (5 < n_valid y (-9999))%Z) by (vm_compute; reflexivity).
  specialize (H Hn).
  assert (Hs : Scalar._ws2dwcvp (R := Stand_in.runtime) y (validity y (-9999)) 0.9
                                [-400; 1] false
               = Raise ZeroDivisionError) by (vm_compute; reflexivity).
  rewrite Hs in H. cbn [stored] in H.
  apply (f_equal (fun r : result (list Z * float) =>
                    match r with Ok (_, l) => l =? 10 | Raise _ => false end)) in H.
  vm_compute in H. discriminate.
Qed.

(** * Further properties of the two entry points *)

Section Outcomes.
Context {R : Runtime}.
Variables (y : array) (llas : array) (robust : bool).

Lemma scan_keeps (w_temp d_eigs grid : array) (b : best) :
  (forall c, In c grid ->
             (gcv_score_of y w_temp d_eigs c (ws2d y c w_temp) <? fst (gcv_temp b)) = false) ->
  fold_left (challenge y w_temp d_eigs) grid b = b.
Proof.
  induction grid as [|c grid IH]; intros H; cbn [fold_left]; [reflexivity|].
  unfold challenge at 2. rewrite (H c (or_introl eq_refl)).
  apply IH. intros c' Hc'. apply H. now right.
Qed.

Lemma challenge_curve (w_temp d_eigs : array) (b : best) (c : float) :
  tempNDVI_arr b <> None -> tempNDVI_arr (challenge y w_temp d_eigs b c) <> None.
Proof.
  intros H. unfold challenge. destruct (_ <? _); [discriminate | exact H].
Qed.

Lemma scan_curve (w_temp d_eigs grid : array) (b : best) :
  tempNDVI_arr b <> None ->
  tempNDVI_arr (fold_left (challenge y w_temp d_eigs) grid b) <> None.
Proof.
  revert b; induction grid as [|c grid IH]; intros b H; cbn [fold_left]; [exact H|].
  apply IH. now apply challenge_curve.
Qed.

Lemma scan_selects (w_temp d_eigs grid : array) (b : best) :
  (exists c, In c grid /\
             (gcv_score_of y w_temp d_eigs c (ws2d y c w_temp) <? fst (gcv_temp b)) = true) ->
  tempNDVI_arr (fold_left (challenge y w_temp d_eigs) grid b) <> None.
Proof.
  revert b; induction grid as [|c grid IH]; intros b (c' & Hin & Hc'); [destruct Hin|].
  cbn [fold_left].
  destruct (gcv_score_of y w_temp d_eigs c (ws2d y c w_temp) <? fst (gcv_temp b)) eqn:E.
  - apply scan_curve. unfold challenge. rewrite E. discriminate.
  - assert (challenge y w_temp d_eigs b c = b) as -> by (unfold challenge; now rewrite E).
    destruct Hin as [<-|Hin]; [congruence|].
    apply IH. eauto.
Qed.

Lemma challenge_from_grid (w_temp d_eigs : array) (b : best) (c : float) :
  from_grid llas b -> In c (full_grid llas) ->
  from_grid llas (challenge y w_temp d_eigs b c).
Proof.
  intros Hb Hc. unfold challenge. destruct (_ <? _); [exact Hc | exact Hb].
Qed.

Lemma scan_from_grid (w_temp d_eigs grid : array) (b : best) :
  from_grid llas b -> incl grid (full_grid llas) ->
  from_grid llas (fold_left (challenge y w_temp d_eigs) grid b).
Proof.
  revert b; induction grid as [|c grid IH]; intros b Hb Hi; cbn [fold_left]; [exact Hb|].
  apply IH.
  - apply challenge_from_grid; [exact Hb | apply Hi; now left].
  - intros c' Hc'. apply Hi. now right.
Qed.

Lemma from_grid_entry (b : best) : from_grid llas b -> entry_from_grid llas (gcv_temp b).
Proof.
  unfold from_grid, entry_from_grid. destruct (tempNDVI_arr b); intros H; [now right|].
  rewrite H. now left.
Qed.

(** The grid of a turn holds candidates of the full grid only. *)
Lemma smoothing_of_grid (it : nat) (hist : list (float * float)) (grid : array) :
  Forall (entry_from_grid llas) hist ->
  Vectorized.smoothing_of llas it hist = Ok grid ->
  incl grid (full_grid llas).
Proof.
  intros Hh. unfold Vectorized.smoothing_of.
  destruct (1 <? it)%nat.
  - destruct (nth_error hist 1) as [g|] eqn:E; [|discriminate].
    intros [= <-]. apply nth_error_In in E.
    rewrite Forall_forall in Hh. specialize (Hh g E).
    destruct (snd g =? 0) eqn:Ez; [apply incl_refl|].
    destruct Hh as [H0|Hin].
    + rewrite H0 in Ez. discriminate Ez.
    + intros c [<-|[]]. exact Hin.
  - intros [= <-]. change (0 =? 0) with true. apply incl_refl.
Qed.

(** The grid of the first two turns is the full grid; a later turn has a grid
    as soon as the history has two entries. *)
Lemma smoothing_of_early (it : nat) (hist : list (float * float)) :
  (it <= 1)%nat -> Vectorized.smoothing_of llas it hist = Ok (full_grid llas).
Proof.
  intros H. unfold Vectorized.smoothing_of.
  replace (1 <? it)%nat with false by (symmetry; apply Nat.ltb_ge; lia).
  reflexivity.
Qed.

Lemma smoothing_of_defined (it : nat) (hist : list (float * float)) :
  length hist = it -> exists grid, Vectorized.smoothing_of llas it hist = Ok grid.
Proof.
  intros H. unfold Vectorized.smoothing_of.
  destruct (1 <? it)%nat eqn:E; [|eauto].
  apply Nat.ltb_lt in E.
  destruct (nth_error hist 1) as [g|] eqn:E1; [eauto|].
  apply nth_error_None in E1. lia.
Qed.

(** A turn, in full: it ends unless [robust] is set and the record has no
    curve after the scan. *)
Lemma robust_iteration_run (w d_eigs : array) (n : Z) (st : loop_state) (it : nat)
      (grid : array) (tr : list call) :
  Vectorized.smoothing_of llas it (robust_gcv st) = Ok grid ->
  let w_temp := map2 mul w (r_weights st) in
  let b := fold_left (challenge y w_temp d_eigs) grid (record st) in
  let tr' := tr ++ map (fun lmda => (lmda, w_temp)) grid in
  Vectorized.robust_iteration y llas robust w d_eigs n st it tr
  = if robust
    then match tempNDVI_arr b with
         | Some fitted =>
             let rw := tukey_update y w_temp d_eigs (snd (gcv_temp b)) fitted
                                    (r_weights st) (Z2f n) in
             (Ok (LoopState (robust_gcv st ++ [gcv_temp b]) b rw (Some (map2 mul w rw))), tr')
         | None => (Raise ValueError, tr')
         end
    else (Ok (LoopState (robust_gcv st ++ [gcv_temp b]) b (r_weights st)
                        (Some (map2 mul w (r_weights st)))), tr').
Proof.
  intros Hg. cbn zeta. unfold Vectorized.robust_iteration. rewrite Hg.
  unfold bind. rewrite scan_run.
  destruct robust; [destruct (tempNDVI_arr _)|]; reflexivity.
Qed.

(** What the loop keeps: the record and the history come from the grid. *)
Lemma robust_loop_from_grid (w d_eigs : array) (n : Z) (it : nat) (st : loop_state)
      (tr : list call) :
  Vectorized.robust_loop y llas robust w d_eigs n it [] = (Ok st, tr) ->
  from_grid llas (record st) /\ Forall (entry_from_grid llas) (robust_gcv st).
Proof.
  revert st tr; induction it as [|it IH]; intros st tr.
  - cbn. intros [= <- <-]. split; [reflexivity | constructor].
  - intros H. apply robust_loop_prefix in H as (st0 & tr0 & H0 & H1).
    destruct (IH _ _ H0) as [Hr Hh].
    apply robust_iteration_inv in H1 as (grid & Hg & Hrec & Hhist & _).
    assert (from_grid llas (record st)) as Hr'.
    { rewrite Hrec. apply scan_from_grid; [exact Hr|].
      eapply smoothing_of_grid; eauto. }
    split; [exact Hr'|]. rewrite Hhist. apply Forall_app. split; [exact Hh|].
    constructor; [|constructor]. now apply from_grid_entry.
Qed.

(** After a turn with [robust] set the record has a curve, and keeps it. *)
Lemma robust_loop_curve (w d_eigs : array) (n : Z) (it : nat) (st : loop_state)
      (tr : list call) :
  robust = true ->
  Vectorized.robust_loop y llas robust w d_eigs n (S it) [] = (Ok st, tr) ->
  tempNDVI_arr (record st) <> None.
Proof.
  intros Hr H. apply robust_loop_prefix in H as (st0 & tr0 & _ & H1).
  apply robust_iteration_inv in H1 as (grid & _ & _ & _ & _ & _ & H).
  rewrite Hr in H. destruct H as (fitted & -> & _). discriminate.
Qed.

(** The turns after the first all end. *)
Lemma robust_loop_continues (w d_eigs : array) (n : Z) (it : nat) (st : loop_state)
      (tr : list call) :
  Vectorized.robust_loop y llas robust w d_eigs n (S it) [] = (Ok st, tr) ->
  exists st' tr', Vectorized.robust_loop y llas robust w d_eigs n (S (S it)) [] = (Ok st', tr').
Proof.
  intros H. rewrite robust_loop_S, H.
  destruct (smoothing_of_defined (S it) (robust_gcv st)) as [grid Hg];
    [eapply history_length; eauto|].
  rewrite (robust_iteration_run w d_eigs n st (S it) grid tr Hg).
  destruct robust eqn:Hr; [|eauto].
  pose proof H as Hc. rewrite <- Hr in Hc. apply robust_loop_curve in Hc; [|exact Hr].
  destruct (tempNDVI_arr (fold_left _ grid (record st))) eqn:E; [eauto|].
  exfalso. revert E. apply scan_curve. exact Hc.
Qed.

Lemma robust_loop_continues_to (w d_eigs : array) (n : Z) (it k : nat) (st : loop_state)
      (tr : list call) :
  Vectorized.robust_loop y llas robust w d_eigs n (S it) [] = (Ok st, tr) ->
  exists st' tr', Vectorized.robust_loop y llas robust w d_eigs n (S it + k) [] = (Ok st', tr').
Proof.
  intros H. induction k as [|k (st' & tr' & IH)].
  - rewrite Nat.add_0_r. eauto.
  - replace (S it + S k)%nat with (S (S (it + k))) by lia.
    apply robust_loop_continues with (st := st') (tr := tr'). exact IH.
Qed.

(** The first turn: the scan of the full grid from the initial record. *)
Lemma first_turn (w d_eigs : array) (n : Z) :
  let w_temp := map2 mul w (np_ones (length y)) in
  let b := fold_left (challenge y w_temp d_eigs) (full_grid llas) (Best (1e15, 0) None) in
  let tr := map (fun lmda => (lmda, w_temp)) (full_grid llas) in
  Vectorized.robust_loop y llas robust w d_eigs n 1 []
  = if robust
    then match tempNDVI_arr b with
         | Some fitted =>
             let rw := tukey_update y w_temp d_eigs (snd (gcv_temp b)) fitted
                                    (np_ones (length y)) (Z2f n) in
             (Ok (LoopState [gcv_temp b] b rw (Some (map2 mul w rw))), tr)
         | None => (Raise ValueError, tr)
         end
    else (Ok (LoopState [gcv_temp b] b (np_ones (length y))
                        (Some (map2 mul w (np_ones (length y))))), tr).
Proof.
  cbn zeta. rewrite robust_loop_S.
  change (Vectorized.robust_loop y llas robust w d_eigs n 0 [])
    with (Ok (loop_init (length y)), @nil call).
  cbv iota beta.
  rewrite (robust_iteration_run w d_eigs n (loop_init (length y)) 0 (full_grid llas) []);
    [reflexivity | apply smoothing_of_early; lia].
Qed.

(** Once a turn has raised, the loop has. *)
Lemma robust_loop_raised (w d_eigs : array) (n : Z) (it k : nat) (e : exn) (tr : list call) :
  Vectorized.robust_loop y llas robust w d_eigs n it [] = (Raise e, tr) ->
  Vectorized.robust_loop y llas robust w d_eigs n (it + k) [] = (Raise e, tr).
Proof.
  intros H. induction k as [|k IH].
  - now rewrite Nat.add_0_r.
  - replace (it + S k)%nat with (S (it + k)) by lia. now rewrite robust_loop_S, IH.
Qed.
End Outcomes.

Section Whole_outcomes.
Context {R : Runtime}.
Variables (y : array) (p : float) (llas : array) (robust : bool).

(** A scan from the initial record leaves a curve exactly when a candidate
    scores below [1e15]. *)
Lemma first_scan_curve (w_temp d_eigs grid : array) :
  tempNDVI_arr (fold_left (challenge y w_temp d_eigs) grid (Best (1e15, 0) None)) <> None
  <-> existsb (fun lmda => gcv_score_of y w_temp d_eigs lmda (ws2d y lmda w_temp) <? 1e15) grid
      = true.
Proof.
  split.
  - intros H. destruct (existsb _ grid) eqn:E; [reflexivity|]. exfalso. apply H.
    rewrite scan_keeps; [reflexivity|].
    intros c Hc. cbn [gcv_temp fst].
    destruct (gcv_score_of y w_temp d_eigs c (ws2d y c w_temp) <? 1e15) eqn:Ec; [|reflexivity].
    assert (existsb (fun lmda => gcv_score_of y w_temp d_eigs lmda (ws2d y lmda w_temp) <? 1e15)
                    grid = true) as E'
        by (apply existsb_exists; exists c; split; [exact Hc | exact Ec]).
    congruence.
  - intros H. apply existsb_exists in H as (c & Hc & Hs).
    apply scan_selects. exists c. split; [exact Hc | exact Hs].
Qed.

(** The branch [n > 5] ends when the loop gets through its first turn. *)
Lemma optimize_returns (w d_eigs : array) (n : Z) (st : loop_state) (tr : list call) :
  Vectorized.robust_loop y llas robust w d_eigs n 1 [] = (Ok st, tr) ->
  exists out lopt tr',
    Vectorized.optimize y p llas robust w d_eigs n [] = (Ok (out, lopt), tr').
Proof.
  intros H1.
  assert (exists st' tr', Vectorized.robust_loop y llas robust w d_eigs n
                                                 (Vectorized.r_its robust) [] = (Ok st', tr'))
    as (st' & tr' & Hloop).
  { unfold Vectorized.r_its. destruct robust; cbn [negb].
    - apply (robust_loop_continues_to y llas true w d_eigs n 0 3 st tr H1).
    - eauto. }
  assert (length (robust_gcv st') = Vectorized.r_its robust) as Hlen
      by (eapply history_length; eauto).
  assert (exists rw, robust_weights st' = Some rw) as (rw & Hrw).
  { assert (exists k, Vectorized.r_its robust = S k) as (k & Hk)
        by (unfold Vectorized.r_its; destruct robust; cbn; eauto).
    rewrite Hk in Hloop. apply robust_loop_prefix in Hloop as (st0 & tr0 & _ & Hit).
    apply robust_iteration_inv in Hit as (grid & _ & _ & _ & _ & Hw & _). eauto. }
  assert (exists lopt, Vectorized.select_lopt robust (robust_gcv st') = Ok lopt) as (lopt & Hl).
  { unfold Vectorized.select_lopt.
    destruct (nth_error (robust_gcv st') (if robust then 1 else 0)%nat) eqn:E; [eauto|].
    apply nth_error_None in E. rewrite Hlen in E. unfold Vectorized.r_its in E.
    destruct robust; cbn in E; lia. }
  destruct (envelope_loop_run y p 10 rw lopt
              (EnvelopeState (np_zeros (length y)) (np_zeros (length y)) 0) tr')
    as (e & calls & Henv & _).
  unfold Vectorized.optimize, bind. rewrite Hloop, Hl, Hrw. cbn [array_of]. rewrite Henv.
  unfold call_ws2d, ret. do 3 eexists. reflexivity.
Qed.

(** It raises when [robust] is set and the first scan selects no candidate. *)
Lemma optimize_raises (w d_eigs : array) (n : Z) (e : exn) (tr : list call) :
  Vectorized.robust_loop y llas robust w d_eigs n 1 [] = (Raise e, tr) ->
  Vectorized.optimize y p llas robust w d_eigs n [] = (Raise e, tr).
Proof.
  intros H1.
  assert (Vectorized.robust_loop y llas robust w d_eigs n (Vectorized.r_its robust) []
          = (Raise e, tr)) as Hloop.
  { unfold Vectorized.r_its. destruct robust; cbn [negb]; [|exact H1].
    apply (robust_loop_raised y llas true w d_eigs n 1 3 e tr H1). }
  unfold Vectorized.optimize, bind. now rewrite Hloop.
Qed.

End Whole_outcomes.

(** The outcome of [ws2dwcvp]. *)
Lemma ws2dwcvp_outcome {R : Runtime} (y : array) (nodata p : float) (llas : array)
      (robust : bool) :
  if (5 <? n_valid y nodata)%Z && robust && negb (first_scan_selects y nodata llas)
  then Vectorized.ws2dwcvp y nodata p llas robust = Raise ValueError
  else exists out lopt, Vectorized.ws2dwcvp y nodata p llas robust = Ok (out, lopt).
Proof.
  destruct (5 <? n_valid y nodata)%Z eqn:Hn.
  - apply Z.ltb_lt in Hn.
    destruct (ws2dwcvp_logged_optimize y nodata p llas robust Hn) as (d_eigs & Hd & _ & Heq).
    unfold Vectorized.ws2dwcvp. rewrite Heq.
    unfold first_scan_selects. rewrite Hd.
    pose proof (first_turn y llas robust (validity y nodata) d_eigs (n_valid y nodata)) as H1.
    cbn zeta in H1.
    pose proof (first_scan_curve y (map2 mul (validity y nodata) (np_ones (length y))) d_eigs
                                 (full_grid llas)) as Hc.
    change (existsb _ (full_grid llas))
      with (existsb (fun lmda => score_in y nodata d_eigs (loop_init (length y)) lmda <? 1e15)
                    (full_grid llas)) in Hc.
    destruct robust; cbn [andb].
    + revert H1.
      destruct (tempNDVI_arr _) eqn:E; intros H1.
      * replace (existsb _ (full_grid llas)) with true
          by (symmetry; apply Hc; discriminate).
        cbn [negb].
        destruct (optimize_returns y p llas true _ _ _ _ _ H1) as (out & lopt & tr' & H).
        rewrite H. cbn [fst]. eauto.
      * destruct (existsb _ (full_grid llas)); cbn [negb].
        -- exfalso. now apply (proj2 Hc eq_refl).
        -- now rewrite (optimize_raises y p llas true _ _ _ _ _ H1).
    + destruct (optimize_returns y p llas false _ _ _ _ _ H1) as (out & lopt & tr' & H).
      rewrite H. cbn [fst]. eauto.
  - apply Z.ltb_ge in Hn. unfold Vectorized.ws2dwcvp.
    rewrite (ws2dwcvp_logged_fallback y nodata p llas robust Hn). cbn. eauto.
Qed.

Section Penalties.
Context {R : Runtime}.
Variables (y : array) (llas : array) (robust : bool).

(** With [robust] set every entry of the history holds a candidate of the
    full grid. *)
Lemma robust_history_in_grid (w d_eigs : array) (n : Z) (it : nat) (st : loop_state)
      (tr : list call) :
  robust = true ->
  Vectorized.robust_loop y llas robust w d_eigs n it [] = (Ok st, tr) ->
  Forall (fun g => In (snd g) (full_grid llas)) (robust_gcv st).
Proof.
  intros Hr. revert st tr; induction it as [|it IH]; intros st tr H.
  - cbn in H. injection H as <- <-. constructor.
  - pose proof (robust_loop_curve y llas robust w d_eigs n it st tr Hr H) as Hc.
    destruct (robust_loop_from_grid y llas robust w d_eigs n (S it) st tr H) as [Hg _].
    apply robust_loop_prefix in H as (st0 & tr0 & H0 & H1).
    apply robust_iteration_inv in H1 as (grid & _ & _ & -> & _).
    apply Forall_app. split; [eapply IH; eauto|].
    constructor; [|constructor].
    unfold from_grid in Hg. destruct (tempNDVI_arr (record st)); [exact Hg | congruence].
Qed.

(** The grid of a turn is the full grid or a single penalty. *)
Lemma smoothing_of_length (it : nat) (hist : list (float * float)) (grid : array) :
  Vectorized.smoothing_of llas it hist = Ok grid ->
  (length grid <= if (it <=? 1)%nat then length llas else Nat.max 1 (length llas))%nat.
Proof.
  unfold Vectorized.smoothing_of.
  destruct (it <=? 1)%nat eqn:E.
  - apply Nat.leb_le in E.
    replace (1 <? it)%nat with false by (symmetry; apply Nat.ltb_ge; lia).
    intros [= <-]. change (0 =? 0) with true. cbv iota. now rewrite length_map.
  - destruct (1 <? it)%nat; [destruct (nth_error hist 1) as [g|]; [|discriminate]|];
      intros [= <-];
      try match goal with |- context [if ?c then _ else _] => destruct c end;
      rewrite ?length_map; cbn [length]; lia.
Qed.

(** The calls of a turn, whether it ends or raises. *)
Lemma robust_iteration_calls (w d_eigs : array) (n : Z) (st : loop_state) (it : nat)
      (tr : list call) :
  (length (snd (Vectorized.robust_iteration y llas robust w d_eigs n st it tr))
   <= length tr + if (it <=? 1)%nat then length llas else Nat.max 1 (length llas))%nat.
Proof.
  destruct (Vectorized.smoothing_of llas it (robust_gcv st)) as [grid|e] eqn:Hg.
  - rewrite (robust_iteration_run y llas robust w d_eigs n st it grid tr Hg).
    apply smoothing_of_length in Hg.
    destruct robust; [destruct (tempNDVI_arr _)|]; cbn [snd];
      rewrite length_app, length_map; lia.
  - unfold Vectorized.robust_iteration. rewrite Hg. cbn. lia.
Qed.

Lemma robust_loop_calls (w d_eigs : array) (n : Z) (it : nat) :
  (length (snd (Vectorized.robust_loop y llas robust w d_eigs n it []))
   <= Nat.min it 2 * length llas + (it - 2) * Nat.max 1 (length llas))%nat.
Proof.
  induction it as [|it IH]; [cbn; lia|].
  rewrite robust_loop_S.
  destruct (Vectorized.robust_loop y llas robust w d_eigs n it []) as [[st|e] tr].
  - cbn [snd] in IH.
    pose proof (robust_iteration_calls w d_eigs n st it tr) as H.
    destruct (it <=? 1)%nat eqn:E.
    + apply Nat.leb_le in E. destruct it as [|[|it]]; cbn in *; lia.
    + apply Nat.leb_gt in E.
      replace (Nat.min (S it) 2) with 2%nat by lia.
      replace (Nat.min it 2) with 2%nat in IH by lia.
      replace (S it - 2)%nat with (S (it - 2)) by lia. lia.
  - cbn [snd] in *. destruct it as [|[|it]]; cbn in *; lia.
Qed.
End Penalties.

Section Calls.
Context {R : Runtime}.
Variables (y : array) (p : float) (llas : array) (robust : bool).

(** The calls of the branch [n > 5]: those of the loop, then at most eleven. *)
Lemma optimize_calls (w d_eigs : array) (n : Z) :
  (length (snd (Vectorized.optimize y p llas robust w d_eigs n []))
   <= length (snd (Vectorized.robust_loop y llas robust w d_eigs n (Vectorized.r_its robust) []))
      + 11)%nat.
Proof.
  unfold Vectorized.optimize, bind.
  destruct (Vectorized.robust_loop y llas robust w d_eigs n (Vectorized.r_its robust) [])
    as [[st|e] tr]; cbn [snd]; [|lia].
  destruct (Vectorized.select_lopt robust (robust_gcv st)) as [lopt|e]; [|cbn; lia].
  destruct (envelope_loop_run y p 10 (array_of (robust_weights st)) lopt
              (EnvelopeState (np_zeros (length y)) (np_zeros (length y)) 0) tr)
    as (e & calls & Henv & _ & Hlen & _).
  cbn zeta. rewrite Henv.
  cbn. rewrite !length_app. cbn. lia.
Qed.

(** The penalty of the branch [n > 5] is settled before the envelope loop. *)
Lemma optimize_penalty (w d_eigs : array) (n : Z) (tr : list call) :
  penalty_of (fst (Vectorized.optimize y p llas robust w d_eigs n tr))
  = match Vectorized.robust_loop y llas robust w d_eigs n (Vectorized.r_its robust) tr with
    | (Ok st, _) =>
        Vectorized.select_lopt robust (robust_gcv st)
    | (Raise e, _) => Raise e
    end.
Proof.
  unfold Vectorized.optimize, bind.
  destruct (Vectorized.robust_loop y llas robust w d_eigs n (Vectorized.r_its robust) tr)
    as [[st|e] tr1]; [|reflexivity].
  destruct (Vectorized.select_lopt robust (robust_gcv st)) as [lopt|e]; [|reflexivity].
  destruct (envelope_loop_run y p 10 (array_of (robust_weights st)) lopt
              (EnvelopeState (np_zeros (length y)) (np_zeros (length y)) 0) tr1)
    as (e & calls & Henv & _).
  cbn zeta. rewrite Henv.
  reflexivity.
Qed.
End Calls.

(** X3: no subscript of [ws2dwcvp] falls outside of its list: the reads
    [robust_gcv[1][1]], [robust_gcv[1, 1]] and [robust_gcv[0, 1]] are always
    in range, so that the only exception of a run is [ValueError]; and the
    empty series, where the store [d_eigs[0] = 1e-15] finds no entry, is
    returned as the empty output with the penalty 0. *)
Theorem subscripts_in_range {R : Runtime} (y : array) (nodata p : float) (llas : array)
        (robust : bool) :
  (forall e, Vectorized.ws2dwcvp y nodata p llas robust = Raise e -> e = ValueError) /\
  Vectorized.ws2dwcvp [] nodata p llas robust = Ok ([], 0).
Proof.
  split; [|reflexivity].
  intros e H.
  pose proof (ws2dwcvp_outcome y nodata p llas robust) as Ho.
  destruct (_ && _ && _).
  - rewrite H in Ho. now injection Ho.
  - destruct Ho as (out & lopt & Ho). rewrite H in Ho. discriminate.
Qed.

(** X4: [ws2dwcvp] raises [ValueError], at [y - tempNDVI_arr] in the first
    update of the robustness weights, where the series does not broadcast
    with the empty array of a [tempNDVI_arr] never assigned, exactly when
    there are more than five valid samples, [robust] is set and no candidate
    of the first scan scores below the initial record [1e15].  With the
    theorem before: without [robust], [ws2dwcvp] never raises. *)
Theorem value_error_iff_no_selection {R : Runtime} (y : array) (nodata p : float)
        (llas : array) (robust : bool) :
  Vectorized.ws2dwcvp y nodata p llas robust = Raise ValueError
  <-> (5 < n_valid y nodata)%Z /\ robust = true /\ first_scan_selects y nodata llas = false.
Proof.
  pose proof (ws2dwcvp_outcome y nodata p llas robust) as Ho.
  destruct (5 <? n_valid y nodata)%Z eqn:Hn, robust,
    (first_scan_selects y nodata llas); cbn [andb negb] in Ho;
    try (apply Z.ltb_lt in Hn); try (apply Z.ltb_ge in Hn);
    (split; [intros H | intros (H1 & H2 & H3)]);
    try discriminate; try lia; try exact Ho;
    try (destruct Ho as (out & lopt & Ho); rewrite H in Ho; discriminate).
Qed.

(** X5: the penalty [ws2dwcvp] reports is 0 or one of the candidates
    [10 ** e], [e] in [llas]; it is one of the candidates when the run was
    robust, on more than five valid samples. *)
Theorem penalty_from_grid {R : Runtime} (y : array) (nodata p : float) (llas : array)
        (robust : bool) (out : list Z) (lopt : float) :
  Vectorized.ws2dwcvp y nodata p llas robust = Ok (out, lopt) ->
  (lopt = 0 \/ In lopt (full_grid llas)) /\
  (robust = true -> (5 < n_valid y nodata)%Z -> In lopt (full_grid llas)).
Proof.
  intros Hrun.
  destruct (Z.ltb_spec 5 (n_valid y nodata)) as [Hn|Hn].
  - destruct (ws2dwcvp_logged_optimize y nodata p llas robust Hn) as (d_eigs & Hd & _ & Heq).
    unfold Vectorized.ws2dwcvp in Hrun. rewrite Heq in Hrun.
    destruct (Vectorized.optimize _ _ _ _ _ _ _ _) as [r tr'] eqn:E. cbn in Hrun. subst r.
    apply optimize_inv in E as (st & tr1 & rw & e & calls & Hloop & Hsel & _).
    unfold Vectorized.select_lopt in Hsel.
    destruct (nth_error (robust_gcv st) (if robust then 1 else 0)%nat) as [g|] eqn:Eg;
      [|discriminate].
    injection Hsel as <-. apply nth_error_In in Eg.
    split.
    + destruct (robust_loop_from_grid y llas robust _ _ _ _ _ _ Hloop) as [_ Hh].
      rewrite Forall_forall in Hh. exact (Hh g Eg).
    + intros Hr _.
      pose proof (robust_history_in_grid y llas robust _ _ _ _ _ _ Hr Hloop) as Hh.
      rewrite Forall_forall in Hh. exact (Hh g Eg).
  - unfold Vectorized.ws2dwcvp in Hrun.
    rewrite (ws2dwcvp_logged_fallback y nodata p llas robust Hn) in Hrun.
    injection Hrun as _ <-. split; [now left | lia].
Qed.

Lemma penalty_from_grid_witness :
  let y := [1; 2; 3; 100; 5; 6; 7; 8; 9; 10] in
  Vectorized.ws2dwcvp (R := Stand_in.runtime) y (-9999) 0.9 [0; 1; 2; 3] true
  = Ok ([95; 86; 77; 67; 58; 48; 38; 29; 19; 10]%Z, 1000) /\
  In 1000 (full_grid (R := Stand_in.runtime) [0; 1; 2; 3]).
Proof.
  intros y.
  assert (Hrun : Vectorized.ws2dwcvp (R := Stand_in.runtime) y (-9999) 0.9 [0; 1; 2; 3] true
                 = Ok ([95; 86; 77; 67; 58; 48; 38; 29; 19; 10]%Z, 1000))
    by (vm_compute; reflexivity).
  split; [exact Hrun|].
  apply (proj2 (penalty_from_grid (R := Stand_in.runtime) y (-9999) 0.9 [0; 1; 2; 3] true
                                  _ _ Hrun)).
  - reflexivity.
  - vm_compute. reflexivity.
Defined.

(** X6: a run of [ws2dwcvp], whether it returns or raises, calls the
    smoother at most [len(llas) + 11] times without [robust], and at most
    [2 len(llas) + 2 max(1, len(llas)) + 11] times with it. *)
Theorem calls_bounded {R : Runtime} (y : array) (nodata p : float) (llas : array)
        (robust : bool) :
  (length (Vectorized.ws2dwcvp_calls y nodata p llas robust)
   <= (if robust then 2 * length llas + 2 * Nat.max 1 (length llas) else length llas) + 11)%nat.
Proof.
  unfold Vectorized.ws2dwcvp_calls.
  destruct (Z.ltb_spec 5 (n_valid y nodata)) as [Hn|Hn].
  - destruct (ws2dwcvp_logged_optimize y nodata p llas robust Hn) as (d_eigs & Hd & _ & Heq).
    rewrite Heq.
    pose proof (optimize_calls y p llas robust (validity y nodata) d_eigs (n_valid y nodata))
      as H.
    pose proof (robust_loop_calls y llas robust (validity y nodata) d_eigs (n_valid y nodata)
                                  (Vectorized.r_its robust)) as H'.
    unfold Vectorized.r_its in *. destruct robust; cbn [negb] in *; lia.
  - rewrite (ws2dwcvp_logged_fallback y nodata p llas robust Hn). cbn. lia.
Qed.

(** X7: the output of [ws2dwcvp] has one value per sample of the series, on
    both branches. *)
Theorem output_as_long_as_input {R : Runtime} (y : array) (nodata p : float) (llas : array)
        (robust : bool) (out : list Z) (lopt : float) :
  Vectorized.ws2dwcvp y nodata p llas robust = Ok (out, lopt) ->
  length out = length y.
Proof.
  intros Hrun.
  destruct (Z.ltb_spec 5 (n_valid y nodata)) as [Hn|Hn].
  - destruct (ws2dwcvp_logged_optimize y nodata p llas robust Hn) as (d_eigs & Hd & _ & Heq).
    unfold Vectorized.ws2dwcvp in Hrun. rewrite Heq in Hrun.
    destruct (Vectorized.optimize _ _ _ _ _ _ _ _) as [r tr'] eqn:E. cbn in Hrun. subst r.
    apply optimize_inv in E as (st & tr1 & rw & e & calls & _ & _ & _ & _ & _ & _ & _ & _ & _ & -> & _).
    rewrite length_map. apply ws2d_shape.
  - unfold Vectorized.ws2dwcvp in Hrun.
    rewrite (ws2dwcvp_logged_fallback y nodata p llas robust Hn) in Hrun.
    injection Hrun as <- _. now rewrite length_map.
Qed.

Lemma output_as_long_as_input_witness :
  let y := [1; 2; 3; 100; 5; 6; 7; 8; 9; 10] in
  exists out lopt,
    Vectorized.ws2dwcvp (R := Stand_in.runtime) y (-9999) 0.9 [0; 1; 2; 3] false
    = Ok (out, lopt) /\ length out = 10%nat.
Proof.
  intros y.
  assert (Hrun : Vectorized.ws2dwcvp (R := Stand_in.runtime) y (-9999) 0.9 [0; 1; 2; 3] false
                 = Ok ([79; 72; 65; 59; 52; 45; 38; 31; 25; 18]%Z, 1000))
    by (vm_compute; reflexivity).
  do 2 eexists. split; [exact Hrun|].
  exact (output_as_long_as_input (R := Stand_in.runtime) y (-9999) 0.9 [0; 1; 2; 3] false
                                 _ _ Hrun).
Defined.

(** X8: the envelope parameter [p] has no part in the choice of the penalty:
    two calls that differ in [p] only report the same penalty, or raise the
    same exception. *)
Theorem penalty_independent_of_p {R : Runtime} (y : array) (nodata p p' : float)
        (llas : array) (robust : bool) :
  penalty_of (Vectorized.ws2dwcvp y nodata p llas robust)
  = penalty_of (Vectorized.ws2dwcvp y nodata p' llas robust).
Proof.
  unfold Vectorized.ws2dwcvp.
  destruct (Z.ltb_spec 5 (n_valid y nodata)) as [Hn|Hn].
  - destruct (ws2dwcvp_logged_optimize y nodata p llas robust Hn) as (d & Hd & _ & ->).
    destruct (ws2dwcvp_logged_optimize y nodata p' llas robust Hn) as (d' & Hd' & _ & ->).
    rewrite Hd in Hd'. injection Hd' as <-.
    now rewrite !optimize_penalty.
  - now rewrite !(ws2dwcvp_logged_fallback y nodata _ llas robust Hn).
Qed.

(** ** NaN and the infinities in sums and products *)

Section Not_a_number.
Import Float_facts.

Lemma is_nan_eq (v : float) : is_nan v = true -> v = nan.
Proof.
  rewrite is_nan_spec. intros H. apply Prim2SF_inj.
  destruct (Prim2SF v); try discriminate. reflexivity.
Qed.

Lemma add_nan_l (a b : float) : is_nan a = true -> is_nan (a + b) = true.
Proof.
  rewrite !is_nan_spec, add_spec. destruct (Prim2SF a); try discriminate. reflexivity.
Qed.

Lemma add_nan_r (a b : float) : is_nan b = true -> is_nan (a + b) = true.
Proof.
  rewrite !is_nan_spec, add_spec.
  destruct (Prim2SF b); try discriminate. destruct (Prim2SF a); reflexivity.
Qed.

Lemma div_nan_l (a b : float) : is_nan a = true -> is_nan (a / b) = true.
Proof.
  rewrite !is_nan_spec, div_spec. destruct (Prim2SF a); try discriminate. reflexivity.
Qed.

Lemma ltb_nan_l (a b : float) : is_nan a = true -> (a <? b) = false.
Proof.
  intros H. destruct (a <? b) eqn:E; [|reflexivity].
  apply ltb_not_nan in E. destruct E; congruence.
Qed.

(** A sample that is NaN or infinite has a residual that is NaN or infinite. *)
Lemma sub_not_finite (x f : float) :
  is_nan x || is_infinity x = true -> is_nan (x - f) || is_infinity (x - f) = true.
Proof.
  rewrite !is_nan_spec, !is_infinity_spec, sub_spec.
  destruct (Prim2SF x) as [s|s| |s m e]; try discriminate; intros _;
    destruct (Prim2SF f) as [s'|s'| |s' m' e']; try reflexivity;
    destruct s, s'; reflexivity.
Qed.

(** Zero times NaN or an infinity is NaN. *)
Lemma zero_mul_not_finite (a d : float) :
  zero_or_nan a -> is_nan d || is_infinity d = true -> is_nan (a * d) = true.
Proof.
  unfold zero_or_nan. rewrite !is_nan_spec, is_infinity_spec, eqb_zero, mul_spec.
  intros [[s Ha]|Ha] Hd.
  - rewrite Ha. destruct (Prim2SF d); try discriminate; reflexivity.
  - destruct (Prim2SF a); try discriminate. reflexivity.
Qed.

Lemma fold_add_nan (l : array) (acc : float) :
  is_nan acc = true -> is_nan (fold_left add l acc) = true.
Proof.
  revert acc; induction l as [|v l IH]; intros acc H; cbn [fold_left]; [exact H|].
  apply IH. now apply add_nan_l.
Qed.

(** A sum with a NaN term is NaN. *)
Lemma np_sum_nan (l : array) (j : nat) (v : float) :
  nth_error l j = Some v -> is_nan v = true -> is_nan (np_sum l) = true.
Proof.
  unfold np_sum. generalize 0. revert j.
  induction l as [|u l IH]; intros [|j] acc Hj Hv; try discriminate; cbn [fold_left].
  - injection Hj as ->. apply fold_add_nan. now apply add_nan_r.
  - eapply IH; eauto.
Qed.
End Not_a_number.

Section Not_robust.
Context {R : Runtime}.

(** Before any update the weights of the scan are the validity weights. *)
Lemma validity_times_ones (nodata : float) (y : array) :
  map2 mul (validity y nodata) (np_ones (length y)) = validity y nodata.
Proof.
  unfold validity, np_ones.
  induction y as [|x y IH]; [reflexivity|].
  cbn [Vectorized.init_weights length repeat].
  destruct (Vectorized.init_weights nodata y) as [w n]. cbn [fst] in IH.
  destruct (invalid nodata x); cbn [fst map2]; now rewrite IH.
Qed.

(** A run without [robust] on more than five valid samples, in full. *)
Lemma not_robust_run (y : array) (nodata p : float) (llas : array) :
  (5 < n_valid y nodata)%Z ->
  exists d_eigs e calls,
    eigenvalues (length y) = Ok d_eigs /\
    let w := validity y nodata in
    let b := fold_left (challenge y w d_eigs) (full_grid llas) (Best (1e15, 0) None) in
    let lopt := snd (gcv_temp b) in
    Vectorized.ws2dwcvp_logged y nodata p llas false []
    = (Ok (map (fun v => f64_to_i16 (np_round v)) (ws2d y lopt (ww e)), lopt),
       map (fun lmda => (lmda, w)) (full_grid llas) ++ calls ++ [(lopt, ww e)]) /\
    (1 <= length calls <= 10)%nat /\
    Forall (fun c : call => fst c = lopt) calls /\
    last calls (0, []) = (lopt, ww e).
Proof.
  intros Hn.
  destruct (ws2dwcvp_logged_optimize y nodata p llas false Hn) as (d_eigs & Hd & _ & Heq).
  pose proof (first_turn y llas false (validity y nodata) d_eigs (n_valid y nodata)) as H1.
  cbn zeta in H1. cbv iota in H1. rewrite validity_times_ones in H1.
  set (b := fold_left (challenge y (validity y nodata) d_eigs) (full_grid llas)
                      (Best (1e15, 0) None)) in *.
  rewrite Heq. unfold Vectorized.optimize, bind.
  change (Vectorized.r_its false) with 1%nat. rewrite H1.
  cbn [robust_gcv robust_weights Vectorized.select_lopt nth_error].
  match goal with
  | |- context [Vectorized.envelope_loop ?a1 ?a2 ?a3 ?a4 ?a5 ?a6 ?a7] =>
      destruct (envelope_loop_run a1 a2 a3 a4 a5 a6 a7)
      as (e & calls & Henv & _ & Hlen & Hlast & Hall & _)
  end.
  destruct Hlast as [Hne Hlast]; [discriminate|].
  exists d_eigs, e, calls. split; [exact Hd|]. cbn zeta.
  split; [|split; [|split; [exact Hall | exact Hlast]]].
  - rewrite Henv. unfold call_ws2d, ret. now rewrite <- app_assoc.
  - split; [|exact Hlen]. destruct calls; [congruence | cbn; lia].
Qed.
End Not_robust.

(** X10: without [robust], on more than five valid samples, [ws2dwcvp]
    returns, and its calls of the smoother are: one per exponent of [llas],
    in order, with the penalty [10 ** e] and exactly the validity weights;
    then between one and ten calls of the envelope loop and the final call,
    all with the reported penalty. *)
Theorem not_robust_calls {R : Runtime} (y : array) (nodata p : float) (llas : array) :
  (5 < n_valid y nodata)%Z ->
  exists out lopt calls ww,
    Vectorized.ws2dwcvp y nodata p llas false = Ok (out, lopt) /\
    Vectorized.ws2dwcvp_calls y nodata p llas false
    = map (fun l => (np_power 10 l, validity y nodata)) llas ++ calls ++ [(lopt, ww)] /\
    (1 <= length calls <= 10)%nat /\
    Forall (fun c : call => fst c = lopt) calls.
Proof.
  intros Hn.
  destruct (not_robust_run y nodata p llas Hn) as (d_eigs & e & calls & _ & H).
  cbn zeta in H. destruct H as (Hrun & Hlen & Hall & _).
  unfold Vectorized.ws2dwcvp, Vectorized.ws2dwcvp_calls. rewrite Hrun. cbn [fst snd].
  do 4 eexists. split; [reflexivity|].
  split; [|split; [exact Hlen | exact Hall]].
  unfold full_grid. now rewrite map_map.
Qed.

Lemma not_robust_calls_witness :
  let y := [1; 2; 3; 100; 5; 6; 7; 8; 9; 10] in
  (5 < n_valid y (-9999))%Z /\
  exists calls : list call,
    firstn 4 (Vectorized.ws2dwcvp_calls (R := Stand_in.runtime) y (-9999) 0.9 [0; 1; 2; 3] false)
    = map (fun l => (Stand_in.power 10 l, repeat 1 10)) [0; 1; 2; 3] /\
    length (Vectorized.ws2dwcvp_calls (R := Stand_in.runtime) y (-9999) 0.9 [0; 1; 2; 3] false)
    = (4 + length calls + 1)%nat.
Proof.
  intros y.
  assert (Hn : (5 < n_valid y (-9999))%Z) by (vm_compute; reflexivity).
  split; [exact Hn|].
  destruct (not_robust_calls (R := Stand_in.runtime) y (-9999) 0.9 [0; 1; 2; 3] Hn)
    as (out & lopt & calls & ww & _ & Hcalls & _).
  exists calls. rewrite Hcalls. split.
  - reflexivity.
  - rewrite !length_app, length_map. reflexivity.
Defined.

Section No_selection.
Context {R : Runtime}.
Variables (y : array) (nodata p : float) (llas : array).

(** When no candidate of the first scan scores below [1e15], the scan leaves
    the initial record. *)
Lemma first_scan_none (d_eigs : array) :
  eigenvalues (length y) = Ok d_eigs ->
  first_scan_selects y nodata llas = false ->
  fold_left (challenge y (validity y nodata) d_eigs) (full_grid llas) (Best (1e15, 0) None)
  = Best (1e15, 0) None.
Proof.
  intros Hd Hs. unfold first_scan_selects in Hs. rewrite Hd in Hs.
  apply scan_keeps. intros c Hc. cbn [gcv_temp fst].
  destruct (gcv_score_of y (validity y nodata) d_eigs c (ws2d y c (validity y nodata)) <? 1e15)
    eqn:E; [|reflexivity].
  rewrite <- Hs. symmetry. apply existsb_exists. exists c. split; [exact Hc|].
  unfold score_in, w_temp_of. cbn [loop_init r_weights].
  rewrite validity_times_ones. exact E.
Qed.

Lemma no_selection_robust :
  (5 < n_valid y nodata)%Z ->
  first_scan_selects y nodata llas = false ->
  Vectorized.ws2dwcvp_logged y nodata p llas true []
  = (Raise ValueError, map (fun l => (np_power 10 l, validity y nodata)) llas).
Proof.
  intros Hn Hs.
  destruct (ws2dwcvp_logged_optimize y nodata p llas true Hn) as (d_eigs & Hd & _ & Heq).
  pose proof (first_turn y llas true (validity y nodata) d_eigs (n_valid y nodata)) as H1.
  cbn zeta in H1. cbv iota in H1. rewrite validity_times_ones in H1.
  rewrite (first_scan_none d_eigs Hd Hs) in H1. cbn [tempNDVI_arr] in H1.
  rewrite Heq, (optimize_raises y p llas true _ _ _ _ _ H1).
  unfold full_grid. now rewrite map_map.
Qed.

Lemma no_selection_not_robust :
  (5 < n_valid y nodata)%Z ->
  first_scan_selects y nodata llas = false ->
  exists out, Vectorized.ws2dwcvp y nodata p llas false = Ok (out, 0).
Proof.
  intros Hn Hs.
  destruct (not_robust_run y nodata p llas Hn) as (d_eigs & e & calls & Hd & H).
  cbn zeta in H. destruct H as (Hrun & _).
  rewrite (first_scan_none d_eigs Hd Hs) in Hrun. cbn [gcv_temp snd] in Hrun.
  unfold Vectorized.ws2dwcvp. rewrite Hrun. cbn [fst]. eauto.
Qed.

(** The score of a candidate of the first scan is NaN when a sample is NaN or
    infinite, for a power that has [nan ** 2] NaN and [0 ** 0.5] zero. *)
Lemma first_score_nan (d_eigs : array) (lmda : float) (j : nat) (x : float) :
  is_nan (np_power nan 2) = true ->
  zero_or_nan (np_power 0 0.5) ->
  nth_error y j = Some x ->
  is_nan x || is_infinity x = true ->
  is_nan (score_in y nodata d_eigs (loop_init (length y)) lmda) = true.
Proof.
  intros Hsq Hrt Hj Hx.
  unfold score_in, w_temp_of. cbn [loop_init r_weights]. rewrite validity_times_ones.
  set (fitted := ws2d y lmda (validity y nodata)).
  unfold gcv_score_of. apply div_nan_l. unfold wsse_of.
  assert (exists f, nth_error fitted j = Some f) as (f & Hf).
  { destruct (nth_error fitted j) eqn:E; [eauto|].
    apply nth_error_None in E. unfold fitted in E. rewrite ws2d_shape in E.
    assert (nth_error y j <> None) as H by congruence.
    apply nth_error_Some in H. lia. }
  assert (invalid nodata x = true) as Hinv.
  { unfold invalid. rewrite <- orb_assoc, Hx. apply orb_true_r. }
  pose proof (validity_nth nodata y j x Hj) as Hw. rewrite Hinv in Hw.
  apply np_sum_nan with (j := j) (v := np_power nan 2); [|exact Hsq].
  rewrite nth_error_map, nth_error_map2, nth_error_map, Hw, nth_error_map2, Hj, Hf.
  cbn [option_map]. do 2 f_equal. apply is_nan_eq.
  apply zero_mul_not_finite; [exact Hrt | now apply sub_not_finite].
Qed.

Lemma not_finite_no_selection (j : nat) (x : float) :
  is_nan (np_power nan 2) = true ->
  zero_or_nan (np_power 0 0.5) ->
  nth_error y j = Some x ->
  is_nan x || is_infinity x = true ->
  first_scan_selects y nodata llas = false.
Proof.
  intros Hsq Hrt Hj Hx. unfold first_scan_selects.
  destruct (eigenvalues (length y)) as [d_eigs|e]; [|reflexivity].
  destruct (existsb _ (full_grid llas)) eqn:E; [|reflexivity].
  apply existsb_exists in E as (c & _ & Hc).
  rewrite ltb_nan_l in Hc; [discriminate|].
  now apply first_score_nan with (j := j) (x := x).
Qed.
End No_selection.

(** X12: a sample that is NaN or infinite has the validity weight 0, and
    still its residual enters the weighted sum of squares as [0 * nan] or
    [0 * inf], which is NaN: when [nan ** 2] is NaN and [0 ** 0.5] is zero, as
    NumPy has them, every score of the first scan is NaN and no candidate is
    selected.  On more than five valid samples the robust run then raises
    [ValueError] and the run without [robust] reports the penalty
    0. *)
Theorem not_finite_sample_blocks_selection {R : Runtime} (y : array) (nodata p : float)
        (llas : array) (j : nat) (x : float) :
  is_nan (np_power nan 2) = true ->
  zero_or_nan (np_power 0 0.5) ->
  (5 < n_valid y nodata)%Z ->
  nth_error y j = Some x ->
  is_nan x || is_infinity x = true ->
  Vectorized.ws2dwcvp y nodata p llas true = Raise ValueError /\
  exists out, Vectorized.ws2dwcvp y nodata p llas false = Ok (out, 0).
Proof.
  intros Hsq Hrt Hn Hj Hx.
  pose proof (not_finite_no_selection y nodata llas j x Hsq Hrt Hj Hx) as Hs.
  split.
  - unfold Vectorized.ws2dwcvp. now rewrite (no_selection_robust y nodata p llas Hn Hs).
  - exact (no_selection_not_robust y nodata p llas Hn Hs).
Qed.

Lemma not_finite_sample_blocks_selection_witness :
  let y := [1; 2; 3; infinity; 4; 5; 6] in
  is_nan (Stand_in.power nan 2) = true /\
  zero_or_nan (Stand_in.power 0 0.5) /\
  (5 < n_valid y (-9999))%Z /\
  nth_error y 3 = Some infinity /\
  Vectorized.ws2dwcvp (R := Stand_in.runtime) y (-9999) 0.9 [0; 1; 2; 3] true
  = Raise ValueError.
Proof.
  intros y.
  assert (H1 : is_nan (Stand_in.power nan 2) = true) by (vm_compute; reflexivity).
  assert (H2 : zero_or_nan (Stand_in.power 0 0.5)) by (left; vm_compute; reflexivity).
  assert (H3 : (5 < n_valid y (-9999))%Z) by (vm_compute; reflexivity).
  assert (H4 : nth_error y 3 = Some infinity) by reflexivity.
  repeat (split; [assumption|]).
  exact (proj1 (not_finite_sample_blocks_selection (R := Stand_in.runtime) y (-9999) 0.9
                  [0; 1; 2; 3] 3 infinity H1 H2 H3 H4 eq_refl)).
Defined.

(** X13: with an empty [llas] there is no candidate: on more than five valid
    samples the robust run raises [ValueError] before any call of the
    smoother, and the run without [robust] reports the penalty 0. *)
Theorem empty_grid {R : Runtime} (y : array) (nodata p : float) :
  (5 < n_valid y nodata)%Z ->
  Vectorized.ws2dwcvp y nodata p [] true = Raise ValueError /\
  Vectorized.ws2dwcvp_calls y nodata p [] true = [] /\
  exists out, Vectorized.ws2dwcvp y nodata p [] false = Ok (out, 0).
Proof.
  intros Hn.
  assert (first_scan_selects y nodata [] = false) as Hs
      by (unfold first_scan_selects; destruct (eigenvalues (length y)); reflexivity).
  unfold Vectorized.ws2dwcvp, Vectorized.ws2dwcvp_calls.
  rewrite (no_selection_robust y nodata p [] Hn Hs).
  repeat split. exact (no_selection_not_robust y nodata p [] Hn Hs).
Qed.

Lemma empty_grid_witness :
  let y := [1; 2; 3; 100; 5; 6; 7; 8; 9; 10] in
  (5 < n_valid y (-9999))%Z /\
  Vectorized.ws2dwcvp (R := Stand_in.runtime) y (-9999) 0.9 [] true = Raise ValueError.
Proof.
  intros y.
  assert (Hn : (5 < n_valid y (-9999))%Z) by (vm_compute; reflexivity).
  split; [exact Hn|].
  exact (proj1 (empty_grid (R := Stand_in.runtime) y (-9999) 0.9 Hn)).
Defined.


Section Updates.
Context {R : Runtime}.

Lemma nth_error_assign_where (mask : list bool) (v : float) (a : array) (j : nat) :
  nth_error (assign_where mask v a) j
  = match nth_error mask j, nth_error a j with
    | Some b, Some x => Some (if b then v else x)
    | _, _ => None
    end.
Proof. unfold assign_where. apply nth_error_map2. Qed.

(** The update, entry by entry: the three assignments of lines 104-107, the
    last one first. *)
Lemma tukey_update_nth (y w_temp d_eigs : array) (s : float) (fitted rw : array) (n : float)
      (j : nat) (r u : float) :
  nth_error (map2 sub y fitted) j = Some r ->
  nth_error (standardized y w_temp d_eigs s fitted rw n) j = Some u ->
  nth_error (tukey_update y w_temp d_eigs s fitted rw n) j
  = Some (if 0 <? r then 1
          else if 1 <? abs (u / 4.685) then 0
               else np_power (1 - np_power (u / 4.685) 2) 2).
Proof.
  intros Hr Hu. unfold tukey_update.
  change (map (fun v => v / (1.4826 * _ * sqrt (1 - np_sum (gamma_of w_temp d_eigs s) / n)))
              (map2 sub y fitted))
    with (standardized y w_temp d_eigs s fitted rw n).
  rewrite !nth_error_assign_where, !nth_error_map, Hr, Hu. reflexivity.
Qed.
End Updates.

(** X11: the robustness weight of a sample after an update, by cases: 1 when
    its residual is strictly positive, else 0 when its standardized residual
    [u] has [abs(u / 4.685) > 1], else the bisquare value
    [(1 - (u / 4.685) ** 2) ** 2].  The later assignment wins: a positive
    residual gets 1 whatever [u] is. *)
Theorem tukey_weight_cases {R : Runtime} (y : array) (nodata : float) (llas : array)
        (it : nat) (st0 st : loop_state) (d_eigs fitted : array) (j : nat) (r u : float) :
  eigenvalues (length y) = Ok d_eigs ->
  fst (after_turns y nodata llas true it) = Ok st0 ->
  fst (after_turns y nodata llas true (S it)) = Ok st ->
  tempNDVI_arr (record st) = Some fitted ->
  nth_error (map2 sub y fitted) j = Some r ->
  nth_error (standardized y (w_temp_of y nodata st0) d_eigs (snd (gcv_temp (record st)))
                          fitted (r_weights st0) (Z2f (n_valid y nodata))) j = Some u ->
  nth_error (r_weights st) j
  = Some (if 0 <? r then 1
          else if 1 <? abs (u / 4.685) then 0
               else np_power (1 - np_power (u / 4.685) 2) 2).
Proof.
  intros Hd H0 H1 Hf Hr Hu.
  apply after_turns_S in H1 as (d & st0' & tr & tr' & Hd' & H0' & _ & Hit & _).
  rewrite Hd in Hd'. injection Hd' as <-.
  rewrite H0' in H0. cbn [fst] in H0. injection H0 as ->.
  apply robust_iteration_inv in Hit as (grid & _ & _ & _ & _ & _ & fitted' & Hf' & ->).
  rewrite Hf in Hf'. injection Hf' as <-.
  now apply tukey_update_nth.
Qed.

Lemma tukey_weight_cases_witness :
  let y := [1; 2; 3; -100; 5; 6; 7; 8; 9; 10] in
  exists st0 st d_eigs fitted r u,
    eigenvalues (R := Stand_in.runtime) (length y) = Ok d_eigs /\
    fst (after_turns (R := Stand_in.runtime) y (-9999) [0; 1; 2; 3] true 0) = Ok st0 /\
    fst (after_turns (R := Stand_in.runtime) y (-9999) [0; 1; 2; 3] true 1) = Ok st /\
    tempNDVI_arr (record st) = Some fitted /\
    nth_error (map2 sub y fitted) 3 = Some r /\
    nth_error (standardized (R := Stand_in.runtime) y (w_temp_of y (-9999) st0) d_eigs
                            (snd (gcv_temp (record st))) fitted (r_weights st0)
                            (Z2f (n_valid y (-9999)))) 3 = Some u /\
    (0 <? r) = false /\ (1 <? abs (u / 4.685)) = true /\
    nth_error (r_weights st) 3 = Some 0.
Proof.
  intros y.
  destruct (eigenvalues (R := Stand_in.runtime) (length y)) as [d_eigs|] eqn:Hd;
    [|vm_compute in Hd; discriminate].
  destruct (fst (after_turns (R := Stand_in.runtime) y (-9999) [0; 1; 2; 3] true 0))
    as [st0|] eqn:H0; [|vm_compute in H0; discriminate].
  destruct (fst (after_turns (R := Stand_in.runtime) y (-9999) [0; 1; 2; 3] true 1))
    as [st|] eqn:H1; [|vm_compute in H1; discriminate].
  destruct (tempNDVI_arr (record st)) as [fitted|] eqn:Hf;
    [|vm_compute in H1; injection H1 as <-; discriminate].
  destruct (nth_error (map2 sub y fitted) 3) as [r|] eqn:Hr;
    [|vm_compute in H1; injection H1 as <-; injection Hf as <-; discriminate].
  destruct (nth_error (standardized (R := Stand_in.runtime) y (w_temp_of y (-9999) st0) d_eigs
                            (snd (gcv_temp (record st))) fitted (r_weights st0)
                            (Z2f (n_valid y (-9999)))) 3) as [u|] eqn:Hu;
    [|vm_compute in Hd; injection Hd as <-; vm_compute in H0; injection H0 as <-;
      vm_compute in H1; injection H1 as <-; injection Hf as <-; discriminate].
  pose proof (tukey_weight_cases (R := Stand_in.runtime) y (-9999) [0; 1; 2; 3] 0 st0 st d_eigs
                                 fitted 3 r u Hd H0 H1 Hf Hr Hu) as H.
  assert (Hneg : (0 <? r) = false).
  { vm_compute in H1. injection H1 as <-. injection Hf as <-.
    vm_compute in Hr. injection Hr as <-. reflexivity. }
  assert (Hout : (1 <? abs (u / 4.685)) = true).
  { vm_compute in Hd. injection Hd as <-. vm_compute in H0. injection H0 as <-.
    vm_compute in H1. injection H1 as <-. injection Hf as <-.
    vm_compute in Hu. injection Hu as <-. reflexivity. }
  rewrite Hneg, Hout in H.
  exists st0, st, d_eigs, fitted, r, u. repeat (split; [reflexivity || assumption|]).
  exact H.
Defined.
Section Validity.

Lemma init_weights_count (nodata : float) (y : array) :
  snd (Vectorized.init_weights nodata y)
  = Z.of_nat (length (filter (fun x => negb (invalid nodata x)) y)).
Proof.
  induction y as [|x y IH]; cbn [Vectorized.init_weights filter]; [reflexivity|].
  destruct (Vectorized.init_weights nodata y) as [w n]. cbn [snd] in IH.
  destruct (invalid nodata x); cbn [snd negb length]; lia.
Qed.

(** The count is a function of the weights: the number of entries that are 1. *)
Lemma init_weights_ones (nodata : float) (y : array) :
  snd (Vectorized.init_weights nodata y)
  = Z.of_nat (length (filter (fun v => v =? 1) (fst (Vectorized.init_weights nodata y)))).
Proof.
  induction y as [|x y IH]; cbn [Vectorized.init_weights filter]; [reflexivity|].
  destruct (Vectorized.init_weights nodata y) as [w n]. cbn [fst snd] in IH.
  destruct (invalid nodata x); cbn [fst snd filter].
  - replace (0 =? 1) with false by reflexivity. exact IH.
  - replace (1 =? 1) with true by reflexivity. cbn [length]. lia.
Qed.
End Validity.

(** X1: the validity weights are as long as the series, 0 at every sample
    that equals the nodata value, is NaN or is infinite, and 1 at every other
    sample; [n] is the number of the samples with weight 1. *)
Theorem validity_weights (nodata : float) (y : array) :
  length (validity y nodata) = length y /\
  (forall j x, nth_error y j = Some x ->
               nth_error (validity y nodata) j = Some (if invalid nodata x then 0 else 1)) /\
  n_valid y nodata = Z.of_nat (length (filter (fun x => negb (invalid nodata x)) y)).
Proof.
  split; [apply init_weights_length|].
  split; [intros j x; apply validity_nth | apply init_weights_count].
Qed.

(** X2: a nodata value that is NaN matches no sample, since [y[ii] == nodata]
    is false for it: the invalid samples are then the NaN and the infinite
    ones, and [n] counts the finite samples. *)
Theorem nan_nodata_marks_no_number (nodata : float) (y : array) :
  is_nan nodata = true ->
  (forall x, invalid nodata x = is_nan x || is_infinity x) /\
  n_valid y nodata = Z.of_nat (length (filter is_finite y)).
Proof.
  intros Hn.
  assert (forall x, invalid nodata x = is_nan x || is_infinity x) as Hinv.
  { intros x. unfold invalid.
    replace (x =? nodata) with false; [reflexivity|].
    symmetry. rewrite eqb_spec. unfold SFeqb.
    rewrite Float_facts.SFcompare_nan; [reflexivity|].
    right. now rewrite <- Float_facts.is_nan_spec. }
  split; [exact Hinv|].
  unfold n_valid. rewrite init_weights_count. do 2 f_equal.
  apply filter_ext. intros x. rewrite Hinv. unfold is_finite.
  now rewrite negb_orb.
Qed.

Lemma nan_nodata_marks_no_number_witness :
  is_nan nan = true /\
  n_valid [1; nan; 3; infinity; -9999] nan = 3%Z.
Proof.
  split; [reflexivity|].
  rewrite (proj2 (nan_nodata_marks_no_number nan
                    [1; nan; 3; infinity; -9999] eq_refl)).
  reflexivity.
Defined.

(** X9: the nodata value acts through the validity weights only: two nodata
    values that mark the same samples of a series invalid give the same
    result and the same calls of the smoother. *)
Theorem nodata_only_through_mask {R : Runtime} (y : array) (nodata nodata' p : float)
        (llas : array) (robust : bool) :
  validity y nodata = validity y nodata' ->
  Vectorized.ws2dwcvp y nodata p llas robust = Vectorized.ws2dwcvp y nodata' p llas robust /\
  Vectorized.ws2dwcvp_calls y nodata p llas robust
  = Vectorized.ws2dwcvp_calls y nodata' p llas robust.
Proof.
  intros Hw.
  assert (Vectorized.init_weights nodata y = Vectorized.init_weights nodata' y) as H.
  { pose proof (init_weights_ones nodata y) as H1.
    pose proof (init_weights_ones nodata' y) as H2.
    unfold validity in Hw.
    destruct (Vectorized.init_weights nodata y) as [w n],
             (Vectorized.init_weights nodata' y) as [w' n'].
    cbn [fst snd] in *. congruence. }
  unfold Vectorized.ws2dwcvp, Vectorized.ws2dwcvp_calls, Vectorized.ws2dwcvp_logged.
  rewrite H. split; reflexivity.
Qed.

Lemma nodata_only_through_mask_witness :
  let y := [1; 2; 3; 100; 5; 6; 7; 8; 9; 10] in
  validity y (-9999) = validity y 55 /\
  Vectorized.ws2dwcvp (R := Stand_in.runtime) y (-9999) 0.9 [0; 1; 2; 3] true
  = Vectorized.ws2dwcvp (R := Stand_in.runtime) y 55 0.9 [0; 1; 2; 3] true.
Proof.
  intros y.
  assert (H : validity y (-9999) = validity y 55) by reflexivity.
  split; [exact H|].
  exact (proj1 (nodata_only_through_mask (R := Stand_in.runtime) y (-9999) 55 0.9
                                         [0; 1; 2; 3] true H)).
Defined.

Section Scalar_not_robust.
Context {R : Runtime}.
Variables (y w : array) (p : float) (llas : array).






End Scalar_not_robust.


(** Both outcomes occur: weights that are all zero make the first score
    divide by their sum, and with unit weights the variant returns. *)
Lemma scalar_zero_weights_raise :
  Scalar._ws2dwcvp (R := Stand_in.runtime) [1; 5; 2; 8; 3] (repeat 0 5) 0.9 [0; 1; 2; 3] false
  = Raise ZeroDivisionError.
Proof. vm_compute. reflexivity. Qed.

Lemma scalar_unit_weights_return :
  scalar_divides_by_zero (R := Stand_in.runtime) [1; 5; 2; 8; 3] (repeat 1 5) [0; 1; 2; 3]
  = false /\
  exists z lopt,
    Scalar._ws2dwcvp (R := Stand_in.runtime) [1; 5; 2; 8; 3] (repeat 1 5) 0.9 [0; 1; 2; 3] false
    = Ok (z, lopt).
Proof.
  split; [vm_compute; reflexivity|].
  destruct (Scalar._ws2dwcvp (R := Stand_in.runtime) [1; 5; 2; 8; 3] (repeat 1 5) 0.9
                             [0; 1; 2; 3] false) as [[z lopt]|e] eqn:E.
  - eauto.
  - exfalso. vm_compute in E. discriminate.
Qed.

(** * Rounding and the store into the output *)

Section Rounding.
Import Float_facts.
Local Open Scope Z_scope.

(** The integer chosen for [m * 2^e], [e < 0], is a nearest one, and the even
    one of the two when [m * 2^e] is halfway. *)
Lemma round_half_even_nearest (m : positive) (e : Z) :
  e < 0 ->
  let k := round_half_even m e in
  let d := 2 ^ (- e) in
  0 <= k /\
  2 * Z.abs (k * d - Zpos m) <= d /\
  (2 * Z.abs (k * d - Zpos m) = d -> Z.even k = true).
Proof.
  intros He. cbn zeta. unfold round_half_even.
  replace (0 <=? e) with false by (symmetry; apply Z.leb_gt; lia).
  set (n := - e). assert (0 < n) as Hn by lia.
  rewrite Z.shiftr_div_pow2, Z.land_ones, Z.shiftl_mul_pow2, Z.mul_1_l by lia.
  set (d := 2 ^ n).
  assert (0 < d) as Hd by (apply Z.pow_pos_nonneg; lia).
  assert (d = 2 * 2 ^ (n - 1)) as Hh.
  { unfold d. replace n with (Z.succ (n - 1)) at 1 by lia. apply Z.pow_succ_r. lia. }
  set (h := 2 ^ (n - 1)) in *.
  pose proof (Z.div_mod (Zpos m) d ltac:(lia)) as Hdm.
  pose proof (Z.mod_pos_bound (Zpos m) d Hd) as Hr.
  set (q := Zpos m / d) in *. set (r := Zpos m mod d) in *.
  assert (0 <= q) as Hq by (apply Z.div_pos; lia).
  destruct (Z.ltb_spec r h) as [H1|H1]; [|destruct (Z.ltb_spec h r) as [H2|H2]].
  - repeat split; try lia.
  - repeat split; try lia.
  - assert (r = h) as Hrh by lia.
    destruct (Z.even q) eqn:Hev.
    + repeat split; try lia. intros _. exact Hev.
    + repeat split; try lia. intros _.
      rewrite Z.even_add, Hev. reflexivity.
Qed.

Lemma mantissa_small (x : float) (s : bool) (m : positive) (e : Z) :
  Prim2SF x = S754_finite s m e -> Zpos m < 2 ^ 53.
Proof.
  intros H. pose proof (Prim2SF_valid x) as Hv. rewrite H in Hv.
  unfold SpecFloat.valid_binary, bounded, canonical_mantissa, fexp in Hv.
  apply andb_prop in Hv as [Hc _]. apply Z.eqb_eq in Hc.
  pose proof (digits_bounds m) as [_ Hb].
  assert (Zpos (digits2_pos m) <= 53) as Hdig by (unfold prec in Hc; lia).
  eapply Z.lt_le_trans; [exact Hb|]. apply Z.pow_le_mono_r; lia.
Qed.

Lemma round_half_even_small (x : float) (s : bool) (m : positive) (e : Z) :
  Prim2SF x = S754_finite s m e -> e < 0 ->
  0 <= round_half_even m e < 2 ^ 53.
Proof.
  intros H He. pose proof (mantissa_small x s m e H) as Hm.
  destruct (round_half_even_nearest m e He) as (H0 & H1 & _).
  split; [exact H0|].
  set (k := round_half_even m e) in *. set (d := 2 ^ (- e)) in *.
  assert (2 <= d).
  { unfold d. replace (- e) with (Z.succ (- e - 1)) by lia.
    rewrite Z.pow_succ_r by lia.
    assert (0 < 2 ^ (- e - 1)) by (apply Z.pow_pos_nonneg; lia). lia. }
  assert (2 ^ 53 = 9007199254740992) as E by reflexivity. rewrite E in *.
  nia.
Qed.
End Rounding.

Section Integral.
Import Float_facts.

Lemma Z2f_zero : Z2f 0 = 0.
Proof. reflexivity. Qed.

Lemma shifted_parts (p : positive) (n : nat) :
  (Zpos (Nat.iter n xO p) / 2 ^ Z.of_nat n = Zpos p /\
   Zpos (Nat.iter n xO p) mod 2 ^ Z.of_nat n = 0)%Z.
Proof.
  rewrite value_shift.
  assert (0 < 2 ^ Z.of_nat n)%Z by (apply Z.pow_pos_nonneg; lia).
  split; [apply Z.div_mul; lia | apply Z.mod_mul; lia].
Qed.

Lemma round_half_even_shifted (p : positive) (n : nat) :
  n <> 0%nat -> round_half_even (Nat.iter n xO p) (- Z.of_nat n) = Zpos p.
Proof.
  intros Hn. unfold round_half_even.
  replace (0 <=? - Z.of_nat n)%Z with false by (symmetry; apply Z.leb_gt; lia).
  rewrite Z.opp_involutive.
  rewrite Z.shiftr_div_pow2, Z.land_ones, Z.shiftl_mul_pow2, Z.mul_1_l by lia.
  destruct (shifted_parts p n) as [-> ->].
  assert (0 < 2 ^ (Z.of_nat n - 1))%Z by (apply Z.pow_pos_nonneg; lia).
  replace (0 <? 2 ^ (Z.of_nat n - 1))%Z with true by (symmetry; apply Z.ltb_lt; lia).
  reflexivity.
Qed.

(** The float of an integer below [2^53] is its own rounding. *)
Lemma np_round_Z2f (k : Z) : (0 <= k < 2 ^ 53)%Z -> np_round (Z2f k) = Z2f k.
Proof.
  intros Hk. destruct k as [|p|p]; [reflexivity | | lia].
  unfold np_round. rewrite (Z2f_spec p) by lia.
  destruct (0 <=? - Z.of_nat (pad p))%Z eqn:E; [reflexivity|].
  apply Z.leb_gt in E. rewrite round_half_even_shifted by lia. reflexivity.
Qed.

Lemma opp_involutive (x : float) : - - x = x.
Proof.
  apply Prim2SF_inj. rewrite !opp_spec.
  destruct (Prim2SF x) as [s|s| |s m e]; cbn; try rewrite negb_involutive; reflexivity.
Qed.

Lemma np_round_opp (x : float) : np_round (- x) = - np_round x.
Proof.
  unfold np_round. rewrite opp_spec.
  destruct (Prim2SF x) as [s|s| |s m e]; cbn [SFopp]; try reflexivity.
  destruct (0 <=? e)%Z; [reflexivity|].
  destruct s; cbn [negb]; [now rewrite opp_involutive | reflexivity].
Qed.

(** The integer of the float of an integer below [2^53]. *)
Lemma f64_trunc_Z2f (k : Z) : (0 <= k < 2 ^ 53)%Z -> f64_trunc (Z2f k) = Some k.
Proof.
  intros Hk. destruct k as [|p|p]; [reflexivity | | lia].
  unfold f64_trunc. rewrite (Z2f_spec p) by lia. f_equal.
  destruct (0 <=? - Z.of_nat (pad p))%Z eqn:E.
  - apply Z.leb_le in E. assert (pad p = 0%nat) as -> by lia. reflexivity.
  - rewrite Z.opp_involutive, Z.shiftr_div_pow2 by lia.
    now destruct (shifted_parts p (pad p)) as [-> _].
Qed.

Lemma f64_trunc_opp (x : float) : f64_trunc (- x) = option_map Z.opp (f64_trunc x).
Proof.
  unfold f64_trunc. rewrite opp_spec.
  destruct (Prim2SF x) as [s|s| |s m e]; cbn [SFopp option_map]; try reflexivity.
  f_equal. destruct s; cbn [negb]; lia.
Qed.
End Integral.

(** X15: rounding a rounded value changes nothing: the values
    [numpy.round_(z, 0)] leaves are fixed points of the rounding. *)
Theorem np_round_idempotent (x : float) : np_round (np_round x) = np_round x.
Proof.
  unfold np_round at 2 3.
  destruct (Prim2SF x) as [s|s| |s m e] eqn:E;
    try (unfold np_round; rewrite E; reflexivity).
  destruct (0 <=? e)%Z eqn:He.
  - unfold np_round. rewrite E, He. reflexivity.
  - apply Z.leb_gt in He.
    pose proof (round_half_even_small x s m e E He) as Hk.
    destruct s.
    + now rewrite np_round_opp, np_round_Z2f.
    + now apply np_round_Z2f.
Qed.

(** What is stored for a float that holds an integer of the [int16] range. *)
Lemma f64_to_i16_integer {R : Runtime} (x : float) (k : Z) :
  f64_trunc x = Some k -> int16_range k = true -> f64_to_i16 x = k.
Proof. intros H Hk. unfold f64_to_i16. now rewrite H, Hk. Qed.

(** Reading an [int16] as a float and storing it again gives it back. *)
Lemma store_round_trip {R : Runtime} (v : Z) :
  int16_range v = true -> f64_to_i16 (i16_to_f64 v) = v.
Proof.
  intros Hv. pose proof Hv as Hv'.
  unfold int16_range in Hv'. apply andb_prop in Hv' as [H1 H2].
  apply Z.leb_le in H1, H2.
  assert (2 ^ 53 = 9007199254740992)%Z as E by reflexivity.
  apply f64_to_i16_integer; [|exact Hv]. unfold i16_to_f64.
  destruct (Z.ltb_spec v 0).
  - rewrite f64_trunc_opp, f64_trunc_Z2f by lia. cbn [option_map]. f_equal. lia.
  - apply f64_trunc_Z2f. lia.
Qed.

(** X16: [numpy.round_(z, 0)] on a finite value [(-1)^s * m * 2^e] with a
    fractional part ([e < 0]) gives the float of an integer [k], with the sign
    of the value, such that [k] is at most one half away from [m * 2^e], and
    is even when it is exactly one half away; when that integer is in the
    range of [int16], it is what the output holds. *)
Theorem np_round_nearest_even {R : Runtime} (x : float) (s : bool) (m : positive) (e : Z) :
  Prim2SF x = S754_finite s m e ->
  (e < 0)%Z ->
  exists k : Z,
    np_round x = (if s then - Z2f k else Z2f k) /\
    (0 <= k < 2 ^ 53)%Z /\
    (2 * Z.abs (k * 2 ^ (- e) - Zpos m) <= 2 ^ (- e))%Z /\
    ((2 * Z.abs (k * 2 ^ (- e) - Zpos m) = 2 ^ (- e))%Z -> Z.even k = true) /\
    (int16_range (if s then - k else k) = true ->
     f64_to_i16 (np_round x) = (if s then - k else k)%Z).
Proof.
  intros E He. exists (round_half_even m e).
  pose proof (round_half_even_small x s m e E He) as Hk.
  destruct (round_half_even_nearest m e He) as (_ & Hnear & Heven).
  assert (np_round x = if s then - Z2f (round_half_even m e) else Z2f (round_half_even m e))
    as Hr.
  { unfold np_round. rewrite E.
    replace (0 <=? e)%Z with false by (symmetry; apply Z.leb_gt; lia). reflexivity. }
  split; [exact Hr|]. split; [exact Hk|]. split; [exact Hnear|]. split; [exact Heven|].
  apply f64_to_i16_integer. rewrite Hr. destruct s.
  - now rewrite f64_trunc_opp, f64_trunc_Z2f.
  - now apply f64_trunc_Z2f.
Qed.

Lemma np_round_nearest_even_witness :
  Prim2SF 2.5 = S754_finite false 5629499534213120 (-51) /\
  (-51 < 0)%Z /\
  exists k : Z,
    np_round 2.5 = Z2f k /\
    (0 <= k < 2 ^ 53)%Z /\
    (2 * Z.abs (k * 2 ^ 51 - 5629499534213120) <= 2 ^ 51)%Z /\
    ((2 * Z.abs (k * 2 ^ 51 - 5629499534213120) = 2 ^ 51)%Z -> Z.even k = true) /\
    (int16_range k = true -> f64_to_i16 (R := Stand_in.runtime) (np_round 2.5) = k).
Proof.
  assert (H : Prim2SF 2.5 = S754_finite false 5629499534213120 (-51)) by reflexivity.
  split; [exact H|]. split; [reflexivity|].
  exact (np_round_nearest_even (R := Stand_in.runtime) 2.5 false 5629499534213120 (-51)
                               H eq_refl).
Defined.

(** X17: on the degenerate path, a series of integers of the [int16] range
    is returned as it is: with five valid samples or fewer, the output holds
    the very integers the samples stand for, and the penalty is 0. *)
Theorem fallback_returns_integers {R : Runtime} (vs : list Z) (nodata p : float)
        (llas : array) (robust : bool) :
  forallb int16_range vs = true ->
  (n_valid (map i16_to_f64 vs) nodata <= 5)%Z ->
  Vectorized.ws2dwcvp (map i16_to_f64 vs) nodata p llas robust = Ok (vs, 0).
Proof.
  intros Hr Hn. unfold Vectorized.ws2dwcvp.
  rewrite ws2dwcvp_logged_fallback; [|exact Hn].
  cbn [fst]. do 2 f_equal. rewrite map_map.
  rewrite forallb_forall in Hr.
  rewrite <- (map_id vs) at 2. apply map_ext_in.
  intros v Hv. apply store_round_trip. now apply Hr.
Qed.

Lemma fallback_returns_integers_witness :
  let vs := [120; -9999; -9999; 7; -32768; -9999]%Z in
  forallb int16_range vs = true /\
  (n_valid (map i16_to_f64 vs) (-9999) <= 5)%Z /\
  Vectorized.ws2dwcvp (R := Stand_in.runtime) (map i16_to_f64 vs) (-9999) 0.9 [0; 1; 2; 3] true
  = Ok (vs, 0).
Proof.
  intros vs.
  assert (H2 : forallb int16_range vs = true) by reflexivity.
  assert (H3 : (n_valid (map i16_to_f64 vs) (-9999) <= 5)%Z) by (vm_compute; discriminate).
  repeat (split; [assumption|]).
  exact (fallback_returns_integers (R := Stand_in.runtime) vs (-9999) 0.9 [0; 1; 2; 3] true
                                   H2 H3).
Defined.

(** * The first update, the symmetric envelope and the later turns *)

Section Symmetric.
Context {R : Runtime}.

Lemma select_all (r_weights r : array) :
  length r = length r_weights ->
  Forall (fun v => (v =? 0) = false) r_weights ->
  select (map (fun v => negb (v =? 0)) r_weights) r = r.
Proof.
  revert r; induction r_weights as [|v rw IH]; intros [|x r] Hl Hf; try discriminate;
    [reflexivity|].
  inversion Hf as [|? ? Hv Hf']; subst. cbn [map select]. rewrite Hv. cbn [negb].
  f_equal. apply IH; [now injection Hl | exact Hf'].
Qed.

Lemma ones_not_zero (m : nat) : Forall (fun v => (v =? 0) = false) (np_ones m).
Proof. unfold np_ones. induction m; constructor; [reflexivity | assumption]. Qed.

(** With [p = 0.5] the two envelope weights are the same. *)
Lemma envelope_weights_half (y z rw : array) :
  length z = length y -> length rw = length y ->
  envelope_weights 0.5 y z rw = map (fun r => r * 0.5) rw.
Proof.
  revert z rw; induction y as [|x y IH]; intros [|zj z] [|r rw] Hz Hr; try discriminate;
    [reflexivity|].
  cbn [envelope_weights map]. rewrite IH by (cbn in *; lia).
  f_equal. destruct (zj <? x); reflexivity.
Qed.

(** The weights the envelope loop leaves are those of its last pass. *)
Lemma envelope_loop_weights (y : array) (p : float) (k : nat) (rw : array) (lopt : float)
      (st e : envelope_state) (tr tr' : list call) :
  k <> 0%nat -> length (z st) = length y ->
  Vectorized.envelope_loop y p k rw lopt st tr = (Ok e, tr') ->
  exists zl, length zl = length y /\ ww e = envelope_weights p y zl rw.
Proof.
  revert st tr; induction k as [|k IH]; intros st tr Hk Hz; [congruence|].
  cbn [Vectorized.envelope_loop]. unfold bind, call_ws2d.
  destruct (total_change _ _ =? 0).
  - intros [= <- _]. exists (z st). split; [exact Hz | reflexivity].
  - destruct k as [|k].
    + cbn. intros [= <- _]. exists (z st). split; [exact Hz | reflexivity].
    + apply IH; [discriminate|]. cbn [z]. apply ws2d_shape.
Qed.
End Symmetric.

(** X19: with [p = 0.5] the envelope is symmetric: both envelope weights are
    0.5, the weights of every pass are the halved [robust_weights] whatever
    the estimate, and the output is the rounded curve of the smoother for
    these weights and the reported penalty.  Without [robust] they are the
    halved validity weights. *)
Theorem symmetric_envelope {R : Runtime} (y : array) (nodata : float) (llas : array)
        (robust : bool) (out : list Z) (lopt : float) :
  Vectorized.ws2dwcvp y nodata 0.5 llas robust = Ok (out, lopt) ->
  (5 < n_valid y nodata)%Z ->
  exists st rw,
    fst (after_turns y nodata llas robust (if robust then 4 else 1)) = Ok st /\
    robust_weights st = Some rw /\
    (robust = false -> rw = validity y nodata) /\
    out = map (fun v => f64_to_i16 (np_round v)) (ws2d y lopt (map (fun r => r * 0.5) rw)).
Proof.
  intros Hrun Hn.
  destruct (ws2dwcvp_logged_optimize y nodata 0.5 llas robust Hn) as (d_eigs & Hd & _ & Heq).
  unfold Vectorized.ws2dwcvp in Hrun. rewrite Heq in Hrun.
  destruct (Vectorized.optimize _ _ _ _ _ _ _ _) as [r tr'] eqn:E. cbn in Hrun. subst r.
  apply optimize_inv
    in E as (st & tr1 & rw & e & calls & Hloop & _ & Hrw & Henv & _ & _ & _ & _ & _ & -> & _).
  assert (Vectorized.r_its robust = if robust then 4 else 1)%nat as Hits
      by (destruct robust; reflexivity).
  rewrite Hits in Hloop.
  exists st, rw. unfold after_turns. rewrite Hd, Hloop.
  split; [reflexivity|]. split; [exact Hrw|].
  assert (exists k, (if robust then 4 else 1)%nat = S k) as (k & Hk)
      by (destruct robust; eauto).
  pose proof (robust_loop_sound _ _ _ _ _ _ _ _ _ Hloop) as [_ Hlen].
  rewrite Hk in Hloop. apply robust_loop_prefix in Hloop as (st0 & tr0 & H0 & Hit).
  pose proof Hit as Hit'.
  apply robust_iteration_inv in Hit as (grid & _ & _ & _ & _ & Hw & Hupd).
  rewrite Hrw in Hw. injection Hw as ->.
  split.
  - intros ->. cbn in Hk. injection Hk as <-. cbn in H0. injection H0 as <- <-.
    rewrite Hupd. cbn [loop_init r_weights]. apply validity_times_ones.
  - do 2 f_equal.
    apply envelope_loop_weights in Henv as (zl & Hzl & ->);
      [|discriminate | cbn; apply repeat_length].
    apply envelope_weights_half; [exact Hzl|].
    rewrite map2_length. unfold validity. rewrite init_weights_length, Hlen. apply Nat.min_id.
Qed.

Lemma symmetric_envelope_witness :
  let y := [1; 2; 3; 100; 5; 6; 7; 8; 9; 10] in
  Vectorized.ws2dwcvp (R := Stand_in.runtime) y (-9999) 0.5 [0; 1; 2; 3] false
  = Ok ([18; 18; 17; 16; 16; 15; 14; 13; 12; 12]%Z, 1000) /\
  (5 < n_valid y (-9999))%Z /\
  [18; 18; 17; 16; 16; 15; 14; 13; 12; 12]%Z
  = map (fun v => f64_to_i16 (R := Stand_in.runtime) (np_round v))
        (Stand_in.whittaker y 1000 (map (fun r => r * 0.5) (validity y (-9999)))).
Proof.
  intros y.
  assert (Hrun : Vectorized.ws2dwcvp (R := Stand_in.runtime) y (-9999) 0.5 [0; 1; 2; 3] false
                 = Ok ([18; 18; 17; 16; 16; 15; 14; 13; 12; 12]%Z, 1000))
    by (vm_compute; reflexivity).
  assert (Hn : (5 < n_valid y (-9999))%Z) by (vm_compute; reflexivity).
  split; [exact Hrun|]. split; [exact Hn|].
  destruct (symmetric_envelope (R := Stand_in.runtime) y (-9999) [0; 1; 2; 3] false _ _
                               Hrun Hn) as (st & rw & _ & _ & Hrw & Hout).
  rewrite (Hrw eq_refl) in Hout. exact Hout.
Defined.

(** X18: the first update of the robustness weights standardizes the
    residuals with the median absolute deviation of the residuals of all the
    samples, the invalid ones included: the selection [r_weights != 0] keeps
    every residual while the robustness weights are the initial ones, and the
    validity weights have no part in it. *)
Theorem first_update_over_all_samples {R : Runtime} (y : array) (nodata : float)
        (llas : array) (st : loop_state) (d_eigs fitted : array) :
  eigenvalues (length y) = Ok d_eigs ->
  fst (after_turns y nodata llas true 1) = Ok st ->
  tempNDVI_arr (record st) = Some fitted ->
  let r_arr := map2 sub y fitted in
  let gamma := gamma_of (validity y nodata) d_eigs (snd (gcv_temp (record st))) in
  let u_arr :=
    map (fun v => v / (1.4826 * mad r_arr * sqrt (1 - np_sum gamma / Z2f (n_valid y nodata))))
        r_arr in
  length r_arr = length y /\
  r_weights st
  = assign_where (map (fun v => 0 <? v) r_arr) 1
      (assign_where (map (fun u => 1 <? abs (u / 4.685)) u_arr) 0
         (map (fun u => np_power (1 - np_power (u / 4.685) 2) 2) u_arr)).
Proof.
  intros Hd H1 Hf. cbn zeta.
  pose proof H1 as H1'.
  apply after_turns_S in H1' as (d & st0 & tr & tr' & Hd' & H0 & _ & Hit & _ & [[_ Hlen] _]).
  rewrite Hd in Hd'. injection Hd' as <-.
  unfold after_turns in H0. rewrite Hd in H0. cbn in H0. injection H0 as <- <-.
  apply robust_iteration_inv in Hit as (grid & _ & _ & _ & _ & _ & fitted' & Hf' & Hrw).
  rewrite Hf in Hf'. injection Hf' as <-.
  assert (length (map2 sub y fitted) = length y) as Hr
      by (rewrite map2_length, (Hlen fitted Hf); apply Nat.min_id).
  split; [exact Hr|].
  rewrite Hrw. cbn [loop_init r_weights]. rewrite validity_times_ones.
  unfold tukey_update, mad.
  rewrite select_all; [reflexivity | | apply ones_not_zero].
  rewrite Hr. unfold np_ones. now rewrite repeat_length.
Qed.

Lemma first_update_over_all_samples_witness :
  let y := [1; 2; 3; -9999; 5; 6; 7; 8; 9; 10] in
  exists st d_eigs fitted,
    eigenvalues (R := Stand_in.runtime) (length y) = Ok d_eigs /\
    fst (after_turns (R := Stand_in.runtime) y (-9999) [0; 1; 2; 3] true 1) = Ok st /\
    tempNDVI_arr (record st) = Some fitted /\
    length (map2 sub y fitted) = 10%nat.
Proof.
  intros y.
  destruct (eigenvalues (R := Stand_in.runtime) (length y)) as [d_eigs|] eqn:Hd;
    [|vm_compute in Hd; discriminate].
  destruct (fst (after_turns (R := Stand_in.runtime) y (-9999) [0; 1; 2; 3] true 1))
    as [st|] eqn:H1; [|vm_compute in H1; discriminate].
  destruct (tempNDVI_arr (record st)) as [fitted|] eqn:Hf;
    [|vm_compute in H1; injection H1 as <-; discriminate].
  exists st, d_eigs, fitted. repeat (split; [reflexivity || assumption|]).
  exact (proj1 (first_update_over_all_samples (R := Stand_in.runtime) y (-9999) [0; 1; 2; 3]
                                              st d_eigs fitted Hd H1 Hf)).
Defined.

(** X20: in a robust run that reports a penalty other than zero, the third
    and the fourth turn scan that penalty alone, the entries 1, 2 and 3 of the
    history all hold it, the robust loop makes [2 len(llas) + 2] calls of the
    smoother and the whole run at most [2 len(llas) + 13]. *)
Theorem penalty_frozen_after_second_turn {R : Runtime} (y : array) (nodata p : float)
        (llas : array) (out : list Z) (lopt : float) :
  Vectorized.ws2dwcvp y nodata p llas true = Ok (out, lopt) ->
  (5 < n_valid y nodata)%Z ->
  (lopt =? 0) = false ->
  exists st tr,
    after_turns y nodata llas true 4 = (Ok st, tr) /\
    (forall k, (1 <= k < 4)%nat -> exists score, nth_error (robust_gcv st) k = Some (score, lopt)) /\
    length tr = (2 * length llas + 2)%nat /\
    (length (Vectorized.ws2dwcvp_calls y nodata p llas true) <= 2 * length llas + 13)%nat.
Proof.
  intros Hrun Hn Hz.
  destruct (ws2dwcvp_logged_optimize y nodata p llas true Hn) as (d_eigs & Hd & _ & Heq).
  unfold Vectorized.ws2dwcvp in Hrun. unfold Vectorized.ws2dwcvp_calls. rewrite Heq in *.
  destruct (Vectorized.optimize _ _ _ _ _ _ _ _) as [r tr'] eqn:E. cbn in Hrun. subst r.
  apply optimize_inv
    in E as (st4 & tr4 & rw & e & calls & Hloop & Hsel & _ & _ & _ & Hcalls & _ & _ & _ & _ & ->).
  change (Vectorized.r_its true) with 4%nat in Hloop.
  unfold Vectorized.select_lopt in Hsel.
  destruct (nth_error (robust_gcv st4) 1) as [g|] eqn:Hg; [|discriminate].
  injection Hsel as <-.
  pose proof Hloop as H4.
  apply robust_loop_prefix in H4 as (st3 & tr3 & H3 & Hit3).
  pose proof H3 as H3'.
  apply robust_loop_prefix in H3' as (st2 & tr2 & H2 & Hit2).
  pose proof H2 as H2'.
  apply robust_loop_prefix in H2' as (st1 & tr1 & H1 & Hit1).
  pose proof H1 as H1'.
  apply robust_loop_prefix in H1' as (st0 & tr0 & H0 & Hit0).
  cbn in H0. injection H0 as <- <-.
  apply robust_iteration_inv in Hit0 as (g0 & Hg0 & _ & Hh1 & Htr1 & _).
  apply robust_iteration_inv in Hit1 as (g1 & Hg1 & _ & Hh2 & Htr2 & _).
  rewrite smoothing_of_early in Hg0, Hg1 by lia. injection Hg0 as <-. injection Hg1 as <-.
  cbn [loop_init robust_gcv app] in Hh1.
  rewrite Hh1 in Hh2. cbn [app] in Hh2.
  pose proof (robust_iteration_inv _ _ _ _ _ _ _ _ _ _ _ Hit2)
    as (g2 & Hg2 & Hr3 & Hh3 & Htr3 & _).
  pose proof (robust_iteration_inv _ _ _ _ _ _ _ _ _ _ _ Hit3)
    as (g3 & Hg3 & Hr4 & Hh4 & Htr4 & _).
  rewrite Hh2 in Hh3. cbn [app] in Hh3. rewrite Hh3 in Hh4. cbn [app] in Hh4.
  rewrite Hh4 in Hg. cbn in Hg. injection Hg as <-.
  set (lopt := snd (gcv_temp (record st2))) in *.
  rewrite (smoothing_of_late llas 2 (robust_gcv st2) (gcv_temp (record st2))) in Hg2;
    [|lia | now rewrite Hh2 | exact Hz].
  rewrite (smoothing_of_late llas 3 (robust_gcv st3) (gcv_temp (record st2))) in Hg3;
    [|lia | now rewrite Hh3 | exact Hz].
  injection Hg2 as <-. injection Hg3 as <-.
  assert (snd (gcv_temp (record st3)) = lopt) as Hp3
      by (rewrite Hr3; now apply challenge_same_penalty).
  assert (snd (gcv_temp (record st4)) = lopt) as Hp4
      by (rewrite Hr4; now apply challenge_same_penalty).
  assert (length tr4 = 2 * length llas + 2)%nat as Hlen.
  { rewrite Htr4, Htr3, Htr2, Htr1. rewrite !length_app, !length_map. unfold full_grid.
    rewrite length_map. cbn [length]. lia. }
  exists st4, tr4. unfold after_turns. rewrite Hd.
  split; [exact Hloop|]. split; [|split; [exact Hlen|]].
  - intros k Hk. rewrite Hh4.
    destruct k as [|[|[|[|k]]]]; try lia; cbn [nth_error].
    + exists (fst (gcv_temp (record st2))). now destruct (gcv_temp (record st2)).
    + exists (fst (gcv_temp (record st3))). rewrite <- Hp3. now destruct (gcv_temp (record st3)).
    + exists (fst (gcv_temp (record st4))). rewrite <- Hp4. now destruct (gcv_temp (record st4)).
  - cbn [snd]. rewrite !length_app. cbn [length]. lia.
Qed.

Lemma penalty_frozen_after_second_turn_witness :
  let y := [1; 2; 3; 100; 5; 6; 7; 8; 9; 10] in
  Vectorized.ws2dwcvp (R := Stand_in.runtime) y (-9999) 0.9 [0; 1; 2; 3] true
  = Ok ([95; 86; 77; 67; 58; 48; 38; 29; 19; 10]%Z, 1000) /\
  (5 < n_valid y (-9999))%Z /\
  (1000 =? 0) = false /\
  length (snd (after_turns (R := Stand_in.runtime) y (-9999) [0; 1; 2; 3] true 4)) = 10%nat.
Proof.
  intros y.
  assert (Hrun : Vectorized.ws2dwcvp (R := Stand_in.runtime) y (-9999) 0.9 [0; 1; 2; 3] true
                 = Ok ([95; 86; 77; 67; 58; 48; 38; 29; 19; 10]%Z, 1000))
    by (vm_compute; reflexivity).
  assert (Hn : (5 < n_valid y (-9999))%Z) by (vm_compute; reflexivity).
  assert (Hz : (1000 =? 0) = false) by reflexivity.
  repeat (split; [assumption|]).
  destruct (penalty_frozen_after_second_turn (R := Stand_in.runtime) y (-9999) 0.9
              [0; 1; 2; 3] _ _ Hrun Hn Hz) as (st & tr & -> & _ & Hlen & _).
  exact Hlen.
Defined.
